(** * Console-Chess: a shallow embedding of the move-legality engine

    The development follows [base.py] (Table, Player, Figure) and
    [figures.py] (cut_before, cut_after, Pawn, Rook, Bishop, Queen, Knight,
    King).  Python objects live in a store and are named by references, the
    lazily filled caches ([_position], [_available_moves], [_figures]) are
    fields of the stored objects, and every method is a computation in a
    state-and-exception monad: an exception keeps the mutations made before
    it was raised, as in Python. *)

From stdpp Require Import gmap strings list.
From Stdlib Require Import ZArith Lia.

Local Open Scope Z_scope.

(** ** Data model *)

(** A square is the tuple [(row, column)] of Python ints. *)
Definition pos : Type := Z * Z.

(** References to Figure and Player objects (object identity). *)
Definition fid : Type := nat.
Definition pid : Type := nat.

(** The six concrete classes of [figures.py]. *)
Inductive Kind := Pawn | Rook | Bishop | Queen | Knight | King.

Global Instance Kind_eq_dec : EqDecision Kind.
Proof. solve_decision. Defined.

(** The exceptions the engine raises.  [NoSuchObject] is not a Python
    exception: it is what the model answers when a reference is not bound in
    the store, which no Python run can observe. *)
Inductive Exn :=
  | InvalidMove | MissingFigure | AccessError | IndexError
  | RecursionError | NoSuchObject.

Global Instance Exn_eq_dec : EqDecision Exn.
Proof. solve_decision. Defined.

(** A Figure object: [_player], [_position], [_available_moves]; [first_move]
    is the attribute only Pawn objects carry (ignored for the other kinds). *)
Record Figure := mkFigure {
  fig_kind : Kind;
  fig_player : pid;
  fig_position : option pos;
  fig_available_moves : option (gset pos);
  fig_first_move : bool
}.

(** A Player object: [goes_up], [name], [_figures]. *)
Record Player := mkPlayer {
  pl_goes_up : bool;
  pl_name : string;
  pl_figures : option (list fid)
}.

(** The Table object: a list of row lists with [rows], [columns] and the
    [_figures] cache. *)
Record Table := mkTable {
  tbl_rows : Z;
  tbl_columns : Z;
  tbl_cells : list (list (option fid));
  tbl_figures : option (list fid)
}.

(** The store: one shared table, the players and the figures. *)
Record State := mkState {
  st_table : Table;
  st_players : gmap pid Player;
  st_figures : gmap fid Figure
}.

(** ** The state-and-exception monad *)

Inductive Result (A : Type) :=
  | Ok (a : A)
  | Raise (e : Exn).
Arguments Ok {A} a.
Arguments Raise {A} e.

Definition M (A : Type) : Type := State → Result A * State.

Definition ret {A} (a : A) : M A := λ s, (Ok a, s).
Definition raise {A} (e : Exn) : M A := λ s, (Raise e, s).
Definition bind {A B} (m : M A) (k : A → M B) : M B :=
  λ s, match m s with
       | (Ok a, s') => k a s'
       | (Raise e, s') => (Raise e, s')
       end.
Definition gets {A} (f : State → A) : M A := λ s, (Ok (f s), s).
Definition modify (f : State → State) : M unit := λ s, (Ok tt, f s).

Notation "x <<- m ;; k" := (bind m (λ x, k))
  (at level 100, m at next level, right associativity).
Notation "m ;;; k" := (bind m (λ _, k))
  (at level 100, right associativity).

(** [for x in l: body x] *)
Fixpoint for_each {A} (l : list A) (body : A → M unit) : M unit :=
  match l with
  | [] => ret tt
  | x :: l' => body x ;;; for_each l' body
  end.

(** [[f x for x in l]] *)
Fixpoint map_m {A B} (f : A → M B) (l : list A) : M (list B) :=
  match l with
  | [] => ret []
  | x :: l' => y <<- f x ;; ys <<- map_m f l' ;; ret (y :: ys)
  end.

(** [[x for x in l if f x]] *)
Fixpoint filter_m {A} (f : A → M bool) (l : list A) : M (list A) :=
  match l with
  | [] => ret []
  | x :: l' =>
      b <<- f x ;; ys <<- filter_m f l' ;; ret (if b then x :: ys else ys)
  end.

(** ** Python lists *)

(** [l[i]] for a Python int [i]: negative indices count from the end, and an
    index outside [-len, len) raises IndexError. *)
Definition py_index (len i : Z) : option nat :=
  if (0 <=? i) && (i <? len) then Some (Z.to_nat i)
  else if (- len <=? i) && (i <? 0) then Some (Z.to_nat (len + i))
  else None.

Definition getitem {A} (l : list A) (i : Z) : Result A :=
  match py_index (Z.of_nat (length l)) i with
  | Some k => match l !! k with Some x => Ok x | None => Raise IndexError end
  | None => Raise IndexError
  end.

(** [l.index(x)]: the first index holding [x], [None] for ValueError. *)
Definition list_index {A} `{EqDecision A} (x : A) (l : list A) : option nat :=
  fst <$> list_find (λ y, y = x) l.

(** [l.remove(x)] inside [try ... except ValueError: pass]. *)
Fixpoint list_remove {A} `{EqDecision A} (x : A) (l : list A) : list A :=
  match l with
  | [] => []
  | y :: l' => if decide (y = x) then l' else y :: list_remove x l'
  end.

(** [range(a, b)] *)
Definition range (a b : Z) : list Z := seqZ a (b - a).

(** ** Store access *)

Definition set_table (t : Table) (s : State) : State :=
  mkState t (st_players s) (st_figures s).
Definition set_cells (c : list (list (option fid))) (t : Table) : Table :=
  mkTable (tbl_rows t) (tbl_columns t) c (tbl_figures t).
Definition set_tbl_figures (c : option (list fid)) (t : Table) : Table :=
  mkTable (tbl_rows t) (tbl_columns t) (tbl_cells t) c.
Definition set_fig_position (p : option pos) (f : Figure) : Figure :=
  mkFigure (fig_kind f) (fig_player f) p (fig_available_moves f)
           (fig_first_move f).
Definition set_fig_available_moves (m : option (gset pos)) (f : Figure)
  : Figure :=
  mkFigure (fig_kind f) (fig_player f) (fig_position f) m (fig_first_move f).
Definition set_fig_first_move (b : bool) (f : Figure) : Figure :=
  mkFigure (fig_kind f) (fig_player f) (fig_position f)
           (fig_available_moves f) b.
Definition set_pl_figures (c : option (list fid)) (p : Player) : Player :=
  mkPlayer (pl_goes_up p) (pl_name p) c.

Definition read_figure (f : fid) : M Figure :=
  λ s, match st_figures s !! f with
       | Some x => (Ok x, s)
       | None => (Raise NoSuchObject, s)
       end.
Definition update_figure (f : fid) (u : Figure → Figure) : M unit :=
  modify (λ s, mkState (st_table s) (st_players s) (alter u f (st_figures s))).
Definition read_player (p : pid) : M Player :=
  λ s, match st_players s !! p with
       | Some x => (Ok x, s)
       | None => (Raise NoSuchObject, s)
       end.
Definition update_player (p : pid) (u : Player → Player) : M unit :=
  modify (λ s, mkState (st_table s) (alter u p (st_players s)) (st_figures s)).
Definition update_table (u : Table → Table) : M unit :=
  modify (λ s, set_table (u (st_table s)) s).
Definition of_result {A} (r : Result A) : M A := λ s, (r, s).

(** ** base.py: Table *)

(** [Table.__init__]: the comprehension
    [[[None for column in range(self.rows)] for row in range(self.columns)]]. *)
Definition Table_init (rows columns : Z) : Table :=
  mkTable rows columns
          (replicate (Z.to_nat columns) (replicate (Z.to_nat rows) None))
          None.

(** The double loop of [get_figure_position]: the first cell, in row-major
    order, holding the figure. *)
Fixpoint locate (f : fid) (cs : list (list (option fid))) (r : nat)
  : option pos :=
  match cs with
  | [] => None
  | row :: rest =>
      match list_index (Some f) row with
      | Some c => Some (Z.of_nat r, Z.of_nat c)
      | None => locate f rest (S r)
      end
  end.

Definition Table_get_figure_position (f : fid) : M pos :=
  cs <<- gets (λ s, tbl_cells (st_table s)) ;;
  match locate f cs 0 with
  | Some p => ret p
  | None => raise MissingFigure
  end.

(** [self[position[0]][position[1]]] *)
Definition cell_at (cs : list (list (option fid))) (p : pos)
  : Result (option fid) :=
  match getitem cs p.1 with
  | Ok row => getitem row p.2
  | Raise e => Raise e
  end.

Definition Table_get_figure (p : pos) : M (option fid) :=
  cs <<- gets (λ s, tbl_cells (st_table s)) ;;
  of_result (cell_at cs p).

(** [self[position[0]][position[1]] = figure] *)
Definition store_cell (cs : list (list (option fid))) (p : pos)
    (c : option fid) : Result (list (list (option fid))) :=
  match py_index (Z.of_nat (length cs)) p.1 with
  | Some r =>
      match cs !! r with
      | Some row =>
          match py_index (Z.of_nat (length row)) p.2 with
          | Some k => Ok (<[r := <[k := c]> row]> cs)
          | None => Raise IndexError
          end
      | None => Raise IndexError
      end
  | None => Raise IndexError
  end.

Definition Table_set_figure (c : option fid) (p : pos) : M unit :=
  cs <<- gets (λ s, tbl_cells (st_table s)) ;;
  cs' <<- of_result (store_cell cs p c) ;;
  update_table (set_cells cs').

(** The comprehension of [Table.figures]. *)
Definition scan (cs : list (list (option fid))) : list fid :=
  omap id (concat cs).

Definition Table_figures : M (list fid) :=
  c <<- gets (λ s, tbl_figures (st_table s)) ;;
  match c with
  | Some l => ret l
  | None =>
      cs <<- gets (λ s, tbl_cells (st_table s)) ;;
      update_table (set_tbl_figures (Some (scan cs))) ;;;
      ret (scan cs)
  end.

Definition Table_reset : M unit := update_table (set_tbl_figures None).

(** ** base.py: Figure (the concrete part) *)

Definition Figure_player (self : fid) : M pid :=
  fg <<- read_figure self ;; ret (fig_player fg).

(** The setter of the [player] property: its body [self.player = player]
    invokes the setter again.  [depth] is the number of frames left before
    the interpreter's recursion limit. *)
Fixpoint Figure_player_setter (depth : nat) (self : fid) (player : pid)
  : M unit :=
  match depth with
  | O => raise RecursionError
  | S d => Figure_player_setter d self player
  end.

Definition Figure_position (self : fid) : M pos :=
  fg <<- read_figure self ;;
  match fig_position fg with
  | Some p => ret p
  | None =>
      p <<- Table_get_figure_position self ;;
      update_figure self (set_fig_position (Some p)) ;;;
      ret p
  end.

Definition Figure_reset (self : fid) : M unit :=
  update_figure self (set_fig_position None) ;;;
  update_figure self (set_fig_available_moves None).

(** ** base.py: Player (the part below [move]) *)

Definition Player_add_figure (depth : nat) (self : pid) (figure : fid)
  : M unit :=
  Figure_player_setter depth figure self.

Definition Player_figures (self : pid) : M (list fid) :=
  p <<- read_player self ;;
  match pl_figures p with
  | None =>
      fs <<- Table_figures ;;
      filter_m (λ f, q <<- Figure_player f ;; ret (bool_decide (q = self))) fs
  | Some l => ret l
  end.

Definition Player_reset (self : pid) : M unit :=
  update_player self (set_pl_figures None) ;;;
  Table_reset.

(** ** figures.py: the ray scanner *)

(** [cut_before]: every figure met in the list cuts the list in front of it
    ([f[s + 1:]] for a figure of player [p], [f[s:]] otherwise). *)
Fixpoint cut_before (f : list pos) (t : list fid) (p : pid) : M (list pos) :=
  match t with
  | [] => ret f
  | i :: t' =>
      ipos <<- Figure_position i ;;
      match list_index ipos f with
      | None => cut_before f t' p
      | Some s =>
          q <<- Figure_player i ;;
          cut_before (if bool_decide (p = q) then drop (S s) f else drop s f)
                     t' p
      end
  end.

(** [cut_after]: [f[:s]] for a figure of player [p], [f[:s + 1]] otherwise. *)
Fixpoint cut_after (f : list pos) (t : list fid) (p : pid) : M (list pos) :=
  match t with
  | [] => ret f
  | i :: t' =>
      ipos <<- Figure_position i ;;
      match list_index ipos f with
      | None => cut_after f t' p
      | Some s =>
          q <<- Figure_player i ;;
          cut_after (if bool_decide (p = q) then take s f else take (S s) f)
                    t' p
      end
  end.

(** [n = start; while cond(n): out.append(sq(n)); n += 1], run for at most
    [fuel] iterations. *)
Fixpoint ray_while (fuel : nat) (cond : Z → bool) (sq : Z → pos) (n : Z)
  : list pos :=
  match fuel with
  | O => []
  | S k => if cond n then sq n :: ray_while k cond sq (Z.succ n) else []
  end.

(** ** figures.py: the six kinds *)

Definition set_moves (self : fid) (m : gset pos) : M unit :=
  update_figure self (set_fig_available_moves (Some m)).

(** [self._available_moves.update( *lists )] on the cached set object. *)
Definition moves_update (self : fid) (ls : list (list pos)) : M unit :=
  update_figure self (λ fg,
    set_fig_available_moves
      ((λ m : gset pos, m ∪ ⋃ (list_to_set <$> ls)) <$> fig_available_moves fg)
      fg).

(** [return self._available_moves] once the cache has been filled. *)
Definition cached_moves (self : fid) : M (gset pos) :=
  fg <<- read_figure self ;;
  match fig_available_moves fg with
  | Some m => ret m
  | None => raise NoSuchObject
  end.

(** The edge clipping of [Pawn.available_moves]. *)
Definition pawn_clip (rows columns : Z) (l : list pos) : list pos :=
  filter (λ i, i.1 < rows ∧ i.2 < columns) l.

(** The loop [for f in other_figures: straight_moves.remove(f.position)]. *)
Fixpoint remove_positions (l : list pos) (t : list fid) : M (list pos) :=
  match t with
  | [] => ret l
  | g :: t' =>
      p <<- Figure_position g ;; remove_positions (list_remove p l) t'
  end.

(** The condition of the oblique comprehension; the two calls of
    [get_figure(i)] read the same, unchanged cell. *)
Definition pawn_takes (self : fid) (i : pos) : M bool :=
  c <<- Table_get_figure i ;;
  match c with
  | None => ret false
  | Some g =>
      q <<- Figure_player g ;;
      sp <<- Figure_player self ;;
      ret (negb (bool_decide (q = sp)))
  end.

Definition Figure_first_move (self : fid) : M bool :=
  fg <<- read_figure self ;; ret (fig_first_move fg).

Definition Pawn_available_moves (self : fid) : M (gset pos) :=
  fg <<- read_figure self ;;
  match fig_available_moves fg with
  | Some m => ret m
  | None =>
      current_position <<- Figure_position self ;;
      other_figures <<- Table_figures ;;
      sp <<- Figure_player self ;;
      pl <<- read_player sp ;;
      first_move <<- Figure_first_move self ;;
      let '(r, c) := current_position in
      let d := if pl_goes_up pl then -1 else 1 in
      let straight_moves :=
        (r + d, c) :: (if first_move then [(r + 2 * d, c)] else []) in
      let oblique_moves := [(r + d, c + 1); (r + d, c - 1)] in
      rows <<- gets (λ s, tbl_rows (st_table s)) ;;
      columns <<- gets (λ s, tbl_columns (st_table s)) ;;
      let straight_moves := pawn_clip rows columns straight_moves in
      let oblique_moves := pawn_clip rows columns oblique_moves in
      straight_moves <<- remove_positions straight_moves other_figures ;;
      oblique_moves <<- filter_m (pawn_takes self) oblique_moves ;;
      set_moves self ∅ ;;;
      moves_update self [straight_moves; oblique_moves] ;;;
      cached_moves self
  end.

Definition Rook_straight_moves (self : fid)
  : M (list pos * list pos * list pos * list pos) :=
  current_position <<- Figure_position self ;;
  other_figures <<- Table_figures ;;
  let '(r, c) := current_position in
  sp <<- Figure_player self ;;
  up <<- cut_before ((λ x, (x, c)) <$> range 0 r) other_figures sp ;;
  rows <<- gets (λ s, tbl_rows (st_table s)) ;;
  sp <<- Figure_player self ;;
  down <<- cut_after ((λ x, (x, c)) <$> range (r + 1) rows) other_figures sp ;;
  sp <<- Figure_player self ;;
  left_ <<- cut_before ((λ x, (r, x)) <$> range 0 c) other_figures sp ;;
  columns <<- gets (λ s, tbl_columns (st_table s)) ;;
  sp <<- Figure_player self ;;
  right_ <<- cut_after ((λ x, (r, x)) <$> range (c + 1) columns)
                      other_figures sp ;;
  ret (up, down, left_, right_).

Definition Rook_available_moves (self : fid) : M (gset pos) :=
  fg <<- read_figure self ;;
  match fig_available_moves fg with
  | Some m => ret m
  | None =>
      set_moves self ∅ ;;;
      straight <<- Rook_straight_moves self ;;
      let '(up, down, left_, right_) := straight in
      moves_update self [up; down; left_; right_] ;;;
      cached_moves self
  end.

Definition Bishop_oblique_moves (self : fid)
  : M (list pos * list pos * list pos * list pos) :=
  current_position <<- Figure_position self ;;
  other_figures <<- Table_figures ;;
  let '(r, c) := current_position in
  let left_up :=
    ray_while (Z.to_nat r) (λ n, bool_decide (Z.min (r - n) (c - n) >= 0))
              (λ n, (r - n, c - n)) 1 in
  sp <<- Figure_player self ;;
  left_up <<- cut_after left_up other_figures sp ;;
  rows <<- gets (λ s, tbl_rows (st_table s)) ;;
  let left_down :=
    ray_while (Z.to_nat c)
              (λ n, bool_decide (r + n < rows) && bool_decide (c - n >= 0))
              (λ n, (r + n, c - n)) 1 in
  sp <<- Figure_player self ;;
  left_down <<- cut_after left_down other_figures sp ;;
  columns <<- gets (λ s, tbl_columns (st_table s)) ;;
  let right_up :=
    ray_while (Z.to_nat r)
              (λ n, bool_decide (r - n >= 0) && bool_decide (c + n < columns))
              (λ n, (r - n, c + n)) 1 in
  sp <<- Figure_player self ;;
  right_up <<- cut_after right_up other_figures sp ;;
  rows <<- gets (λ s, tbl_rows (st_table s)) ;;
  columns <<- gets (λ s, tbl_columns (st_table s)) ;;
  let right_down :=
    ray_while (Z.to_nat (Z.min rows columns - r))
              (λ n, bool_decide (Z.max (r + n) (c + n) < Z.min rows columns))
              (λ n, (r + n, c + n)) 1 in
  sp <<- Figure_player self ;;
  right_down <<- cut_after right_down other_figures sp ;;
  ret (left_up, left_down, right_up, right_down).

Definition Bishop_available_moves (self : fid) : M (gset pos) :=
  fg <<- read_figure self ;;
  match fig_available_moves fg with
  | Some m => ret m
  | None =>
      set_moves self ∅ ;;;
      oblique <<- Bishop_oblique_moves self ;;
      let '(left_up, left_down, right_up, right_down) := oblique in
      moves_update self [left_up; left_down; right_up; right_down] ;;;
      cached_moves self
  end.

Definition Queen_available_moves (self : fid) : M (gset pos) :=
  fg <<- read_figure self ;;
  match fig_available_moves fg with
  | Some m => ret m
  | None =>
      set_moves self ∅ ;;;
      straight <<- Rook_straight_moves self ;;
      oblique <<- Bishop_oblique_moves self ;;
      let '(up, down, left_, right_) := straight in
      let '(left_up, left_down, right_up, right_down) := oblique in
      moves_update self [up; down; left_; right_;
                         left_up; left_down; right_up; right_down] ;;;
      cached_moves self
  end.

(** The test of the inner [if] of [_validate_moves]:
    [move not in other_positions or
     self.player != other_figures[other_positions.index(move)].player]. *)
Definition leaper_free (self : fid) (other_figures : list fid)
    (other_positions : list pos) (move : pos) : M bool :=
  match list_index move other_positions with
  | None => ret true
  | Some k =>
      sp <<- Figure_player self ;;
      g <<- of_result (getitem other_figures (Z.of_nat k)) ;;
      q <<- Figure_player g ;;
      ret (negb (bool_decide (sp = q)))
  end.

Definition Knight_validate_moves (self : fid) (moves : list pos)
  : M (gset pos) :=
  fg <<- read_figure self ;;
  match fig_available_moves fg with
  | Some m => ret m
  | None =>
      current_position <<- Figure_position self ;;
      other_figures <<- Table_figures ;;
      fs <<- Table_figures ;;
      other_positions <<- map_m Figure_position fs ;;
      set_moves self ∅ ;;;
      for_each moves (λ i,
        let move := (current_position.1 + i.1, current_position.2 + i.2) in
        rows <<- gets (λ s, tbl_rows (st_table s)) ;;
        columns <<- gets (λ s, tbl_columns (st_table s)) ;;
        if bool_decide (0 <= move.1 <= rows)
           && bool_decide (0 <= move.2 <= columns)
        then
          b <<- leaper_free self other_figures other_positions move ;;
          if b then moves_update self [[move]] else ret tt
        else ret tt) ;;;
      cached_moves self
  end.

Definition knight_offsets : list pos :=
  [(2, 1); (2, -1); (-2, 1); (-2, -1); (1, 2); (1, -2); (-1, 2); (-1, -2)].

Definition king_offsets : list pos :=
  [(0, 1); (1, 0); (0, -1); (-1, 0); (1, -1); (-1, 1); (1, 1); (-1, -1)].

Definition Knight_available_moves (self : fid) : M (gset pos) :=
  Knight_validate_moves self knight_offsets ;;;
  cached_moves self.

Definition King_available_moves (self : fid) : M (gset pos) :=
  Knight_validate_moves self king_offsets ;;;
  cached_moves self.

(** The [available_moves] property as class [k] implements it. *)
Definition available_moves_as (k : Kind) (self : fid) : M (gset pos) :=
  match k with
  | Pawn => Pawn_available_moves self
  | Rook => Rook_available_moves self
  | Bishop => Bishop_available_moves self
  | Queen => Queen_available_moves self
  | Knight => Knight_available_moves self
  | King => King_available_moves self
  end.

(** [self.available_moves], dispatched on the class of the object. *)
Definition available_moves (self : fid) : M (gset pos) :=
  fg <<- read_figure self ;;
  available_moves_as (fig_kind fg) self.

(** ** base.py: the move executor *)

Definition Figure_move_validity (self : fid) (to : pos) : M bool :=
  m <<- available_moves self ;;
  ret (bool_decide (to ∈ m)).

(** [Figure.move]; the message of InvalidMove evaluates [self.position] and
    [self.available_moves] before the exception is raised. *)
Definition Figure_move (self : fid) (to : pos) : M unit :=
  ok <<- Figure_move_validity self to ;;
  if negb ok then
    Figure_position self ;;;
    available_moves self ;;;
    raise InvalidMove
  else
    p <<- Figure_position self ;;
    Table_set_figure None p ;;;
    Figure_reset self ;;;
    Table_set_figure (Some self) to ;;;
    pl <<- Figure_player self ;;
    Player_reset pl.

(** [Pawn.move]: the base move, then the flag and a second [set_figure]. *)
Definition Pawn_move (self : fid) (to : pos) : M unit :=
  Figure_move self to ;;;
  update_figure self (set_fig_first_move false) ;;;
  Table_set_figure (Some self) to.

(** [figure.move(to)], dispatched on the class of the object. *)
Definition move (self : fid) (to : pos) : M unit :=
  fg <<- read_figure self ;;
  match fig_kind fg with
  | Pawn => Pawn_move self to
  | _ => Figure_move self to
  end.

(** [Player.move]; the message of MissingFigure evaluates
    [set(i.position for i in self.figures)] before the exception is raised. *)
Definition Player_move (self : pid) (_from to : pos) : M unit :=
  figure <<- Table_get_figure _from ;;
  match figure with
  | None =>
      fs <<- Player_figures self ;;
      map_m Figure_position fs ;;;
      raise MissingFigure
  | Some f =>
      q <<- Figure_player f ;;
      if negb (bool_decide (q = self)) then
        read_player self ;;;
        read_player q ;;;
        raise AccessError
      else move f to
  end.

(** ** game.py: building a position *)

(** [Figure.__init__] ([Pawn.__init__] sets [first_move = True]). *)
Definition Figure_init (k : Kind) (player : pid) : Figure :=
  mkFigure k player None None true.

(** [Player.__init__] *)
Definition Player_init (goes_up : bool) (name : string) : Player :=
  mkPlayer goes_up name None.

(** [Game.__init__]: an 8 x 8 table, player 0 is White (goes up), player 1
    is Black. *)
Definition Game_init : State :=
  mkState (Table_init 8 8)
          {[ 0%nat := Player_init true "White";
             1%nat := Player_init false "Black" ]}
          ∅.

(** [self.table.set_figure(K(self.table, player), at)] where the new object
    gets the reference [f]. *)
Definition place (f : fid) (k : Kind) (player : pid) (at_ : pos) : M unit :=
  modify (λ s, mkState (st_table s) (st_players s)
                       (<[f := Figure_init k player]> (st_figures s))) ;;;
  Table_set_figure (Some f) at_.

(** The state a computation leaves, and the value or exception it ends in. *)
Definition exec {A} (m : M A) (s : State) : State := (m s).2.
Definition eval {A} (m : M A) (s : State) : Result A := (m s).1.

(** [Table.delete_all_figures] *)
Definition Table_delete_all_figures : M unit :=
  fs <<- Table_figures ;;
  for_each fs (λ i, p <<- Figure_position i ;; Table_set_figure None p) ;;;
  Table_reset.

(** [Game.fill_table]; the new objects get the references 0-7 (White
    pawns), 8-15 (Black pawns), 16-23 (White back rank) and 24-31 (Black
    back rank). *)
Definition Game_fill_table : M unit :=
  Table_delete_all_figures ;;;
  for_each (seq 0 8) (λ i,
    place i Pawn 0%nat (6, Z.of_nat i) ;;;
    place (8 + i)%nat Pawn 1%nat (1, Z.of_nat i)) ;;;
  for_each (zip (seq 0 8)
                [Rook; Knight; Bishop; Queen; King; Bishop; Knight; Rook])
    (λ cf, place (16 + cf.1)%nat cf.2 0%nat (7, Z.of_nat cf.1) ;;;
           place (24 + cf.1)%nat cf.2 1%nat (0, Z.of_nat cf.1)).

(** The position a game starts from. *)
Definition standard_position : State := exec Game_fill_table Game_init.

(** A White rook on (4, 0) with a Black pawn at distance 3 and a White pawn
    at distance 5 to its right. *)
Definition rook_position : State :=
  exec (place 0%nat Rook 0%nat (4, 0) ;;;
        place 1%nat Pawn 1%nat (4, 3) ;;;
        place 2%nat Pawn 0%nat (4, 5)) Game_init.

(** A White knight on (4, 4) with White pawns on the eight squares around
    it. *)
Definition surrounded_knight : State :=
  exec (place 0%nat Knight 0%nat (4, 4) ;;;
        for_each (zip (seq 1 8) king_offsets)
          (λ io, place io.1 Pawn 0%nat (4 + io.2.1, 4 + io.2.2)))
       Game_init.

(** A White pawn (moving toward row 0) on (0, 4), alone on the board. *)
Definition pawn_on_first_row : State :=
  exec (place 0%nat Pawn 0%nat (0, 4)) Game_init.

(** A White pawn on (4, 0) and a Black pawn on (3, 7), the other end of the
    row in front of it. *)
Definition edge_pawn_position : State :=
  exec (place 0%nat Pawn 0%nat (4, 0) ;;;
        place 1%nat Pawn 1%nat (3, 7)) Game_init.

(** A White pawn on (6, 4), alone on the board. *)
Definition lone_pawn_position : State :=
  exec (place 0%nat Pawn 0%nat (6, 4)) Game_init.

(** The union of two answers; the exception raised first wins. *)
Definition union_result (a b : Result (gset pos)) : Result (gset pos) :=
  match a, b with
  | Ok x, Ok y => Ok (x ∪ y)
  | Raise e, _ => Raise e
  | Ok _, Raise e => Raise e
  end.

(** ** The board as the pieces stand on it *)

(** The content of the cell in row [r], column [c] (counted from 0). *)
Definition cell (cs : list (list (option fid))) (r c : nat) : option fid :=
  match cs !! r with
  | Some row => match row !! c with Some x => x | None => None end
  | None => None
  end.

(** The figure standing on a square; no figure stands on a square with a
    negative coordinate or outside the grid. *)
Definition occ (cs : list (list (option fid))) (p : pos) : option fid :=
  if bool_decide (0 ≤ p.1 ∧ 0 ≤ p.2)
  then cell cs (Z.to_nat p.1) (Z.to_nat p.2)
  else None.

Definition occupant (s : State) (p : pos) : option fid :=
  occ (tbl_cells (st_table s)) p.

(** A grid of [rows] rows of [columns] cells. *)
Definition grid (rows columns : Z) (cs : list (list (option fid))) : Prop :=
  Z.of_nat (length cs) = rows
  ∧ Forall (λ row, Z.of_nat (length row) = columns) cs.

(** The grid of the table has [rows] rows of [columns] cells. *)
Definition rectangular (s : State) : Prop :=
  grid (tbl_rows (st_table s)) (tbl_columns (st_table s))
       (tbl_cells (st_table s)).

(** The figure [self] stands on [p] and no other square holds a figure. *)
Definition alone_on_board (s : State) (self : fid) (p : pos) : Prop :=
  ∀ q, occupant s q = if decide (q = p) then Some self else None.

(** The row step of a player's pawns. *)
Definition forward (pl : Player) : Z := if pl_goes_up pl then -1 else 1.

(** ** What a computation can observe: the view of a state

    The caches are filled on demand with the value a scan of the board
    gives, so reading through a cache or scanning the board answers the
    same.  The view of a state is what the properties [position], [player]
    and [Table.figures] answer in it. *)

Definition pos_of (cs : list (list (option fid))) (g : fid) (fg : Figure)
  : Result pos :=
  match fig_position fg with
  | Some p => Ok p
  | None =>
      match locate g cs 0 with
      | Some p => Ok p
      | None => Raise MissingFigure
      end
  end.

Definition fig_view (s : State) (g : fid)
  : option (Kind * pid * bool * Result pos) :=
  (λ fg, (fig_kind fg, fig_player fg, fig_first_move fg,
          pos_of (tbl_cells (st_table s)) g fg)) <$> st_figures s !! g.

(** What [g.position] answers. *)
Definition pos_view (s : State) (g : fid) : Result pos :=
  match fig_view s g with
  | Some (_, _, _, r) => r
  | None => Raise NoSuchObject
  end.

(** What [g.player] answers. *)
Definition owner_view (s : State) (g : fid) : Result pid :=
  match fig_view s g with
  | Some (_, p, _, _) => Ok p
  | None => Raise NoSuchObject
  end.

(** What [g.first_move] answers. *)
Definition first_move_view (s : State) (g : fid) : Result bool :=
  match fig_view s g with
  | Some (_, _, b, _) => Ok b
  | None => Raise NoSuchObject
  end.

(** What [table.figures] answers. *)
Definition figs_view (s : State) : list fid :=
  match tbl_figures (st_table s) with
  | Some l => l
  | None => scan (tbl_cells (st_table s))
  end.

(** Two states with the same board, players and view. *)
Record view_eq (s s' : State) : Prop := mk_view_eq {
  ve_rows : tbl_rows (st_table s) = tbl_rows (st_table s');
  ve_columns : tbl_columns (st_table s) = tbl_columns (st_table s');
  ve_cells : tbl_cells (st_table s) = tbl_cells (st_table s');
  ve_players : st_players s = st_players s';
  ve_figs : figs_view s = figs_view s';
  ve_fig : ∀ g, fig_view s g = fig_view s' g
}.

(** From [s] to [s'] caches were only filled: a cache that held a value
    holds the same value, and no legal-move cache changed except the one of
    the figure [w]. *)
Record grows (w : option fid) (s s' : State) : Prop := mk_grows {
  gr_tbl : tbl_figures (st_table s) = None
           ∨ tbl_figures (st_table s') = tbl_figures (st_table s);
  gr_fig : ∀ g fg, st_figures s !! g = Some fg →
           ∃ fg', st_figures s' !! g = Some fg'
                  ∧ (fig_position fg = None
                     ∨ fig_position fg' = fig_position fg)
                  ∧ (Some g ≠ w →
                     fig_available_moves fg' = fig_available_moves fg)
}.

Definition fill (w : option fid) (s s' : State) : Prop :=
  view_eq s s' ∧ grows w s s'.

(** A query: a computation that only fills position and figure-list caches
    and whose answer depends on the view alone. *)
Record is_query {A} (m : M A) : Prop := mk_is_query {
  q_fill : ∀ s, fill None s (exec m s);
  q_cong : ∀ s s', view_eq s s' → eval m s = eval m s'
}.

(** The caches agree with the board: the figures [Table.figures] answers
    are the figures standing on the board, each stands on one square, and
    [position] answers that square. *)
Record consistent (s : State) : Prop := mk_consistent {
  cs_occupant : ∀ p g,
    occupant s p = Some g ↔ g ∈ figs_view s ∧ pos_view s g = Ok p;
  cs_resolved : ∀ g, g ∈ figs_view s → ∃ p, pos_view s g = Ok p
}.

(** A check of [consistent] that computes. *)
Definition consistentb (s : State) : bool :=
  let cs := tbl_cells (st_table s) in
  bool_decide (NoDup (scan cs))
  && match tbl_figures (st_table s) with
     | None => true
     | Some l => bool_decide (l = scan cs)
     end
  && forallb (λ g, match st_figures s !! g with
                   | Some fg =>
                       match fig_position fg with
                       | None => true
                       | Some p => bool_decide (locate g cs 0 = Some p)
                       end
                   | None => false
                   end) (scan cs).

(** The squares of a candidate list [f] a figure of player [p] may move to
    when the list runs away from the figure ([cut_after]): square number [k]
    is kept when every figure standing on the list stands behind it, or on
    it if it belongs to another player. *)
Definition kept_after (s : State) (p : pid) (f : list pos) (q : pos) : Prop :=
  ∃ k, f !! k = Some q
       ∧ ∀ g j qg o, occupant s qg = Some g → f !! j = Some qg →
           owner_view s g = Ok o →
           (p = o → (k < j)%nat) ∧ (p ≠ o → (k ≤ j)%nat).

(** The same when the list runs towards the figure ([cut_before]). *)
Definition kept_before (s : State) (p : pid) (f : list pos) (q : pos) : Prop :=
  ∃ k, f !! k = Some q
       ∧ ∀ g j qg o, occupant s qg = Some g → f !! j = Some qg →
           owner_view s g = Ok o →
           (p = o → (j < k)%nat) ∧ (p ≠ o → (j ≤ k)%nat).

(** The four rays of a rook. *)
Inductive Ray := RayUp | RayDown | RayLeft | RayRight.

(** The square at distance [n] from [p] along a ray. *)
Definition ray_square (p : pos) (d : Ray) (n : Z) : pos :=
  match d with
  | RayUp => (p.1 - n, p.2)
  | RayDown => (p.1 + n, p.2)
  | RayLeft => (p.1, p.2 - n)
  | RayRight => (p.1, p.2 + n)
  end.

(** A square a figure of player [sp] may land on: it is empty or holds a
    figure of another player. *)
Definition free_for (s : State) (sp : pid) (q : pos) : Prop :=
  match occupant s q with
  | None => True
  | Some g => owner_view s g ≠ Ok sp
  end.

(** The bounds test of [Knight._validate_moves]. *)
Definition leaper_in_bounds (s : State) (q : pos) : Prop :=
  0 ≤ q.1 ≤ tbl_rows (st_table s) ∧ 0 ≤ q.2 ≤ tbl_columns (st_table s).

(** The offset table of a leaper. *)
Definition leaper_offsets (k : Kind) : list pos :=
  match k with
  | King => king_offsets
  | _ => knight_offsets
  end.

Definition shift (p off : pos) : pos := (p.1 + off.1, p.2 + off.2).

(** The index Python reads for [i] in a list of length [len]. *)
Definition py_wrap (len i : Z) : Z := if 0 <=? i then i else len + i.

(** The cell [get_figure] reads for a pair of Python indices. *)
Definition wrapped (s : State) (q : pos) : pos :=
  (py_wrap (tbl_rows (st_table s)) q.1, py_wrap (tbl_columns (st_table s)) q.2).

(** A computation whose answer depends on the view alone. *)
Definition answers_by_view {A} (m : M A) : Prop :=
  ∀ s s', view_eq s s' → eval m s = eval m s'.

(** A sequence of requests [player.move(_from, to)], failed ones
    included. *)
Definition play (ops : list (pid * pos * pos)) (s : State) : State :=
  foldl (λ st op, exec (Player_move op.1.1 op.1.2 op.2) st) s ops.

(** What holds of the answer and the state a computation ends in, when it
    returns. *)
Definition post {A} (m : M A) (Q : A → State → Prop) : Prop :=
  ∀ s a, eval m s = Ok a → Q a (exec m s).

(** The answer is the legal-move set cached for [self]. *)
Definition is_cached (self : fid) (m : gset pos) (s : State) : Prop :=
  ∃ fg, st_figures s !! self = Some fg ∧ fig_available_moves fg = Some m.

(** A computation after which a cleared pawn flag is still cleared. *)
Definition keeps_flag {A} (self : fid) (m : M A) : Prop :=
  ∀ s, first_move_view s self = Ok false →
       first_move_view (exec m s) self = Ok false.

(** A check of [alone_on_board] that computes. *)
Definition aloneb (s : State) (self : fid) (p : pos) : bool :=
  bool_decide (scan (tbl_cells (st_table s)) = [self])
  && bool_decide (occupant s p = Some self).

(** Every figure [Table.figures] answers has a position. *)
Definition resolved (s : State) : Prop :=
  ∀ g, g ∈ figs_view s → ∃ q, pos_view s g = Ok q.

(** A computation that never raises [e]. *)
Definition never {A} (e : Exn) (m : M A) : Prop :=
  ∀ s, eval m s ≠ Raise e.

(** A computation that does not raise MissingFigure in any state with the
    view of [s]. *)
Definition quiet {A} (s : State) (m : M A) : Prop :=
  ∀ s1, view_eq s s1 → eval m s1 ≠ Raise MissingFigure.

(** A computation that only fills caches, the legal-move cache of [w]
    included. *)
Definition is_frame {A} (w : option fid) (m : M A) : Prop :=
  ∀ s, fill w s (exec m s).

(** From [s] to [s'] nothing but caches changed, and caches were only
    filled: board, players, owners, pawn flags and the answers of
    [position] and [Table.figures] are the same, and a cache that held a
    value in [s] holds that value in [s']. *)
Record only_caches_filled (s s' : State) : Prop := mk_only_caches_filled {
  ocf_view : view_eq s s';
  ocf_tbl : tbl_figures (st_table s) = None
            ∨ tbl_figures (st_table s') = tbl_figures (st_table s);
  ocf_fig : ∀ g fg, st_figures s !! g = Some fg →
            ∃ fg', st_figures s' !! g = Some fg'
                   ∧ (fig_position fg = None
                      ∨ fig_position fg' = fig_position fg)
                   ∧ (fig_available_moves fg = None
                      ∨ fig_available_moves fg' = fig_available_moves fg)
}.

(** ** Further notions: cells, raw writes and directions *)

(** The row and the column [self[position[0]][position[1]]] addresses, when
    both indices are in range. *)
Definition address (cs : list (list (option fid))) (p : pos)
  : option (nat * nat) :=
  match py_index (Z.of_nat (length cs)) p.1 with
  | Some r =>
      match cs !! r with
      | Some row =>
          match py_index (Z.of_nat (length row)) p.2 with
          | Some k => Some (r, k)
          | None => None
          end
      | None => None
      end
  | None => None
  end.

(** A sequence of calls [table.set_figure(figure, position)] made beside the
    move executor. *)
Definition set_figures (ws : list (option fid * pos)) (s : State) : State :=
  foldl (λ st w, exec (Table_set_figure w.1 w.2) st) s ws.

(** A square of the grid. *)
Definition on_board (s : State) (q : pos) : Prop :=
  0 ≤ q.1 < tbl_rows (st_table s) ∧ 0 ≤ q.2 < tbl_columns (st_table s).

(** A computation that preserves a property of states, however it ends. *)
Definition preserves {A} (P : State → Prop) (m : M A) : Prop :=
  ∀ s, P s → P (exec m s).

(** A sequence of calls [figure.move(to)], failed ones included. *)
Definition moves_of (ops : list (fid * pos)) (s : State) : State :=
  foldl (λ st op, exec (move op.1 op.2) st) s ops.

(** The square [n] steps from [p] in the direction [d], a row step and a
    column step. *)
Definition along (p d : pos) (n : Z) : pos := (p.1 + n * d.1, p.2 + n * d.2).

(** The directions of the four lists of [Rook._straight_moves] and of the
    four lists of [Bishop._oblique_moves], in the order the code builds
    them. *)
Definition rook_directions : list pos := [(-1, 0); (1, 0); (0, -1); (0, 1)].
Definition bishop_directions : list pos :=
  [(-1, -1); (1, -1); (-1, 1); (1, 1)].

Definition directions (k : Kind) : list pos :=
  match k with
  | Rook => rook_directions
  | Bishop => bishop_directions
  | Queen => rook_directions ++ bishop_directions
  | _ => []
  end.

(** How far the candidate list of a direction runs: over the squares of the
    board, except that the loop of the down-right diagonal ends where
    [max(row, column)] reaches [min(rows, columns)]. *)
Definition in_reach (s : State) (d q : pos) : Prop :=
  if decide (d = (1, 1))
  then 0 ≤ q.1 ∧ 0 ≤ q.2
       ∧ Z.max q.1 q.2
         < Z.min (tbl_rows (st_table s)) (tbl_columns (st_table s))
  else on_board s q.

(** A figure of player [sp] standing on [p] slides to [q] in the direction
    [d]: [q] is [n] steps away and within reach, the squares passed over
    are empty, and [q] is empty or holds a figure of another player. *)
Definition slides (s : State) (sp : pid) (p d q : pos) : Prop :=
  ∃ n, 1 ≤ n ∧ q = along p d n ∧ in_reach s d q
       ∧ (∀ k, 1 ≤ k < n → occupant s (along p d k) = None)
       ∧ free_for s sp q.

(** The Figure object after its own move: both caches are reset, and
    [Pawn.move] has cleared the flag of a pawn. *)
Definition after_move (fg : Figure) : Figure :=
  mkFigure (fig_kind fg) (fig_player fg) None None
           (if decide (fig_kind fg = Pawn) then false else fig_first_move fg).

(** The outcomes of [player.move] after which [ConsoleChess._turn] goes on:
    the call returned, or raised one of the three exceptions [_turn]
    catches. *)
Definition goes_on (r : Result unit) : Prop :=
  r = Ok () ∨ r = Raise InvalidMove ∨ r = Raise MissingFigure
  ∨ r = Raise AccessError.

(** Every request of a sequence ends in such an outcome. *)
Fixpoint all_go_on (ops : list (pid * pos * pos)) (s : State) : Prop :=
  match ops with
  | [] => True
  | op :: ops' =>
      goes_on (eval (Player_move op.1.1 op.1.2 op.2) s)
      ∧ all_go_on ops' (exec (Player_move op.1.1 op.1.2 op.2) s)
  end.

(** A White pawn on (6, 4) that has not moved, with a Black pawn on the
    square in front of it. *)
Definition blocked_pawn_position : State :=
  exec (place 0%nat Pawn 0%nat (6, 4) ;;;
        place 1%nat Pawn 1%nat (5, 4)) Game_init.

(** The pawn flags of [s] are those of [s0]. *)
Definition same_flags (s0 s : State) : Prop :=
  ∀ g, first_move_view s g = first_move_view s0 g.

(** The players of [s] are those of [s0], with the same orientation and
    name, and no figure list was cached for a player that had none. *)
Definition same_players (s0 s : State) : Prop :=
  ∀ p, match st_players s !! p, st_players s0 !! p with
       | Some pl', Some pl =>
           pl_goes_up pl' = pl_goes_up pl ∧ pl_name pl' = pl_name pl
           ∧ (pl_figures pl = None → pl_figures pl' = None)
       | None, None => True
       | _, _ => False
       end.

(** ** Positions reached by play, with a legal-move set computed earlier *)

(** A White rook on (4, 0), a Black pawn on (3, 3) and a White pawn on
    (4, 5): the position of [rook_position] before the Black pawn steps to
    (4, 3). *)
Definition rook_position_before : State :=
  exec (place 0%nat Rook 0%nat (4, 0) ;;;
        place 1%nat Pawn 1%nat (3, 3) ;;;
        place 2%nat Pawn 0%nat (4, 5)) Game_init.

(** White asks for the rook move (4, 0) to (0, 7), which is refused, and
    Black then steps the pawn from (3, 3) to (4, 3). *)
Definition rook_position_by_play : State :=
  play [(0%nat, (4, 0), (0, 7)); (1%nat, (3, 3), (4, 3))]
       rook_position_before.

(** From the starting position White asks for the knight move (7, 1) to
    (3, 3), which is refused, and then steps the pawn from (6, 3) to
    (4, 3). *)
Definition knight_position_by_play : State :=
  play [(0%nat, (7, 1), (3, 3)); (0%nat, (6, 3), (4, 3))] standard_position.




(** Both caches of the figure [self] are empty. *)
Definition caches_empty (self : fid) (s : State) : Prop :=
  ∃ fg, st_figures s !! self = Some fg
        ∧ fig_position fg = None ∧ fig_available_moves fg = None.

(** ** Lemmas: the monad *)

Lemma eval_ret {A} (a : A) s : eval (ret a) s = Ok a.
Proof. reflexivity. Qed.

Lemma exec_ret {A} (a : A) s : exec (ret a) s = s.
Proof. reflexivity. Qed.

Lemma eval_bind {A B} (m : M A) (k : A → M B) s :
  eval (bind m k) s =
  match eval m s with
  | Ok a => eval (k a) (exec m s)
  | Raise e => Raise e
  end.
Proof. unfold eval, exec, bind. destruct (m s) as [[a|e] s']; reflexivity. Qed.

Lemma exec_bind {A B} (m : M A) (k : A → M B) s :
  exec (bind m k) s =
  match eval m s with
  | Ok a => exec (k a) (exec m s)
  | Raise e => exec m s
  end.
Proof. unfold eval, exec, bind. destruct (m s) as [[a|e] s']; reflexivity. Qed.

Lemma run_eq {A} (m : M A) s : m s = (eval m s, exec m s).
Proof. unfold eval, exec. by destruct (m s). Qed.

(** ** Lemmas: views and frames *)

Lemma view_eq_refl s : view_eq s s.
Proof. by constructor. Qed.

Lemma view_eq_sym s s' : view_eq s s' → view_eq s' s.
Proof. intros []. by constructor. Qed.

Lemma view_eq_trans s1 s2 s3 : view_eq s1 s2 → view_eq s2 s3 → view_eq s1 s3.
Proof.
  intros [] []. constructor; congruence.
Qed.

Lemma grows_refl w s : grows w s s.
Proof. constructor; [by right|]. intros g fg Hg. exists fg. auto. Qed.

Lemma grows_trans w s1 s2 s3 : grows w s1 s2 → grows w s2 s3 → grows w s1 s3.
Proof.
  intros [T1 F1] [T2 F2]. constructor.
  - destruct T1 as [?|T1]; [by left|]. destruct T2 as [T2|T2].
    + left. congruence.
    + right. congruence.
  - intros g fg Hg. destruct (F1 g fg Hg) as (fg1 & H1 & P1 & A1).
    destruct (F2 g fg1 H1) as (fg2 & H2 & P2 & A2).
    exists fg2. split; [done|]. split.
    + destruct P1 as [?|P1]; [by left|]. destruct P2 as [P2|P2].
      * left. congruence.
      * right. congruence.
    + intros Hw. rewrite A2, A1; auto.
Qed.

Lemma grows_weaken w s s' : grows None s s' → grows w s s'.
Proof.
  intros [T F]. constructor; [done|]. intros g fg Hg.
  destruct (F g fg Hg) as (fg' & ? & ? & HA). exists fg'.
  split; [done|]. split; [done|]. intros _. by apply HA.
Qed.

Lemma fill_refl w s : fill w s s.
Proof. split; [apply view_eq_refl | apply grows_refl]. Qed.

Lemma fill_trans w s1 s2 s3 : fill w s1 s2 → fill w s2 s3 → fill w s1 s3.
Proof.
  intros [] []. split; [by eapply view_eq_trans | by eapply grows_trans].
Qed.

Lemma fill_weaken w s s' : fill None s s' → fill w s s'.
Proof. intros []. split; [done | by apply grows_weaken]. Qed.

(** ** Lemmas: queries compose *)

Lemma is_query_ret {A} (a : A) : is_query (ret a).
Proof. constructor; intros; [apply fill_refl | reflexivity]. Qed.

Lemma is_query_raise {A} e : is_query (@raise A e).
Proof. constructor; intros; [apply fill_refl | reflexivity]. Qed.

Lemma is_query_of_result {A} (r : Result A) : is_query (of_result r).
Proof. constructor; intros; [apply fill_refl | reflexivity]. Qed.

Lemma is_query_bind {A B} (m : M A) (k : A → M B) :
  is_query m → (∀ a, is_query (k a)) → is_query (bind m k).
Proof.
  intros [Fm Cm] Hk. constructor.
  - intros s. rewrite exec_bind. destruct (eval m s) as [a|e]; [|done].
    eapply fill_trans; [apply Fm | apply (q_fill _ (Hk a))].
  - intros s s' Hv. rewrite !eval_bind, (Cm s s' Hv).
    destruct (eval m s') as [a|e]; [|done].
    apply (q_cong _ (Hk a)). destruct (Fm s) as [V1 _], (Fm s') as [V2 _].
    eapply view_eq_trans; [apply view_eq_sym, V1|].
    eapply view_eq_trans; [apply Hv | apply V2].
Qed.

(** The answer of a query does not depend on the queries run before it. *)
Lemma eval_bind_query {A B} (m : M A) (k : A → M B) s :
  is_query m → (∀ a, is_query (k a)) →
  eval (bind m k) s =
  match eval m s with
  | Ok a => eval (k a) s
  | Raise e => Raise e
  end.
Proof.
  intros [Fm _] Hk. rewrite eval_bind. destruct (eval m s) as [a|e]; [|done].
  apply (q_cong _ (Hk a)), view_eq_sym, Fm.
Qed.

Lemma is_query_gets {A} (f : State → A) :
  (∀ s s', view_eq s s' → f s = f s') → is_query (gets f).
Proof.
  intros Hf. constructor.
  - intros s. apply fill_refl.
  - intros s s' Hv. unfold eval, gets; simpl. f_equal. by apply Hf.
Qed.

Lemma is_query_rows : is_query (gets (λ s, tbl_rows (st_table s))).
Proof. apply is_query_gets. by intros ?? []. Qed.

Lemma is_query_columns : is_query (gets (λ s, tbl_columns (st_table s))).
Proof. apply is_query_gets. by intros ?? []. Qed.

Lemma is_query_cells : is_query (gets (λ s, tbl_cells (st_table s))).
Proof. apply is_query_gets. by intros ?? []. Qed.

Lemma is_query_read_player p : is_query (read_player p).
Proof.
  constructor.
  - intros s. unfold exec, read_player.
    destruct (st_players s !! p); apply fill_refl.
  - intros s s' [_ _ _ HP _ _]. unfold eval, read_player. rewrite HP.
    by destruct (st_players s' !! p).
Qed.

(** ** Lemmas: the primitive queries *)

(** Unfold the monad down to functions on states. *)
Ltac unfold_m :=
  repeat progress
    (unfold eval, exec, bind, ret, raise, gets, modify, of_result,
       read_figure, read_player, update_figure, update_player, update_table;
     simpl).


Lemma eval_Figure_position g s : eval (Figure_position g) s = pos_view s g.
Proof.
  unfold Figure_position, pos_view, fig_view, pos_of,
    Table_get_figure_position. unfold_m.
  destruct (st_figures s !! g) as [fg|]; simpl; [|done].
  destruct (fig_position fg); simpl; [done|].
  by destruct (locate g (tbl_cells (st_table s)) 0).
Qed.

Lemma exec_Figure_position g s :
  exec (Figure_position g) s =
  match st_figures s !! g with
  | Some fg =>
      match fig_position fg, locate g (tbl_cells (st_table s)) 0 with
      | None, Some p =>
          mkState (st_table s) (st_players s)
                  (alter (set_fig_position (Some p)) g (st_figures s))
      | _, _ => s
      end
  | None => s
  end.
Proof.
  unfold Figure_position, Table_get_figure_position. unfold_m.
  destruct (st_figures s !! g) as [fg|]; simpl; [|done].
  destruct (fig_position fg); simpl; [done|].
  by destruct (locate g (tbl_cells (st_table s)) 0).
Qed.

Lemma fill_Figure_position g s : fill None s (exec (Figure_position g) s).
Proof.
  rewrite exec_Figure_position.
  destruct (st_figures s !! g) as [fg|] eqn:Hg; [|apply fill_refl].
  destruct (fig_position fg) eqn:Hp; [apply fill_refl|].
  destruct (locate g (tbl_cells (st_table s)) 0) as [p|] eqn:Hl;
    [|apply fill_refl].
  split.
  - constructor; simpl; try done.
    intros g'. unfold fig_view; simpl. rewrite lookup_alter.
    case_decide as Hd; [|done]. subst g'. rewrite Hg. simpl.
    unfold pos_of; simpl. by rewrite Hp, Hl.
  - constructor; simpl; [by right|].
    intros g' fg' Hg'. rewrite lookup_alter. case_decide as Hd.
    + subst g'. rewrite Hg'. simpl. eexists. split; [done|].
      assert (fg' = fg) as -> by congruence. split; [by left|done].
    + exists fg'. auto.
Qed.

Lemma is_query_Figure_position g : is_query (Figure_position g).
Proof.
  constructor; [apply fill_Figure_position|].
  intros s s' Hv. rewrite !eval_Figure_position. unfold pos_view.
  by rewrite (ve_fig _ _ Hv).
Qed.

Lemma eval_Figure_player g s : eval (Figure_player g) s = owner_view s g.
Proof.
  unfold Figure_player, owner_view, fig_view. unfold_m.
  by destruct (st_figures s !! g).
Qed.

Lemma exec_Figure_player g s : exec (Figure_player g) s = s.
Proof.
  unfold Figure_player. unfold_m.
  by destruct (st_figures s !! g).
Qed.

Lemma is_query_Figure_player g : is_query (Figure_player g).
Proof.
  constructor.
  - intros s. rewrite exec_Figure_player. apply fill_refl.
  - intros s s' Hv. rewrite !eval_Figure_player. unfold owner_view.
    by rewrite (ve_fig _ _ Hv).
Qed.

Lemma eval_Figure_first_move g s :
  eval (Figure_first_move g) s = first_move_view s g.
Proof.
  unfold Figure_first_move, first_move_view, fig_view. unfold_m.
  by destruct (st_figures s !! g).
Qed.

Lemma exec_Figure_first_move g s : exec (Figure_first_move g) s = s.
Proof.
  unfold Figure_first_move. unfold_m.
  by destruct (st_figures s !! g).
Qed.

Lemma is_query_Figure_first_move g : is_query (Figure_first_move g).
Proof.
  constructor.
  - intros s. rewrite exec_Figure_first_move. apply fill_refl.
  - intros s s' Hv. rewrite !eval_Figure_first_move. unfold first_move_view.
    by rewrite (ve_fig _ _ Hv).
Qed.

Lemma eval_Table_figures s : eval Table_figures s = Ok (figs_view s).
Proof.
  unfold Table_figures, figs_view. unfold_m. by destruct (tbl_figures (st_table s)).
Qed.

Lemma exec_Table_figures s :
  exec Table_figures s =
  match tbl_figures (st_table s) with
  | Some _ => s
  | None =>
      set_table (set_tbl_figures (Some (scan (tbl_cells (st_table s))))
                                 (st_table s)) s
  end.
Proof.
  unfold Table_figures. unfold_m. by destruct (tbl_figures (st_table s)).
Qed.

Lemma is_query_Table_figures : is_query Table_figures.
Proof.
  constructor.
  - intros s. rewrite exec_Table_figures.
    destruct (tbl_figures (st_table s)) eqn:Ht; [apply fill_refl|].
    split.
    + constructor; simpl; try done. unfold figs_view; simpl. by rewrite Ht.
    + constructor; simpl; [by left|]. intros g fg Hg. exists fg. auto.
  - intros s s' Hv. rewrite !eval_Table_figures. by rewrite (ve_figs _ _ Hv).
Qed.

Lemma eval_Table_get_figure p s :
  eval (Table_get_figure p) s = cell_at (tbl_cells (st_table s)) p.
Proof. reflexivity. Qed.

Lemma exec_Table_get_figure p s : exec (Table_get_figure p) s = s.
Proof. reflexivity. Qed.

Lemma is_query_Table_get_figure p : is_query (Table_get_figure p).
Proof.
  constructor.
  - intros s. apply fill_refl.
  - intros s s' Hv. rewrite !eval_Table_get_figure. by rewrite (ve_cells _ _ Hv).
Qed.

Create HintDb query discriminated.
#[export] Hint Resolve is_query_ret is_query_raise is_query_of_result
  is_query_rows is_query_columns is_query_cells is_query_read_player
  is_query_Figure_position is_query_Figure_player is_query_Figure_first_move
  is_query_Table_figures is_query_Table_get_figure : query.

(** Decompose a computation built from queries. *)
Ltac query_step :=
  match goal with
  | |- is_query (bind _ _) => apply is_query_bind; [|intros ?]
  | |- is_query (match ?x with _ => _ end) => destruct x
  | |- is_query (let '(_, _) := ?x in _) => destruct x
  | |- is_query _ => solve [eauto with query]
  end.
Ltac query := intros; repeat query_step.

Lemma is_query_map_m {A B} (f : A → M B) l :
  (∀ x, is_query (f x)) → is_query (map_m f l).
Proof. intros Hf. induction l; simpl; query. Qed.

Lemma is_query_filter_m {A} (f : A → M bool) l :
  (∀ x, is_query (f x)) → is_query (filter_m f l).
Proof. intros Hf. induction l; simpl; query. Qed.

Lemma is_query_cut_before f t p : is_query (cut_before f t p).
Proof. revert f. induction t; intros f; simpl; query. Qed.

Lemma is_query_cut_after f t p : is_query (cut_after f t p).
Proof. revert f. induction t; intros f; simpl; query. Qed.

Lemma is_query_remove_positions l t : is_query (remove_positions l t).
Proof. revert l. induction t; intros l; simpl; query. Qed.

Lemma is_query_pawn_takes self i : is_query (pawn_takes self i).
Proof. unfold pawn_takes. query. Qed.

Lemma is_query_leaper_free self fs ps mv : is_query (leaper_free self fs ps mv).
Proof. unfold leaper_free. query. Qed.

#[export] Hint Resolve is_query_map_m is_query_filter_m is_query_cut_before
  is_query_cut_after is_query_remove_positions is_query_pawn_takes
  is_query_leaper_free : query.

Lemma is_query_Rook_straight_moves self : is_query (Rook_straight_moves self).
Proof. unfold Rook_straight_moves. query. Qed.

Lemma is_query_Bishop_oblique_moves self :
  is_query (Bishop_oblique_moves self).
Proof. unfold Bishop_oblique_moves. query. Qed.

#[export] Hint Resolve is_query_Rook_straight_moves
  is_query_Bishop_oblique_moves : query.

(** ** Lemmas: frames of the legal-move computations *)

Lemma is_frame_query {A} w (m : M A) : is_query m → is_frame w m.
Proof. intros [F _] s. apply fill_weaken, F. Qed.

Lemma is_frame_bind {A B} w (m : M A) (k : A → M B) :
  is_frame w m → (∀ a, is_frame w (k a)) → is_frame w (bind m k).
Proof.
  intros Fm Fk s. rewrite exec_bind. destruct (eval m s) as [a|e]; [|done].
  eapply fill_trans; [apply Fm | apply Fk].
Qed.

Lemma is_frame_read_figure w g : is_frame w (read_figure g).
Proof.
  intros s. unfold exec, read_figure.
  destruct (st_figures s !! g); apply fill_refl.
Qed.

Lemma is_frame_cached_moves w g : is_frame w (cached_moves g).
Proof.
  intros s. unfold cached_moves. unfold_m.
  destruct (st_figures s !! g) as [fg|]; simpl; [|apply fill_refl].
  destruct (fig_available_moves fg); apply fill_refl.
Qed.

Lemma fill_set_available (g : fid)
    (u : option (gset pos) → option (gset pos)) (s : State) :
  fill (Some g) s
    (mkState (st_table s) (st_players s)
       (alter (λ fg, set_fig_available_moves (u (fig_available_moves fg)) fg)
              g (st_figures s))).
Proof.
  split.
  - constructor; simpl; try done.
    intros g'. unfold fig_view; simpl. rewrite lookup_alter.
    case_decide as Hd; [|done]. subst g'.
    by destruct (st_figures s !! g).
  - constructor; simpl; [by right|].
    intros g' fg' Hg'. rewrite lookup_alter. case_decide as Hd.
    + subst g'. rewrite Hg'. simpl. eexists. split; [done|].
      split; [by right | congruence].
    + exists fg'. auto.
Qed.

Lemma is_frame_set_moves g m : is_frame (Some g) (set_moves g m).
Proof. intros s. apply (fill_set_available g (λ _, Some m)). Qed.

Lemma is_frame_moves_update g ls : is_frame (Some g) (moves_update g ls).
Proof.
  intros s.
  apply (fill_set_available g
           (fmap (λ m : gset pos, m ∪ ⋃ (list_to_set <$> ls)))).
Qed.

Lemma is_frame_for_each {A} w (l : list A) body :
  (∀ x, is_frame w (body x)) → is_frame w (for_each l body).
Proof.
  intros Hb. induction l; simpl.
  - intros s. apply fill_refl.
  - by apply is_frame_bind.
Qed.

Ltac frame_step :=
  match goal with
  | |- is_frame _ (bind _ _) => apply is_frame_bind; [|intros ?]
  | |- is_frame _ (for_each _ _) => apply is_frame_for_each; intros ?
  | |- is_frame _ (match ?x with _ => _ end) => destruct x
  | |- is_frame _ (let '(_, _) := ?x in _) => destruct x
  | |- is_frame _ (read_figure _) => apply is_frame_read_figure
  | |- is_frame _ (cached_moves _) => apply is_frame_cached_moves
  | |- is_frame _ (set_moves _ _) => apply is_frame_set_moves
  | |- is_frame _ (moves_update _ _) => apply is_frame_moves_update
  | |- is_frame _ _ => apply is_frame_query; solve [query]
  end.
Ltac frame := repeat frame_step.

Lemma is_frame_Knight_validate_moves self offs :
  is_frame (Some self) (Knight_validate_moves self offs).
Proof. unfold Knight_validate_moves. frame. Qed.

Lemma is_frame_available_moves_as k self :
  is_frame (Some self) (available_moves_as k self).
Proof.
  destruct k; simpl;
    unfold Pawn_available_moves, Rook_available_moves,
      Bishop_available_moves, Queen_available_moves,
      Knight_available_moves, King_available_moves;
    repeat first [apply is_frame_Knight_validate_moves | frame_step].
Qed.

(** A filled legal-move cache is answered as it is, by every kind. *)
Lemma available_moves_as_cached k self s fg m :
  st_figures s !! self = Some fg → fig_available_moves fg = Some m →
  available_moves_as k self s = (Ok m, s).
Proof.
  intros Hs Hm.
  destruct k; simpl;
    unfold Pawn_available_moves, Rook_available_moves,
      Bishop_available_moves, Queen_available_moves,
      Knight_available_moves, King_available_moves,
      Knight_validate_moves, cached_moves;
    unfold_m; rewrite Hs; simpl; rewrite Hm; simpl;
    rewrite ?Hs; simpl; rewrite ?Hm; reflexivity.
Qed.

(** ** Move atomicity: what a failed move leaves behind *)

Lemma ocf_refl s : only_caches_filled s s.
Proof.
  constructor; [apply view_eq_refl | by right |].
  intros g fg Hg. exists fg. auto.
Qed.

Lemma ocf_trans s1 s2 s3 :
  only_caches_filled s1 s2 → only_caches_filled s2 s3 →
  only_caches_filled s1 s3.
Proof.
  intros [V1 T1 F1] [V2 T2 F2]. constructor.
  - by eapply view_eq_trans.
  - destruct T1 as [?|T1]; [by left|]. destruct T2 as [T2|T2].
    + left. congruence.
    + right. congruence.
  - intros g fg Hg. destruct (F1 g fg Hg) as (fg1 & H1 & P1 & A1).
    destruct (F2 g fg1 H1) as (fg2 & H2 & P2 & A2).
    exists fg2. split; [done|]. split.
    + destruct P1 as [?|P1]; [by left|]. destruct P2 as [P2|P2].
      * left. congruence.
      * right. congruence.
    + destruct A1 as [?|A1]; [by left|]. destruct A2 as [A2|A2].
      * left. congruence.
      * right. congruence.
Qed.

Lemma ocf_of_fill_None s s' : fill None s s' → only_caches_filled s s'.
Proof.
  intros [V [T F]]. constructor; [done..|].
  intros g fg Hg. destruct (F g fg Hg) as (fg' & ? & ? & HA).
  exists fg'. split; [done|]. split; [done|]. right. by apply HA.
Qed.

Lemma ocf_of_fill_Some self s s' fg :
  st_figures s !! self = Some fg → fig_available_moves fg = None →
  fill (Some self) s s' → only_caches_filled s s'.
Proof.
  intros Hs Hm [V [T F]]. constructor; [done..|].
  intros g fg0 Hg. destruct (F g fg0 Hg) as (fg' & ? & ? & HA).
  exists fg'. split; [done|]. split; [done|].
  destruct (decide (g = self)) as [->|Hne].
  - left. congruence.
  - right. apply HA. congruence.
Qed.

Lemma ocf_query {A} (m : M A) s :
  is_query m → only_caches_filled s (exec m s).
Proof. intros [F _]. apply ocf_of_fill_None, F. Qed.

Lemma ocf_available_moves self s :
  only_caches_filled s (exec (available_moves self) s).
Proof.
  unfold available_moves. rewrite exec_bind.
  unfold eval at 1, exec at 2, exec at 2, read_figure.
  destruct (st_figures s !! self) as [fg|] eqn:Hs; simpl; [|apply ocf_refl].
  destruct (fig_available_moves fg) as [m|] eqn:Hm.
  - unfold exec. rewrite (available_moves_as_cached _ _ _ _ _ Hs Hm).
    apply ocf_refl.
  - eapply ocf_of_fill_Some; [done..|]. apply is_frame_available_moves_as.
Qed.

Lemma eval_read_figure g s :
  eval (read_figure g) s =
  match st_figures s !! g with
  | Some fg => Ok fg
  | None => Raise NoSuchObject
  end.
Proof. unfold eval, read_figure. by destruct (st_figures s !! g). Qed.

Lemma exec_read_figure g s : exec (read_figure g) s = s.
Proof. unfold exec, read_figure. by destruct (st_figures s !! g). Qed.

Lemma eval_Table_set_figure_raise c p s e :
  eval (Table_set_figure c p) s = Raise e → e = IndexError.
Proof.
  unfold Table_set_figure, store_cell. unfold_m.
  repeat (case_match; simpl); congruence.
Qed.

Lemma eval_Figure_reset g s : eval (Figure_reset g) s = Ok tt.
Proof. reflexivity. Qed.

Lemma eval_Player_reset p s : eval (Player_reset p) s = Ok tt.
Proof. reflexivity. Qed.

Lemma eval_Figure_player_raise g s e :
  eval (Figure_player g) s = Raise e → e = NoSuchObject.
Proof.
  unfold Figure_player. unfold_m. destruct (st_figures s !! g); simpl; congruence.
Qed.

(** Once the legality check has passed and the position is known, the
    relocation can only fail on an index. *)
Lemma relocation_raises self p to s e :
  eval (Table_set_figure None p ;;;
        Figure_reset self ;;;
        Table_set_figure (Some self) to ;;;
        pl <<- Figure_player self ;;
        Player_reset pl) s = Raise e →
  e = IndexError ∨ e = NoSuchObject.
Proof.
  rewrite eval_bind.
  destruct (eval (Table_set_figure None p) s) eqn:H1;
    [|intros [= <-]; left; by eapply eval_Table_set_figure_raise].
  rewrite eval_bind, eval_Figure_reset, eval_bind.
  destruct (eval (Table_set_figure (Some self) to) _) eqn:H2;
    [|intros [= <-]; left; by eapply eval_Table_set_figure_raise].
  rewrite eval_bind.
  destruct (eval (Figure_player self) _) eqn:H3;
    [|intros [= <-]; right; by eapply eval_Figure_player_raise].
  by rewrite eval_Player_reset.
Qed.

Lemma Figure_move_failure self to s e :
  eval (Figure_move self to) s = Raise e →
  e = InvalidMove ∨ e = MissingFigure →
  only_caches_filled s (exec (Figure_move self to) s).
Proof.
  unfold Figure_move, Figure_move_validity.
  rewrite !eval_bind, !exec_bind, !eval_bind.
  pose proof (ocf_available_moves self s) as O1.
  destruct (eval (available_moves self) s) as [m|e1]; [|done].
  rewrite eval_ret, !exec_ret.
  destruct (negb (bool_decide (to ∈ m))).
  - intros _ _. rewrite !exec_bind.
    set (s1 := exec (available_moves self) s) in *.
    pose proof (ocf_query (Figure_position self) s1
                  (is_query_Figure_position self)) as O2.
    destruct (eval (Figure_position self) s1); [|by eapply ocf_trans].
    set (s2 := exec (Figure_position self) s1) in *.
    pose proof (ocf_available_moves self s2) as O3.
    assert (only_caches_filled s (exec (available_moves self) s2)).
    { eapply ocf_trans; [|apply O3]. by eapply ocf_trans. }
    by destruct (eval (available_moves self) s2).
  - set (s1 := exec (available_moves self) s) in *.
    rewrite eval_bind, exec_bind.
    pose proof (ocf_query (Figure_position self) s1
                  (is_query_Figure_position self)) as O2.
    destruct (eval (Figure_position self) s1) as [p|e2];
      [|intros _ _; by eapply ocf_trans].
    intros He Hk. apply relocation_raises in He.
    destruct He as [->| ->], Hk; discriminate.
Qed.

Lemma Pawn_move_failure self to s e :
  eval (Pawn_move self to) s = Raise e →
  e = InvalidMove ∨ e = MissingFigure →
  only_caches_filled s (exec (Pawn_move self to) s).
Proof.
  unfold Pawn_move. rewrite eval_bind, exec_bind.
  destruct (eval (Figure_move self to) s) as [[]|e1] eqn:H1.
  - rewrite eval_bind. simpl. intros He Hk.
    apply eval_Table_set_figure_raise in He. destruct Hk; congruence.
  - intros [= <-] Hk. by eapply Figure_move_failure.
Qed.

(** ** Lemmas: the legal-move cache of the sliding pieces *)

Lemma view_eq_set_moves self m s : view_eq s (exec (set_moves self m) s).
Proof. apply (is_frame_set_moves self m s). Qed.

Lemma set_moves_lookup self m s fg :
  st_figures s !! self = Some fg →
  st_figures (exec (set_moves self m) s) !! self
  = Some (set_fig_available_moves (Some m) fg).
Proof. intros Hs. unfold set_moves. unfold_m. by rewrite lookup_alter_eq, Hs. Qed.

Lemma query_keeps_moves {A} (q : M A) self s fg :
  is_query q → st_figures s !! self = Some fg →
  ∃ fg', st_figures (exec q s) !! self = Some fg'
         ∧ fig_available_moves fg' = fig_available_moves fg.
Proof.
  intros [F _] Hs. destruct (F s) as [_ [_ G]].
  destruct (G self fg Hs) as (fg' & ? & _ & HA). exists fg'. auto.
Qed.

Lemma eval_store_moves self ls s fg m :
  st_figures s !! self = Some fg → fig_available_moves fg = Some m →
  eval (moves_update self ls ;;; cached_moves self) s
  = Ok (m ∪ ⋃ (list_to_set <$> ls)).
Proof.
  intros Hs Hm. unfold moves_update, cached_moves. unfold_m.
  by rewrite lookup_alter_eq, Hs; simpl; rewrite Hm.
Qed.

(** The tail shared by Rook, Bishop and Queen: one query, then the update
    of the cache that was set to the empty set. *)
Lemma eval_fill_moves {A} (q : M A) (k : A → M (gset pos))
    (ls : A → list (list pos)) self s fg :
  is_query q → st_figures s !! self = Some fg →
  (∀ a, k a = (moves_update self (ls a) ;;; cached_moves self)) →
  eval (set_moves self ∅ ;;; a <<- q ;; k a) s
  = match eval q s with
    | Ok a => Ok (∅ ∪ ⋃ (list_to_set <$> ls a))
    | Raise e => Raise e
    end.
Proof.
  intros Hq Hs Hk. rewrite eval_bind. simpl. rewrite eval_bind.
  rewrite <- (q_cong _ Hq _ _ (view_eq_set_moves self ∅ s)).
  destruct (eval q s) as [a|e]; [|done].
  destruct (query_keeps_moves q self _ _ Hq (set_moves_lookup self ∅ s fg Hs))
    as (fg' & Hs' & Hm').
  rewrite Hk. by eapply eval_store_moves.
Qed.

Lemma eval_Rook_available_moves self s fg :
  st_figures s !! self = Some fg → fig_available_moves fg = None →
  eval (Rook_available_moves self) s
  = match eval (Rook_straight_moves self) s with
    | Ok (up, down, left_, right_) =>
        Ok (∅ ∪ ⋃ (list_to_set <$> [up; down; left_; right_]))
    | Raise e => Raise e
    end.
Proof.
  intros Hs Hm. unfold Rook_available_moves.
  rewrite eval_bind, eval_read_figure, exec_read_figure, Hs, Hm.
  rewrite (eval_fill_moves _ _
             (λ '(up, down, left_, right_), [up; down; left_; right_])
             self s fg); [|query|done|by intros [[[??]?]?]].
  by destruct (eval (Rook_straight_moves self) s) as [[[[??]?]?]|].
Qed.

Lemma eval_Bishop_available_moves self s fg :
  st_figures s !! self = Some fg → fig_available_moves fg = None →
  eval (Bishop_available_moves self) s
  = match eval (Bishop_oblique_moves self) s with
    | Ok (left_up, left_down, right_up, right_down) =>
        Ok (∅ ∪ ⋃ (list_to_set <$> [left_up; left_down; right_up; right_down]))
    | Raise e => Raise e
    end.
Proof.
  intros Hs Hm. unfold Bishop_available_moves.
  rewrite eval_bind, eval_read_figure, exec_read_figure, Hs, Hm.
  rewrite (eval_fill_moves _ _
             (λ '(a, b, c, d), [a; b; c; d])
             self s fg); [|query|done|by intros [[[??]?]?]].
  by destruct (eval (Bishop_oblique_moves self) s) as [[[[??]?]?]|].
Qed.

Lemma eval_Queen_available_moves self s fg :
  st_figures s !! self = Some fg → fig_available_moves fg = None →
  eval (Queen_available_moves self) s
  = match eval (Rook_straight_moves self) s with
    | Ok (up, down, left_, right_) =>
        match eval (Bishop_oblique_moves self) s with
        | Ok (left_up, left_down, right_up, right_down) =>
            Ok (∅ ∪ ⋃ (list_to_set <$>
                         [up; down; left_; right_;
                          left_up; left_down; right_up; right_down]))
        | Raise e => Raise e
        end
    | Raise e => Raise e
    end.
Proof.
  intros Hs Hm. unfold Queen_available_moves.
  rewrite eval_bind, eval_read_figure, exec_read_figure, Hs, Hm.
  pose proof (is_query_Rook_straight_moves self) as Q1.
  pose proof (is_query_Bishop_oblique_moves self) as Q2.
  set (s0 := exec (set_moves self ∅) s).
  assert (view_eq s s0) as V0 by apply view_eq_set_moves.
  rewrite eval_bind. simpl. fold s0.
  rewrite eval_bind, <- (q_cong _ Q1 _ _ V0).
  destruct (eval (Rook_straight_moves self) s) as [[[[up dn] lf] rg]|e];
    [|done].
  set (s1 := exec (Rook_straight_moves self) s0).
  assert (view_eq s s1) as V1.
  { eapply view_eq_trans; [apply V0 | apply (q_fill _ Q1 s0)]. }
  rewrite eval_bind, <- (q_cong _ Q2 _ _ V1).
  destruct (eval (Bishop_oblique_moves self) s) as [[[[lu ld] ru] rd]|e];
    [|done].
  destruct (query_keeps_moves _ self _ _ Q1
              (set_moves_lookup self ∅ s fg Hs)) as (fg1 & Hs1 & Hm1).
  destruct (query_keeps_moves _ self _ _ Q2 Hs1) as (fg2 & Hs2 & Hm2).
  eapply eval_store_moves; [done|]. by rewrite Hm2, Hm1.
Qed.

(** ** Lemmas: the board *)

Lemma list_index_Some {A} `{EqDecision A} (x : A) l i :
  list_index x l = Some i →
  l !! i = Some x ∧ ∀ j, (j < i)%nat → l !! j ≠ Some x.
Proof.
  unfold list_index. destruct (list_find (λ y, y = x) l) as [[k y]|] eqn:Hf;
    [|done].
  simpl. intros [= <-]. apply list_find_Some in Hf as (Hk & -> & Hmin).
  split; [done|]. intros j Hj Hl. by eapply Hmin.
Qed.

Lemma list_index_None {A} `{EqDecision A} (x : A) l :
  list_index x l = None → x ∉ l.
Proof.
  unfold list_index. destruct (list_find (λ y, y = x) l) as [[k y]|] eqn:Hf;
    [done|].
  intros _ Hin. apply list_find_None in Hf.
  rewrite Forall_forall in Hf. by apply (Hf x).
Qed.

Lemma list_index_is_Some {A} `{EqDecision A} (x : A) l :
  x ∈ l → ∃ i, list_index x l = Some i.
Proof.
  intros Hin. destruct (list_index x l) eqn:Hi; [eauto|].
  by apply list_index_None in Hi.
Qed.

Lemma scan_cons row cs : scan (row :: cs) = omap id row ++ scan cs.
Proof. unfold scan. simpl. apply omap_app. Qed.

Lemma elem_of_omap_id (l : list (option fid)) g :
  g ∈ omap id l ↔ ∃ c, l !! c = Some (Some g).
Proof.
  rewrite list_elem_of_omap. split.
  - intros (x & Hx & Hg). simpl in Hg. subst x.
    by apply list_elem_of_lookup_1.
  - intros [c Hc]. exists (Some g). split; [|done].
    by eapply list_elem_of_lookup_2.
Qed.

Lemma cell_Some cs r c g :
  cell cs r c = Some g ↔ ∃ row, cs !! r = Some row ∧ row !! c = Some (Some g).
Proof.
  unfold cell. split.
  - destruct (cs !! r) as [row|]; [|done].
    destruct (row !! c) as [x|] eqn:Hc; [|done]. intros ->. eauto.
  - intros (row & -> & ->). done.
Qed.

Lemma elem_of_scan cs g : g ∈ scan cs ↔ ∃ r c, cell cs r c = Some g.
Proof.
  induction cs as [|row cs IH].
  - split; [by intros ?%elem_of_nil|]. by intros (r & c & ?).
  - rewrite scan_cons, elem_of_app, elem_of_omap_id, IH. split.
    + intros [[c Hc]|(r & c & Hc)].
      * exists 0%nat, c. unfold cell. simpl. by rewrite Hc.
      * by exists (S r), c.
    + intros (r & c & Hc). destruct r as [|r].
      * left. exists c. unfold cell in Hc. simpl in Hc.
        by destruct (row !! c) as [[?|]|]; simplify_eq.
      * right. by exists r, c.
Qed.

Lemma omap_id_lookup_inj (l : list (option fid)) i j g :
  NoDup (omap id l) → l !! i = Some (Some g) → l !! j = Some (Some g) →
  i = j.
Proof.
  revert i j. induction l as [|x l IH]; intros i j Hnd Hi Hj; [done|].
  assert (NoDup (omap id l) ∧ (x = Some g → g ∉ omap id l)) as [Hnd' Hx].
  { destruct x as [y|]; simpl in Hnd.
    - apply NoDup_cons in Hnd as [??]. split; [done|]. by intros [= ->].
    - done. }
  destruct i as [|i], j as [|j]; simpl in *; simplify_eq; try done.
  - exfalso. apply Hx; [done|]. apply elem_of_omap_id. eauto.
  - exfalso. apply Hx; [done|]. apply elem_of_omap_id. eauto.
  - f_equal. by apply IH.
Qed.

Lemma cell_inj cs r c r' c' g :
  NoDup (scan cs) → cell cs r c = Some g → cell cs r' c' = Some g →
  r = r' ∧ c = c'.
Proof.
  revert r r'. induction cs as [|row cs IH]; intros r r' Hnd H1 H2.
  { by destruct r. }
  rewrite scan_cons in Hnd. apply NoDup_app in Hnd as (Hrow & Hdisj & Hrest).
  assert (∀ c0 r0 c1, row !! c0 = Some (Some g) → cell cs r0 c1 = Some g →
                      False) as Hno.
  { intros c0 r0 c1 Hc0 Hc1. apply (Hdisj g).
    - apply elem_of_omap_id. eauto.
    - apply elem_of_scan. eauto. }
  destruct r as [|r], r' as [|r'].
  - split; [done|]. apply cell_Some in H1 as (? & [= <-] & ?).
    apply cell_Some in H2 as (? & [= <-] & ?).
    by apply (omap_id_lookup_inj row c c' g).
  - apply cell_Some in H1 as (? & [= <-] & ?). exfalso. by eapply Hno.
  - apply cell_Some in H2 as (? & [= <-] & ?). exfalso. by eapply Hno.
  - destruct (IH r r' Hrest H1 H2) as [-> ->]. done.
Qed.

Lemma locate_Some g cs k p :
  locate g cs k = Some p →
  ∃ r c, p = (Z.of_nat (k + r), Z.of_nat c) ∧ cell cs r c = Some g.
Proof.
  revert k. induction cs as [|row cs IH]; intros k; simpl; [done|].
  destruct (list_index (Some g) row) as [c|] eqn:Hc.
  - intros [= <-]. exists 0%nat, c. rewrite Nat.add_0_r. split; [done|].
    apply list_index_Some in Hc as [Hc _]. unfold cell. simpl. by rewrite Hc.
  - intros (r & c & -> & Hcell)%IH. exists (S r), c.
    split; [f_equal; lia | done].
Qed.

Lemma locate_None g cs k r c : locate g cs k = None → cell cs r c ≠ Some g.
Proof.
  revert k r. induction cs as [|row cs IH]; intros k r; simpl.
  { by destruct r. }
  destruct (list_index (Some g) row) as [c0|] eqn:Hc; [done|].
  intros Hl. destruct r as [|r].
  - intros (? & [= <-] & Hrow)%cell_Some. apply list_index_None in Hc.
    apply Hc. by eapply list_elem_of_lookup_2.
  - by apply (IH (S k)).
Qed.

Lemma locate_cell g cs r c :
  NoDup (scan cs) → cell cs r c = Some g →
  locate g cs 0 = Some (Z.of_nat r, Z.of_nat c).
Proof.
  intros Hnd Hc. destruct (locate g cs 0) as [p|] eqn:Hl.
  - apply locate_Some in Hl as (r' & c' & -> & Hc').
    by destruct (cell_inj _ _ _ _ _ _ Hnd Hc Hc') as [-> ->].
  - by apply (locate_None _ _ _ r c) in Hl.
Qed.

Lemma occupant_Some s p g :
  occupant s p = Some g ↔
  ∃ r c, p = (Z.of_nat r, Z.of_nat c)
         ∧ cell (tbl_cells (st_table s)) r c = Some g.
Proof.
  unfold occupant, occ. destruct p as [x y]; simpl. split.
  - case_bool_decide as Hp; [|done]. intros Hc.
    exists (Z.to_nat x), (Z.to_nat y). split; [f_equal; lia | done].
  - intros (r & c & [= -> ->] & Hc).
    rewrite bool_decide_true by lia. by rewrite !Nat2Z.id.
Qed.

(** The check that computes is sound. *)
Lemma consistentb_sound s : consistentb s = true → consistent s.
Proof.
  unfold consistentb. intros H.
  apply andb_prop in H as [H H3]. apply andb_prop in H as [H1 H2].
  apply bool_decide_eq_true in H1.
  rewrite forallb_forall in H3.
  set (cs := tbl_cells (st_table s)) in *.
  assert (figs_view s = scan cs) as Hfv.
  { unfold figs_view. fold cs. destruct (tbl_figures (st_table s)); [|done].
    by apply bool_decide_eq_true in H2. }
  assert (∀ g r c, cell cs r c = Some g →
                   pos_view s g = Ok (Z.of_nat r, Z.of_nat c)) as Hpos.
  { intros g r c Hc. pose proof (locate_cell _ _ _ _ H1 Hc) as Hl.
    assert (g ∈ scan cs) as Hin by (apply elem_of_scan; eauto).
    apply list_elem_of_In, H3 in Hin.
    unfold pos_view, fig_view, pos_of. fold cs.
    destruct (st_figures s !! g) as [fg|]; [simpl|done].
    destruct (fig_position fg) as [p|]; [|by rewrite Hl].
    apply bool_decide_eq_true in Hin. rewrite Hl in Hin. by simplify_eq. }
  constructor.
  - intros p g. rewrite occupant_Some, Hfv, elem_of_scan. fold cs. split.
    + intros (r & c & -> & Hc). split; [eauto | by apply Hpos].
    + intros [(r & c & Hc) Hp]. exists r, c. split; [|done].
      rewrite (Hpos _ _ _ Hc) in Hp. by simplify_eq.
  - intros g. rewrite Hfv, elem_of_scan. intros (r & c & Hc).
    eexists. by apply Hpos.
Qed.

(** ** Lemmas: the ray scanner *)

Lemma pos_view_owner s g q : pos_view s g = Ok q → ∃ o, owner_view s g = Ok o.
Proof.
  unfold pos_view, owner_view.
  destruct (fig_view s g) as [[[[k o] b] r]|]; [eauto | done].
Qed.

(** [cut_after] keeps the squares of the list that come before every figure
    standing on the list, the square of a figure of another player
    included. *)
Lemma cut_after_spec s p t f :
  NoDup f → (∀ g, g ∈ t → ∃ q, pos_view s g = Ok q) →
  ∃ l, eval (cut_after f t p) s = Ok l
       ∧ ∀ q, q ∈ l ↔
              ∃ k, f !! k = Some q
                   ∧ ∀ g j qg o, g ∈ t → pos_view s g = Ok qg →
                       f !! j = Some qg → owner_view s g = Ok o →
                       (p = o → (k < j)%nat) ∧ (p ≠ o → (k ≤ j)%nat).
Proof.
  revert f. induction t as [|i t IH]; intros f Hnd Hres.
  - exists f. split; [done|]. intros q. rewrite list_elem_of_lookup.
    split.
    + intros [k Hk]. exists k. split; [done|].
      intros g j qg o Hg. by apply elem_of_nil in Hg.
    + intros (k & Hk & _). by exists k.
  - simpl. rewrite eval_bind_query, eval_Figure_position by query.
    destruct (Hres i) as [qi Hqi]; [by left|]. rewrite Hqi.
    destruct (pos_view_owner _ _ _ Hqi) as [oi Hoi].
    assert (∀ g, g ∈ t → ∃ q, pos_view s g = Ok q) as Hres'.
    { intros g Hg. apply Hres. by right. }
    destruct (list_index qi f) as [s0|] eqn:Hidx.
    + rewrite eval_bind_query, eval_Figure_player, Hoi by query.
      apply list_index_Some in Hidx as [Hs0 _].
      set (n := if bool_decide (p = oi) then s0 else S s0).
      assert ((if bool_decide (p = oi) then take s0 f else take (S s0) f)
              = take n f) as -> by (unfold n; by case_bool_decide).
      destruct (IH (take n f)) as (l & Hl & Hspec);
        [by eapply sublist_NoDup, sublist_take | done |].
      exists l. split; [done|]. intros q. rewrite Hspec. clear Hspec Hl.
      split.
      * intros (k & Hk & HC). apply lookup_take_Some in Hk as [Hk Hkn].
        exists k. split; [done|]. intros g j qg o Hg Hqg Hj Ho.
        apply elem_of_cons in Hg as [->|Hg].
        -- assert (qg = qi) as -> by congruence.
           assert (o = oi) as -> by congruence.
           assert (j = s0) as -> by (by eapply NoDup_lookup).
           unfold n in Hkn. case_bool_decide; split; intros; try done; lia.
        -- destruct (decide (j < n)%nat) as [Hjn|Hjn].
           ++ eapply HC; [done..| |done]. by apply lookup_take_Some.
           ++ split; intros; lia.
      * intros (k & Hk & HC).
        assert (k < n)%nat as Hkn.
        { destruct (HC i s0 qi oi) as [H1 H2]; [by left|done..|].
          unfold n. case_bool_decide as Hp; [by apply H1|].
          apply H2 in Hp. lia. }
        exists k. split; [by apply lookup_take_Some|].
        intros g j qg o Hg Hqg Hj Ho.
        apply lookup_take_Some in Hj as [Hj _].
        eapply HC; [by right|done..].
    + destruct (IH f) as (l & Hl & Hspec); [done..|].
      exists l. split; [done|]. intros q. rewrite Hspec. clear Hspec Hl.
      apply list_index_None in Hidx.
      split; intros (k & Hk & HC); exists k; (split; [done|]);
        intros g j qg o Hg Hqg Hj Ho.
      * apply elem_of_cons in Hg as [->|Hg]; [|by eapply HC].
        exfalso. apply Hidx.
        assert (qg = qi) as -> by congruence.
        by eapply list_elem_of_lookup_2.
      * eapply HC; [by right|done..].
Qed.

(** [cut_before] keeps the squares of the list that come after every figure
    standing on the list, the square of a figure of another player
    included. *)
Lemma cut_before_spec s p t f :
  NoDup f → (∀ g, g ∈ t → ∃ q, pos_view s g = Ok q) →
  ∃ l, eval (cut_before f t p) s = Ok l
       ∧ ∀ q, q ∈ l ↔
              ∃ k, f !! k = Some q
                   ∧ ∀ g j qg o, g ∈ t → pos_view s g = Ok qg →
                       f !! j = Some qg → owner_view s g = Ok o →
                       (p = o → (j < k)%nat) ∧ (p ≠ o → (j ≤ k)%nat).
Proof.
  revert f. induction t as [|i t IH]; intros f Hnd Hres.
  - exists f. split; [done|]. intros q. rewrite list_elem_of_lookup.
    split.
    + intros [k Hk]. exists k. split; [done|].
      intros g j qg o Hg. by apply elem_of_nil in Hg.
    + intros (k & Hk & _). by exists k.
  - simpl. rewrite eval_bind_query, eval_Figure_position by query.
    destruct (Hres i) as [qi Hqi]; [by left|]. rewrite Hqi.
    destruct (pos_view_owner _ _ _ Hqi) as [oi Hoi].
    assert (∀ g, g ∈ t → ∃ q, pos_view s g = Ok q) as Hres'.
    { intros g Hg. apply Hres. by right. }
    destruct (list_index qi f) as [s0|] eqn:Hidx.
    + rewrite eval_bind_query, eval_Figure_player, Hoi by query.
      apply list_index_Some in Hidx as [Hs0 _].
      set (n := if bool_decide (p = oi) then S s0 else s0).
      assert ((if bool_decide (p = oi) then drop (S s0) f else drop s0 f)
              = drop n f) as -> by (unfold n; by case_bool_decide).
      destruct (IH (drop n f)) as (l & Hl & Hspec);
        [by eapply sublist_NoDup, sublist_drop | done |].
      exists l. split; [done|]. intros q. rewrite Hspec. clear Hspec Hl.
      split.
      * intros (k & Hk & HC). rewrite lookup_drop in Hk.
        exists (n + k)%nat. split; [done|]. intros g j qg o Hg Hqg Hj Ho.
        apply elem_of_cons in Hg as [->|Hg].
        -- assert (qg = qi) as -> by congruence.
           assert (o = oi) as -> by congruence.
           assert (j = s0) as -> by (by eapply NoDup_lookup).
           unfold n. case_bool_decide; split; intros; try done; lia.
        -- destruct (decide (j < n)%nat) as [Hjn|Hjn].
           ++ split; intros; lia.
           ++ destruct (HC g (j - n)%nat qg o) as [H1 H2]; [done..| |done|].
              { rewrite lookup_drop. by replace (n + (j - n))%nat with j by lia. }
              split; intros Hp; [apply H1 in Hp | apply H2 in Hp]; lia.
      * intros (k & Hk & HC).
        assert (n ≤ k)%nat as Hkn.
        { destruct (HC i s0 qi oi) as [H1 H2]; [by left|done..|].
          unfold n. case_bool_decide as Hp; [apply H1 in Hp; lia|].
          by apply H2. }
        exists (k - n)%nat. split.
        { rewrite lookup_drop. by replace (n + (k - n))%nat with k by lia. }
        intros g j qg o Hg Hqg Hj Ho. rewrite lookup_drop in Hj.
        destruct (HC g (n + j)%nat qg o) as [H1 H2]; [by right|done..|].
        split; intros Hp; [apply H1 in Hp | apply H2 in Hp]; lia.
    + destruct (IH f) as (l & Hl & Hspec); [done..|].
      exists l. split; [done|]. intros q. rewrite Hspec. clear Hspec Hl.
      apply list_index_None in Hidx.
      split; intros (k & Hk & HC); exists k; (split; [done|]);
        intros g j qg o Hg Hqg Hj Ho.
      * apply elem_of_cons in Hg as [->|Hg]; [|by eapply HC].
        exfalso. apply Hidx.
        assert (qg = qi) as -> by congruence.
        by eapply list_elem_of_lookup_2.
      * eapply HC; [by right|done..].
Qed.

(** ** Lemmas: the rook *)

Lemma lookup_fmap_range (sq : Z → pos) a b k q :
  (sq <$> range a b) !! k = Some q ↔ q = sq (a + Z.of_nat k) ∧ a + Z.of_nat k < b.
Proof.
  unfold range. rewrite list_lookup_fmap, fmap_Some.
  setoid_rewrite lookup_seqZ. split.
  - intros (x & [-> ?] & ->). split; [done|lia].
  - intros [-> ?]. eexists. split; [split; [done|lia] | done].
Qed.

Lemma NoDup_fmap_range (sq : Z → pos) a b :
  (∀ x y, sq x = sq y → x = y) → NoDup (sq <$> range a b).
Proof.
  intros Hinj. apply NoDup_fmap_2_strong; [|apply NoDup_seqZ].
  intros x y _ _. apply Hinj.
Qed.

Lemma consistent_cut_after s p f :
  consistent s → NoDup f →
  ∃ l, eval (cut_after f (figs_view s) p) s = Ok l
       ∧ ∀ q, q ∈ l ↔ kept_after s p f q.
Proof.
  intros Hc Hnd.
  destruct (cut_after_spec s p (figs_view s) f Hnd (cs_resolved _ Hc))
    as (l & Hl & Hspec).
  exists l. split; [done|]. intros q. rewrite Hspec. unfold kept_after.
  split; intros (k & Hk & HC); exists k; (split; [done|]);
    intros g j qg o.
  - intros [??]%(cs_occupant _ Hc). by apply HC.
  - intros Hg Hp. apply HC. by apply (cs_occupant _ Hc).
Qed.

Lemma consistent_cut_before s p f :
  consistent s → NoDup f →
  ∃ l, eval (cut_before f (figs_view s) p) s = Ok l
       ∧ ∀ q, q ∈ l ↔ kept_before s p f q.
Proof.
  intros Hc Hnd.
  destruct (cut_before_spec s p (figs_view s) f Hnd (cs_resolved _ Hc))
    as (l & Hl & Hspec).
  exists l. split; [done|]. intros q. rewrite Hspec. unfold kept_before.
  split; intros (k & Hk & HC); exists k; (split; [done|]);
    intros g j qg o.
  - intros [??]%(cs_occupant _ Hc). by apply HC.
  - intros Hg Hp. apply HC. by apply (cs_occupant _ Hc).
Qed.

(** The four lists of [Rook._straight_moves] in a consistent state. *)
Lemma Rook_straight_moves_spec s self r c sp :
  consistent s → pos_view s self = Ok (r, c) → owner_view s self = Ok sp →
  ∃ up down left_ right_,
    eval (Rook_straight_moves self) s = Ok (up, down, left_, right_)
    ∧ (∀ q, q ∈ up ↔ kept_before s sp ((λ x, (x, c)) <$> range 0 r) q)
    ∧ (∀ q, q ∈ down ↔
            kept_after s sp ((λ x, (x, c)) <$> range (r + 1)
                                                   (tbl_rows (st_table s))) q)
    ∧ (∀ q, q ∈ left_ ↔ kept_before s sp ((λ x, (r, x)) <$> range 0 c) q)
    ∧ (∀ q, q ∈ right_ ↔
            kept_after s sp ((λ x, (r, x)) <$> range (c + 1)
                                                (tbl_columns (st_table s))) q).
Proof.
  intros Hc Hpos Hown. unfold Rook_straight_moves.
  assert (∀ a b, NoDup ((λ x, (x, c)) <$> range a b)) as Hnd1.
  { intros. apply NoDup_fmap_range. by intros ?? [= ->]. }
  assert (∀ a b, NoDup ((λ x, (r, x)) <$> range a b)) as Hnd2.
  { intros. apply NoDup_fmap_range. by intros ?? [= ->]. }
  destruct (consistent_cut_before s sp _ Hc (Hnd1 0 r)) as (up & Hup & Sup).
  destruct (consistent_cut_after s sp _ Hc
              (Hnd1 (r + 1) (tbl_rows (st_table s)))) as (dn & Hdn & Sdn).
  destruct (consistent_cut_before s sp _ Hc (Hnd2 0 c)) as (lf & Hlf & Slf).
  destruct (consistent_cut_after s sp _ Hc
              (Hnd2 (c + 1) (tbl_columns (st_table s)))) as (rg & Hrg & Srg).
  exists up, dn, lf, rg. split; [|done].
  rewrite eval_bind_query, eval_Figure_position, Hpos by query.
  rewrite eval_bind_query, eval_Table_figures by query.
  rewrite eval_bind_query, eval_Figure_player, Hown by query.
  rewrite eval_bind_query, Hup by query.
  rewrite eval_bind_query by query. simpl.
  rewrite eval_bind_query, eval_Figure_player, Hown by query.
  rewrite eval_bind_query, Hdn by query.
  rewrite eval_bind_query, eval_Figure_player, Hown by query.
  rewrite eval_bind_query, Hlf by query.
  rewrite eval_bind_query by query. simpl.
  rewrite eval_bind_query, eval_Figure_player, Hown by query.
  rewrite eval_bind_query, Hrg by query.
  done.
Qed.

(** The kept squares of a ray, by coordinate. *)
Lemma kept_before_range s sp (sq : Z → pos) a b q :
  kept_before s sp (sq <$> range a b) q ↔
  ∃ x, q = sq x ∧ a ≤ x < b
       ∧ ∀ g y o, occupant s (sq y) = Some g → a ≤ y < b →
           owner_view s g = Ok o → (sp = o → y < x) ∧ (sp ≠ o → y ≤ x).
Proof.
  unfold kept_before. setoid_rewrite lookup_fmap_range. split.
  - intros (k & [-> Hk] & HC). exists (a + Z.of_nat k).
    split; [done|]. split; [lia|]. intros g y o Hocc Hy Ho.
    destruct (HC g (Z.to_nat (y - a)) (sq y) o Hocc) as [H1 H2]; [|done|].
    { split; [f_equal|]; lia. }
    split; intros Hp; [apply H1 in Hp | apply H2 in Hp]; lia.
  - intros (x & -> & Hx & HC). exists (Z.to_nat (x - a)). split.
    { split; [f_equal|]; lia. }
    intros g j qg o Hocc [-> Hj] Ho.
    destruct (HC g (a + Z.of_nat j) o Hocc) as [H1 H2]; [lia|done|].
    split; intros Hp; [apply H1 in Hp | apply H2 in Hp]; lia.
Qed.

Lemma kept_after_range s sp (sq : Z → pos) a b q :
  kept_after s sp (sq <$> range a b) q ↔
  ∃ x, q = sq x ∧ a ≤ x < b
       ∧ ∀ g y o, occupant s (sq y) = Some g → a ≤ y < b →
           owner_view s g = Ok o → (sp = o → x < y) ∧ (sp ≠ o → x ≤ y).
Proof.
  unfold kept_after. setoid_rewrite lookup_fmap_range. split.
  - intros (k & [-> Hk] & HC). exists (a + Z.of_nat k).
    split; [done|]. split; [lia|]. intros g y o Hocc Hy Ho.
    destruct (HC g (Z.to_nat (y - a)) (sq y) o Hocc) as [H1 H2]; [|done|].
    { split; [f_equal|]; lia. }
    split; intros Hp; [apply H1 in Hp | apply H2 in Hp]; lia.
  - intros (x & -> & Hx & HC). exists (Z.to_nat (x - a)). split.
    { split; [f_equal|]; lia. }
    intros g j qg o Hocc [-> Hj] Ho.
    destruct (HC g (a + Z.of_nat j) o Hocc) as [H1 H2]; [lia|done|].
    split; intros Hp; [apply H1 in Hp | apply H2 in Hp]; lia.
Qed.

Lemma occupant_in_grid s p g :
  rectangular s → occupant s p = Some g →
  0 ≤ p.1 < tbl_rows (st_table s) ∧ 0 ≤ p.2 < tbl_columns (st_table s).
Proof.
  intros [Hrows Hcols] (r & c & -> & (row & Hr & Hc)%cell_Some)%occupant_Some.
  simpl. apply lookup_lt_Some in Hr as Hr', Hc as Hc'.
  rewrite Forall_forall in Hcols.
  pose proof (Hcols row (list_elem_of_lookup_2 _ _ _ Hr)). lia.
Qed.

Lemma consistent_pos s p g :
  consistent s → occupant s p = Some g → pos_view s g = Ok p.
Proof. intros Hc Ho. by apply (cs_occupant _ Hc) in Ho as [_ ?]. Qed.

Lemma occupant_owner s p g :
  consistent s → occupant s p = Some g → ∃ o, owner_view s g = Ok o.
Proof. intros Hc Ho. eapply pos_view_owner, consistent_pos; eauto. Qed.

(** The legal-move set of a rook in a consistent state: the union of the
    kept squares of its four rays. *)
Lemma Rook_moves_spec s self fg r c sp :
  consistent s →
  st_figures s !! self = Some fg → fig_kind fg = Rook →
  fig_available_moves fg = None →
  pos_view s self = Ok (r, c) → owner_view s self = Ok sp →
  ∃ m, eval (available_moves self) s = Ok m
       ∧ ∀ q, q ∈ m ↔
           kept_before s sp ((λ x, (x, c)) <$> range 0 r) q
           ∨ kept_after s sp ((λ x, (x, c)) <$> range (r + 1)
                                                 (tbl_rows (st_table s))) q
           ∨ kept_before s sp ((λ x, (r, x)) <$> range 0 c) q
           ∨ kept_after s sp ((λ x, (r, x)) <$> range (c + 1)
                                              (tbl_columns (st_table s))) q.
Proof.
  intros Hc Hs Hk Hm Hpos Hown.
  destruct (Rook_straight_moves_spec s self r c sp Hc Hpos Hown)
    as (up & dn & lf & rg & He & Sup & Sdn & Slf & Srg).
  eexists. split.
  - unfold available_moves.
    rewrite eval_bind, eval_read_figure, exec_read_figure, Hs, Hk. simpl.
    by rewrite (eval_Rook_available_moves _ _ _ Hs Hm), He.
  - intros q. simpl.
    rewrite !elem_of_union, !elem_of_list_to_set, Sup, Sdn, Slf, Srg.
    rewrite !elem_of_empty. tauto.
Qed.

(** ** Lemmas: the leapers *)

Lemma map_m_positions s t :
  (∀ g, g ∈ t → ∃ q, pos_view s g = Ok q) →
  ∃ poss, eval (map_m Figure_position t) s = Ok poss
          ∧ Forall2 (λ g q, pos_view s g = Ok q) t poss.
Proof.
  induction t as [|g t IH]; intros Hres.
  - exists []. split; [done | constructor].
  - destruct (Hres g) as [q Hq]; [by left|].
    destruct IH as (poss & He & HF); [intros; apply Hres; by right|].
    exists (q :: poss). split; [|by constructor].
    simpl. rewrite eval_bind_query, eval_Figure_position, Hq by query.
    by rewrite eval_bind_query, He by query.
Qed.

Lemma getitem_lookup {A} (l : list A) k x :
  l !! k = Some x → getitem l (Z.of_nat k) = Ok x.
Proof.
  intros Hk. unfold getitem, py_index.
  apply lookup_lt_Some in Hk as Hlt.
  replace (0 <=? Z.of_nat k) with true by (symmetry; apply Z.leb_le; lia).
  replace (Z.of_nat k <? Z.of_nat (length l)) with true
    by (symmetry; apply Z.ltb_lt; lia).
  simpl. by rewrite Nat2Z.id, Hk.
Qed.

(** The test of the inner [if] answers whether the square is free for the
    mover. *)
Lemma leaper_free_spec s self poss sp mv :
  consistent s →
  Forall2 (λ g q, pos_view s g = Ok q) (figs_view s) poss →
  owner_view s self = Ok sp →
  ∃ b, eval (leaper_free self (figs_view s) poss mv) s = Ok b
       ∧ (b = true ↔ free_for s sp mv).
Proof.
  intros Hc HF Hsp. unfold leaper_free, free_for.
  destruct (list_index mv poss) as [k|] eqn:Hidx.
  - apply list_index_Some in Hidx as [Hk _].
    destruct (Forall2_lookup_r _ _ _ _ _ HF Hk) as (g & Hg & Hpg).
    assert (occupant s mv = Some g) as Hocc.
    { apply (cs_occupant _ Hc). split; [|done].
      by eapply list_elem_of_lookup_2. }
    destruct (pos_view_owner _ _ _ Hpg) as [o Ho].
    rewrite eval_bind_query, eval_Figure_player, Hsp by query.
    rewrite eval_bind_query by query.
    unfold eval at 1, of_result. simpl. rewrite (getitem_lookup _ _ _ Hg).
    rewrite eval_bind_query, eval_Figure_player, Ho by query.
    eexists. split; [done|]. rewrite Hocc, Ho.
    rewrite negb_true_iff, bool_decide_eq_false. split; congruence.
  - exists true. split; [done|]. split; [intros _|done].
    destruct (occupant s mv) as [g|] eqn:Hocc; [|done].
    apply (cs_occupant _ Hc) in Hocc as [Hin Hp].
    apply list_index_None in Hidx. exfalso. apply Hidx.
    apply list_elem_of_lookup_1 in Hin as [k Hk].
    destruct (Forall2_lookup_l _ _ _ _ _ HF Hk) as (q & Hq & Hpq).
    assert (q = mv) as -> by congruence.
    by eapply list_elem_of_lookup_2.
Qed.

Lemma bind_query_run {A B} (q : M A) (k : A → M B) s0 s a :
  is_query q → view_eq s0 s → eval q s0 = Ok a →
  ∃ s', bind q k s = k a s' ∧ fill None s s'.
Proof.
  intros Hq Hv He. exists (exec q s). split; [|apply (q_fill _ Hq)].
  unfold bind. rewrite (run_eq q s), <- (q_cong _ Hq _ _ Hv), He. done.
Qed.

Lemma fill_lookup w s s' g fg :
  fill w s s' → st_figures s !! g = Some fg →
  ∃ fg', st_figures s' !! g = Some fg'
         ∧ (Some g ≠ w → fig_available_moves fg' = fig_available_moves fg).
Proof.
  intros [_ [_ F]] Hg. destruct (F g fg Hg) as (fg' & ? & _ & ?). eauto.
Qed.

(** The loop of [_validate_moves]: every offset whose square is in bounds
    and free for the mover is added to the cached set. *)
Lemma leaper_loop s self cur poss sp offs :
  consistent s →
  Forall2 (λ g q, pos_view s g = Ok q) (figs_view s) poss →
  owner_view s self = Ok sp →
  ∀ s1 fg1 acc,
    view_eq s s1 → st_figures s1 !! self = Some fg1 →
    fig_available_moves fg1 = Some acc →
    ∃ s2 fg2 acc',
      for_each offs (λ i : pos,
        let move := (cur.1 + i.1, cur.2 + i.2) in
        rows <<- gets (λ s, tbl_rows (st_table s)) ;;
        columns <<- gets (λ s, tbl_columns (st_table s)) ;;
        if bool_decide (0 <= move.1 <= rows)
           && bool_decide (0 <= move.2 <= columns)
        then
          b <<- leaper_free self (figs_view s) poss move ;;
          if b then moves_update self [[move]] else ret tt
        else ret tt) s1 = (Ok tt, s2)
      ∧ view_eq s s2 ∧ st_figures s2 !! self = Some fg2
      ∧ fig_available_moves fg2 = Some acc'
      ∧ ∀ q, q ∈ acc' ↔
             q ∈ acc ∨ ∃ i, i ∈ offs ∧ q = shift cur i
                            ∧ leaper_in_bounds s q ∧ free_for s sp q.
Proof.
  intros Hc HF Hsp. induction offs as [|i offs IH]; intros s1 fg1 acc V1 H1 A1.
  - exists s1, fg1, acc. split; [done|]. split; [done|].
    split; [done|]. split; [done|]. intros q. split; [by left|].
    intros [?|(i & Hi & _)]; [done|]. by apply elem_of_nil in Hi.
  - simpl.
    set (mv := (cur.1 + i.1, cur.2 + i.2)).
    assert (∃ s1' fg1' acc1,
      (rows <<- gets (λ s, tbl_rows (st_table s)) ;;
       columns <<- gets (λ s, tbl_columns (st_table s)) ;;
       if bool_decide (0 <= cur.1 + i.1 <= rows)
          && bool_decide (0 <= cur.2 + i.2 <= columns)
       then
         b <<- leaper_free self (figs_view s) poss mv ;;
         if b then moves_update self [[mv]] else ret tt
       else ret tt) s1 = (Ok tt, s1')
      ∧ view_eq s s1' ∧ st_figures s1' !! self = Some fg1'
      ∧ fig_available_moves fg1' = Some acc1
      ∧ ∀ q, q ∈ acc1 ↔
             q ∈ acc ∨ (q = shift cur i
                        ∧ leaper_in_bounds s q ∧ free_for s sp q))
      as (s1' & fg1' & acc1 & Hrun & V1' & H1' & A1' & Hacc1).
    { unfold bind at 1, gets at 1. unfold bind at 1, gets at 1.
      rewrite <- (ve_rows _ _ V1), <- (ve_columns _ _ V1).
      destruct (bool_decide (0 <= cur.1 + i.1 <= tbl_rows (st_table s))
                && bool_decide (0 <= cur.2 + i.2 <= tbl_columns (st_table s)))
        eqn:Hb.
      - apply andb_prop in Hb as [Hb1 Hb2].
        apply bool_decide_eq_true in Hb1, Hb2.
        destruct (leaper_free_spec s self poss sp mv Hc HF Hsp)
          as (b & Hb & Hfree).
        destruct (bind_query_run (leaper_free self (figs_view s) poss mv)
                    (λ b, if b then moves_update self [[mv]] else ret tt)
                    s s1 b) as (s1' & -> & F1); [query|done..|].
        destruct (fill_lookup _ _ _ _ _ F1 H1) as (fg1' & H1' & A1').
        assert (view_eq s s1') as V1'.
        { eapply view_eq_trans; [apply V1 | apply F1]. }
        destruct b.
        + eexists _, _, (acc ∪ ⋃ (list_to_set <$> [[mv]])).
          split; [reflexivity|]. split; [|split; [|split]].
          * eapply view_eq_trans; [apply V1'|].
            apply (is_frame_moves_update self [[mv]] s1').
          * unfold moves_update. unfold_m. by rewrite lookup_alter_eq, H1'.
          * simpl. rewrite A1' by done. by rewrite A1.
          * intros q. rewrite elem_of_union, elem_of_union_list.
            setoid_rewrite list_elem_of_fmap.
            setoid_rewrite list_elem_of_singleton.
            unfold leaper_in_bounds, shift. fold mv. split.
            -- intros [?|(X & (x & -> & ->) & Hq)]; [by left|].
               apply elem_of_list_to_set, list_elem_of_singleton in Hq.
               subst q. right. split; [done|]. split; [done|].
               by apply Hfree.
            -- intros [?|(-> & _)]; [by left|]. right.
               exists (list_to_set [mv]). split; [by exists [mv]|].
               by apply elem_of_list_to_set, list_elem_of_singleton.
        + exists s1', fg1', acc. split; [done|]. split; [done|].
          split; [done|]. split; [by rewrite A1'|].
          intros q. split; [by left|]. intros [?|(-> & _ & Hf)]; [done|].
          apply Hfree in Hf. done.
      - exists s1, fg1, acc. split; [done|]. split; [done|].
        split; [done|]. split; [done|].
        intros q. split; [by left|]. intros [?|(-> & [Hr1 Hr2] & _)]; [done|].
        apply andb_false_iff in Hb as [Hb|Hb];
          apply bool_decide_eq_false in Hb; by destruct Hb. }
    destruct (IH s1' fg1' acc1 V1' H1' A1')
      as (s2 & fg2 & acc' & Hrun2 & V2 & H2 & A2 & Hacc2).
    exists s2, fg2, acc'. split.
    { unfold bind at 1. rewrite Hrun. exact Hrun2. }
    split; [done|]. split; [done|]. split; [done|].
    intros q. rewrite Hacc2, Hacc1. setoid_rewrite elem_of_cons.
    split.
    + intros [[?|?]|(j & ? & ?)]; [by left | right; exists i; tauto |].
      right. exists j. tauto.
    + intros [?|(j & [->|?] & ?)]; [by left; left | by left; right |].
      right. exists j. tauto.
Qed.

Lemma bind_run {A B} (m : M A) (k : A → M B) s :
  bind m k s = match eval m s with
               | Ok a => k a (exec m s)
               | Raise e => (Raise e, exec m s)
               end.
Proof. unfold bind. rewrite (run_eq m s). simpl. by destruct (eval m s). Qed.

(** One query at the head of a computation: it answers as in any state
    with the same view, and leaves such a state. *)
Lemma bind_query_eq {A B} (q : M A) (k : A → M B) s0 s a :
  is_query q → view_eq s0 s → eval q s0 = Ok a →
  bind q k s = k a (exec q s).
Proof.
  intros Hq Hv He. by rewrite bind_run, <- (q_cong _ Hq _ _ Hv), He.
Qed.

Lemma query_keeps {A} (q : M A) s0 s self fg :
  is_query q → view_eq s0 s → st_figures s !! self = Some fg →
  view_eq s0 (exec q s)
  ∧ ∃ fg', st_figures (exec q s) !! self = Some fg'
           ∧ fig_available_moves fg' = fig_available_moves fg.
Proof.
  intros Hq Hv Hs. split.
  - eapply view_eq_trans; [apply Hv | apply (q_fill _ Hq)].
  - destruct (fill_lookup _ _ _ _ _ (q_fill _ Hq s) Hs) as (fg' & Hs' & HA).
    exists fg'. split; [done|]. by apply HA.
Qed.

(** The legal-move set [_validate_moves] computes in a consistent state. *)
Lemma leaper_moves_spec s self fg offs cur sp :
  consistent s →
  st_figures s !! self = Some fg → fig_available_moves fg = None →
  pos_view s self = Ok cur → owner_view s self = Ok sp →
  ∃ m s' fg',
    Knight_validate_moves self offs s = (Ok m, s')
    ∧ st_figures s' !! self = Some fg'
    ∧ fig_available_moves fg' = Some m
    ∧ ∀ q, q ∈ m ↔ ∃ i, i ∈ offs ∧ q = shift cur i
                        ∧ leaper_in_bounds s q ∧ free_for s sp q.
Proof.
  intros Hc Hs Hm Hpos Hsp. unfold Knight_validate_moves.
  destruct (map_m_positions s (figs_view s) (cs_resolved _ Hc))
    as (poss & Hposs & HF).
  rewrite bind_run, eval_read_figure, exec_read_figure, Hs, Hm.
  assert (is_query (map_m Figure_position (figs_view s))) as Qm by query.
  rewrite (bind_query_eq (Figure_position self) _ s s cur);
    [|query | apply view_eq_refl | by rewrite eval_Figure_position].
  destruct (query_keeps (Figure_position self) s s self fg)
    as (V1 & fg1 & H1 & A1); [query | apply view_eq_refl | done |].
  set (s1 := exec (Figure_position self) s) in *.
  rewrite (bind_query_eq Table_figures _ s s1 (figs_view s));
    [|query | done | apply eval_Table_figures].
  destruct (query_keeps Table_figures s s1 self fg1)
    as (V2 & fg2 & H2 & A2); [query | done..|].
  set (s2 := exec Table_figures s1) in *.
  rewrite (bind_query_eq Table_figures _ s s2 (figs_view s));
    [|query | done | apply eval_Table_figures].
  destruct (query_keeps Table_figures s s2 self fg2)
    as (V3 & fg3 & H3 & A3); [query | done..|].
  set (s3 := exec Table_figures s2) in *.
  rewrite (bind_query_eq _ _ s s3 poss Qm V3 Hposs).
  destruct (query_keeps _ s s3 self fg3 Qm V3 H3) as (V4 & fg4 & H4 & A4).
  set (s4 := exec (map_m Figure_position (figs_view s)) s3) in *.
  rewrite bind_run.
  change (eval (set_moves self ∅) s4) with (Ok () : Result ()).
  cbv beta iota.
  set (s5 := exec (set_moves self ∅) s4).
  assert (view_eq s s5) as V5.
  { eapply view_eq_trans; [apply V4 | apply view_eq_set_moves]. }
  pose proof (set_moves_lookup self ∅ s4 fg4 H4) as H5. fold s5 in H5.
  destruct (leaper_loop s self cur poss sp offs Hc HF Hsp s5 _ ∅ V5 H5 eq_refl)
    as (s6 & fg6 & m & Hrun & V6 & H6 & A6 & Hspec).
  cbv zeta in Hrun.
  exists m, s6, fg6. split; [|split; [done|split; [done|]]].
  - rewrite bind_run. unfold eval at 1, exec at 1 2. rewrite Hrun. simpl.
    unfold cached_moves. rewrite bind_run, eval_read_figure, exec_read_figure.
    by rewrite H6, A6.
  - intros q. rewrite Hspec, elem_of_empty. tauto.
Qed.

Lemma leaper_available_moves_spec s self fg cur sp :
  consistent s →
  st_figures s !! self = Some fg →
  fig_kind fg = Knight ∨ fig_kind fg = King →
  fig_available_moves fg = None →
  pos_view s self = Ok cur → owner_view s self = Ok sp →
  ∃ m, eval (available_moves self) s = Ok m
       ∧ ∀ q, q ∈ m ↔ ∃ i, i ∈ leaper_offsets (fig_kind fg) ∧ q = shift cur i
                           ∧ leaper_in_bounds s q ∧ free_for s sp q.
Proof.
  intros Hc Hs Hk Hm Hpos Hsp.
  destruct (leaper_moves_spec s self fg (leaper_offsets (fig_kind fg)) cur sp
              Hc Hs Hm Hpos Hsp) as (m & s' & fg' & Hrun & Hs' & Hm' & Hspec).
  exists m. split; [|done].
  unfold available_moves.
  rewrite eval_bind, eval_read_figure, exec_read_figure, Hs.
  assert (available_moves_as (fig_kind fg) self
          = (Knight_validate_moves self (leaper_offsets (fig_kind fg)) ;;;
             cached_moves self)) as ->.
  { by destruct Hk as [-> | ->]. }
  unfold eval. rewrite bind_run. unfold eval at 1, exec at 1.
  rewrite Hrun. simpl. unfold cached_moves.
  by rewrite bind_run, eval_read_figure, exec_read_figure, Hs', Hm'.
Qed.

(** ** Lemmas: the pawn *)

Lemma abv_query {A} (m : M A) : is_query m → answers_by_view m.
Proof. intros [_ C]. exact C. Qed.

Lemma abv_bind {A B} (q : M A) (k : A → M B) :
  is_query q → (∀ a, answers_by_view (k a)) → answers_by_view (bind q k).
Proof.
  intros Hq Hk s s' Hv. rewrite !eval_bind, (q_cong _ Hq _ _ Hv).
  destruct (eval q s') as [a|e]; [|done].
  apply Hk. destruct (q_fill _ Hq s) as [V1 _], (q_fill _ Hq s') as [V2 _].
  eapply view_eq_trans; [apply view_eq_sym, V1|].
  eapply view_eq_trans; [apply Hv | apply V2].
Qed.

Lemma eval_bind_abv {A B} (q : M A) (k : A → M B) s :
  is_query q → (∀ a, answers_by_view (k a)) →
  eval (bind q k) s =
  match eval q s with
  | Ok a => eval (k a) s
  | Raise e => Raise e
  end.
Proof.
  intros Hq Hk. rewrite eval_bind. destruct (eval q s) as [a|e]; [|done].
  apply Hk, view_eq_sym, (q_fill _ Hq).
Qed.

(** The three statements that end [Pawn.available_moves]. *)
Lemma eval_pawn_tail self ls s :
  eval (set_moves self ∅ ;;; moves_update self ls ;;; cached_moves self) s
  = match st_figures s !! self with
    | Some _ => Ok (∅ ∪ ⋃ (list_to_set <$> ls))
    | None => Raise NoSuchObject
    end.
Proof.
  unfold set_moves, moves_update, cached_moves. unfold_m.
  rewrite !lookup_alter_eq. by destruct (st_figures s !! self).
Qed.

Lemma abv_pawn_tail self ls :
  answers_by_view
    (set_moves self ∅ ;;; moves_update self ls ;;; cached_moves self).
Proof.
  intros s s' Hv. rewrite !eval_pawn_tail.
  pose proof (ve_fig _ _ Hv self) as Hf. unfold fig_view in Hf.
  by destruct (st_figures s !! self), (st_figures s' !! self).
Qed.

Ltac abv_step :=
  match goal with
  | |- answers_by_view (bind (set_moves _ _) _) => apply abv_pawn_tail
  | |- answers_by_view (bind _ _) =>
      apply abv_bind; [solve [query] | intros ?]
  | |- answers_by_view (match ?x with _ => _ end) => destruct x
  | |- answers_by_view (let '(_, _) := ?x in _) => destruct x
  | |- answers_by_view _ => apply abv_query; solve [query]
  end.
Ltac abv := intros; repeat abv_step.

Lemma list_remove_spec (p : pos) l :
  NoDup l →
  NoDup (list_remove p l) ∧ ∀ q, q ∈ list_remove p l ↔ q ∈ l ∧ q ≠ p.
Proof.
  induction l as [|y l IH]; intros Hnd; simpl.
  - split; [constructor|]. intros q. split; [by intros ?%elem_of_nil|].
    by intros [?%elem_of_nil _].
  - apply NoDup_cons in Hnd as [Hy Hnd]. destruct (IH Hnd) as [IH1 IH2].
    case_decide as Hd.
    + subst y. split; [done|]. intros q. rewrite elem_of_cons.
      split; [|intros [[?|?] ?]; done].
      intros Hq. split; [by right|]. by intros ->.
    + split.
      * apply NoDup_cons. split; [|done]. rewrite IH2. tauto.
      * intros q. rewrite !elem_of_cons, IH2. split.
        -- intros [->|[??]]; [split; [by left|done] | split; [by right|done]].
        -- intros [[->|?] ?]; [by left | by right].
Qed.

Lemma remove_positions_spec s t l :
  NoDup l → (∀ g, g ∈ t → ∃ q, pos_view s g = Ok q) →
  ∃ l', eval (remove_positions l t) s = Ok l'
        ∧ ∀ q, q ∈ l' ↔ q ∈ l ∧ ∀ g, g ∈ t → pos_view s g ≠ Ok q.
Proof.
  revert l. induction t as [|g t IH]; intros l Hnd Hres.
  - exists l. split; [done|]. intros q. split; [|by intros [? _]].
    intros Hq. split; [done|]. by intros g ?%elem_of_nil.
  - simpl. destruct (Hres g) as [p Hp]; [by left|].
    rewrite eval_bind_query, eval_Figure_position, Hp by query.
    destruct (list_remove_spec p l Hnd) as [Hnd' Hrem].
    destruct (IH (list_remove p l) Hnd') as (l' & Hl' & Hspec).
    { intros g' Hg'. apply Hres. by right. }
    exists l'. split; [done|]. intros q. rewrite Hspec, Hrem. split.
    + intros [[Hq Hne] Hall]. split; [done|]. intros g' Hg'.
      apply elem_of_cons in Hg' as [->|Hg']; [congruence | by apply Hall].
    + intros [Hq Hall]. split; [split; [done|]|].
      * intros ->. by apply (Hall g); [left|].
      * intros g' Hg'. apply Hall. by right.
Qed.

Lemma filter_m_spec {A} (f : A → M bool) s l :
  (∀ x, is_query (f x)) → (∀ x, x ∈ l → ∃ b, eval (f x) s = Ok b) →
  ∃ l', eval (filter_m f l) s = Ok l'
        ∧ ∀ x, x ∈ l' ↔ x ∈ l ∧ eval (f x) s = Ok true.
Proof.
  intros Hq. induction l as [|y l IH]; intros Hres.
  - exists []. split; [done|]. intros x. split; [by intros ?%elem_of_nil|].
    by intros [?%elem_of_nil _].
  - destruct (Hres y) as [b Hb]; [by left|].
    destruct IH as (l' & Hl' & Hspec); [intros; apply Hres; by right|].
    exists (if b then y :: l' else l'). split.
    { simpl. rewrite eval_bind_query, Hb by (query; by apply is_query_filter_m).
      by rewrite eval_bind_query, Hl' by query. }
    intros x. destruct b.
    + rewrite !elem_of_cons, Hspec. split.
      * intros [->|[??]]; [split; [by left|done] | split; [by right|done]].
      * intros [[->|?] ?]; [by left | by right].
    + rewrite elem_of_cons, Hspec. split.
      * intros [??]. split; [by right|done].
      * intros [[->|?] ?]; [congruence | done].
Qed.

Lemma py_index_wrap len i :
  - len ≤ i < len → py_index len i = Some (Z.to_nat (py_wrap len i)).
Proof.
  intros Hi. unfold py_index, py_wrap.
  destruct (0 <=? i) eqn:H0; simpl.
  - apply Z.leb_le in H0.
    replace (i <? len) with true by (symmetry; apply Z.ltb_lt; lia). done.
  - apply Z.leb_gt in H0.
    replace (- len <=? i) with true by (symmetry; apply Z.leb_le; lia).
    replace (i <? 0) with true by (symmetry; apply Z.ltb_lt; lia). done.
Qed.

Lemma py_wrap_range len i : - len ≤ i < len → 0 ≤ py_wrap len i < len.
Proof.
  intros Hi. unfold py_wrap. destruct (0 <=? i) eqn:H0.
  - apply Z.leb_le in H0. lia.
  - apply Z.leb_gt in H0. lia.
Qed.

(** On a rectangular board [get_figure] reads the cell the Python indices
    wrap to. *)
Lemma cell_at_wrapped s q :
  rectangular s →
  - tbl_rows (st_table s) ≤ q.1 < tbl_rows (st_table s) →
  - tbl_columns (st_table s) ≤ q.2 < tbl_columns (st_table s) →
  cell_at (tbl_cells (st_table s)) q = Ok (occupant s (wrapped s q)).
Proof.
  intros [Hrows Hcols] Hr Hc. unfold cell_at, getitem, occupant, occ, wrapped.
  simpl. rewrite Hrows, (py_index_wrap _ _ Hr).
  pose proof (py_wrap_range _ _ Hr) as Hr'.
  pose proof (py_wrap_range _ _ Hc) as Hc'.
  rewrite bool_decide_true by lia. unfold cell.
  destruct (tbl_cells (st_table s) !! _) as [row|] eqn:Hrow.
  - rewrite Forall_forall in Hcols.
    rewrite (Hcols row) by (by eapply list_elem_of_lookup_2).
    rewrite (py_index_wrap _ _ Hc).
    destruct (row !! _) as [x|] eqn:Hx; [done|].
    apply lookup_ge_None in Hx.
    pose proof (Hcols row (list_elem_of_lookup_2 _ _ _ Hrow)). lia.
  - apply lookup_ge_None in Hrow. lia.
Qed.

Lemma eval_pawn_takes s self i :
  eval (pawn_takes self i) s
  = match cell_at (tbl_cells (st_table s)) i with
    | Ok None => Ok false
    | Ok (Some g) =>
        match owner_view s g with
        | Ok q =>
            match owner_view s self with
            | Ok sp => Ok (negb (bool_decide (q = sp)))
            | Raise e => Raise e
            end
        | Raise e => Raise e
        end
    | Raise e => Raise e
    end.
Proof.
  unfold pawn_takes.
  rewrite eval_bind_query, eval_Table_get_figure by query.
  destruct (cell_at _ i) as [[g|]|e]; [|done..].
  rewrite eval_bind_query, eval_Figure_player by query.
  destruct (owner_view s g) as [q|e]; [|done].
  rewrite eval_bind_query, eval_Figure_player by query.
  by destruct (owner_view s self).
Qed.

Lemma first_move_view_lookup s g fg :
  st_figures s !! g = Some fg → first_move_view s g = Ok (fig_first_move fg).
Proof. intros Hg. unfold first_move_view, fig_view. by rewrite Hg. Qed.

(** The legal-move set of a pawn in a consistent position on a rectangular
    board: the straight squares that pass the clipping and are empty, and
    the oblique squares that pass the clipping and whose cell, as
    [get_figure] reads it, holds a figure of another player. *)
Lemma Pawn_moves_spec s self fg r c sp pl :
  consistent s → rectangular s →
  st_figures s !! self = Some fg → fig_kind fg = Pawn →
  fig_available_moves fg = None →
  occupant s (r, c) = Some self → owner_view s self = Ok sp →
  st_players s !! sp = Some pl →
  ∃ m, eval (available_moves self) s = Ok m
       ∧ ∀ q, q ∈ m ↔
           (q.1 < tbl_rows (st_table s) ∧ q.2 < tbl_columns (st_table s))
           ∧ (((q = (r + (if pl_goes_up pl then -1 else 1), c)
                ∨ (fig_first_move fg = true
                   ∧ q = (r + 2 * (if pl_goes_up pl then -1 else 1), c)))
               ∧ occupant s q = None)
              ∨ ((q = (r + (if pl_goes_up pl then -1 else 1), c + 1)
                  ∨ q = (r + (if pl_goes_up pl then -1 else 1), c - 1))
                 ∧ ∃ g, occupant s (wrapped s q) = Some g
                        ∧ owner_view s g ≠ Ok sp)).
Proof.
  intros Hc Hrect Hs Hk Hm Hocc Hsp Hpl.
  pose proof (consistent_pos _ _ _ Hc Hocc) as Hpos.
  pose proof (occupant_in_grid _ _ _ Hrect Hocc) as [Hr0 Hc0]. simpl in *.
  set (d := if pl_goes_up pl then -1 else 1).
  assert (d = -1 ∨ d = 1) as Hd by (unfold d; destruct (pl_goes_up pl); auto).
  set (rows := tbl_rows (st_table s)) in *.
  set (columns := tbl_columns (st_table s)) in *.
  set (straight := pawn_clip rows columns
         ((r + d, c) :: (if fig_first_move fg then [(r + 2 * d, c)] else []))).
  set (oblique := pawn_clip rows columns [(r + d, c + 1); (r + d, c - 1)]).
  assert (NoDup straight) as Hnd.
  { apply NoDup_filter. destruct (fig_first_move fg).
    - apply NoDup_cons. split; [|apply NoDup_singleton].
      intros [=]%list_elem_of_singleton. lia.
    - apply NoDup_singleton. }
  destruct (remove_positions_spec s (figs_view s) straight Hnd
              (cs_resolved _ Hc)) as (st' & Hst & Sst).
  destruct (filter_m_spec (pawn_takes self) s oblique) as (ob' & Hob & Sob).
  { query. }
  { intros q [Hclip Hq]%list_elem_of_filter. rewrite eval_pawn_takes, Hsp.
    rewrite cell_at_wrapped; [|done|..].
    - destruct (occupant s (wrapped s q)) as [g|] eqn:Hg; [|eauto].
      destruct (occupant_owner _ _ _ Hc Hg) as [o ->]. eauto.
    - fold rows. apply elem_of_cons in Hq as [->|Hq];
        [|apply list_elem_of_singleton in Hq as ->]; simpl in *; lia.
    - fold columns. apply elem_of_cons in Hq as [->|Hq];
        [|apply list_elem_of_singleton in Hq as ->]; simpl in *; lia. }
  eexists. split.
  - unfold available_moves.
    rewrite eval_bind, eval_read_figure, exec_read_figure, Hs, Hk. simpl.
    unfold Pawn_available_moves.
    rewrite eval_bind, eval_read_figure, exec_read_figure, Hs, Hm.
    rewrite eval_bind_abv, eval_Figure_position, Hpos by first [solve [query] | solve [abv]].
    rewrite eval_bind_abv, eval_Table_figures by first [solve [query] | solve [abv]].
    rewrite eval_bind_abv, eval_Figure_player, Hsp by first [solve [query] | solve [abv]].
    rewrite eval_bind_abv by first [solve [query] | solve [abv]].
    unfold eval at 1, read_player. rewrite Hpl. simpl.
    rewrite eval_bind_abv, eval_Figure_first_move,
      (first_move_view_lookup _ _ _ Hs) by first [solve [query] | solve [abv]].
    rewrite eval_bind_abv by first [solve [query] | solve [abv]]. simpl.
    rewrite eval_bind_abv by first [solve [query] | solve [abv]]. simpl.
    fold rows columns d straight oblique.
    rewrite eval_bind_abv, Hst by first [solve [query] | solve [abv]].
    rewrite eval_bind_abv, Hob by first [solve [query] | solve [abv]].
    rewrite eval_pawn_tail, Hs. reflexivity.
  - intros q. simpl.
    rewrite !elem_of_union, !elem_of_list_to_set, Sst, Sob, !elem_of_empty.
    unfold straight, oblique, pawn_clip.
    rewrite !list_elem_of_filter.
    assert (q ∈ [(r + d, c + 1); (r + d, c - 1)]
            ↔ q = (r + d, c + 1) ∨ q = (r + d, c - 1)) as ->.
    { by rewrite elem_of_cons, list_elem_of_singleton. }
    rewrite elem_of_cons.
    assert ((∀ g, g ∈ figs_view s → pos_view s g ≠ Ok q)
            ↔ occupant s q = None) as ->.
    { split.
      - intros Hall. destruct (occupant s q) as [g|] eqn:Hg; [|done].
        apply (cs_occupant _ Hc) in Hg as [Hin Hp]. by apply Hall in Hin.
      - intros Hnone g Hin Hp.
        assert (occupant s q = Some g) as Hg by (by apply (cs_occupant _ Hc)).
        congruence. }
    assert (q ∈ (if fig_first_move fg then [(r + 2 * d, c)] else [])
            ↔ fig_first_move fg = true ∧ q = (r + 2 * d, c)) as ->.
    { destruct (fig_first_move fg).
      - rewrite list_elem_of_singleton. tauto.
      - split; [by intros ?%elem_of_nil | by intros [? _]]. }
    assert (∀ q, (q = (r + d, c + 1) ∨ q = (r + d, c - 1)) →
                 q.1 < rows ∧ q.2 < columns →
                 (eval (pawn_takes self q) s = Ok true
                  ↔ ∃ g, occupant s (wrapped s q) = Some g
                         ∧ owner_view s g ≠ Ok sp)) as Htakes.
    { intros q' Hq' Hclip. rewrite eval_pawn_takes, Hsp.
      rewrite cell_at_wrapped; [|done|..].
      - destruct (occupant s (wrapped s q')) as [g|] eqn:Hg.
        + destruct (occupant_owner _ _ _ Hc Hg) as [o Ho]. rewrite Ho.
          split.
          * intros [= Hb]. apply negb_true_iff, bool_decide_eq_false in Hb.
            exists g. split; [done|]. congruence.
          * intros (g' & [= <-] & Hne). f_equal.
            apply negb_true_iff, bool_decide_eq_false. congruence.
        + split; [done|]. by intros (g' & ? & _).
      - fold rows. destruct Hq' as [-> | ->]; simpl in *; lia.
      - fold columns. destruct Hq' as [-> | ->]; simpl in *; lia. }
    split.
    + intros [[]|[[[Hclip Hq] Hnone]|[[[Hclip Hq] Ht]|[]]]].
      * split; [done|]. left. done.
      * split; [done|]. right. split; [done|]. by apply Htakes.
    + intros [Hclip [[Hq Hnone]|[Hq Ht]]].
      * right. left. done.
      * right. right. left. split; [done|]. by apply Htakes.
Qed.

(** ** Lemmas: a move that succeeds *)

Lemma ocf_owner s s' g : only_caches_filled s s' → owner_view s' g = owner_view s g.
Proof. intros [V _ _]. unfold owner_view. by rewrite (ve_fig _ _ V g). Qed.

Lemma ocf_pos s s' g : only_caches_filled s s' → pos_view s' g = pos_view s g.
Proof. intros [V _ _]. unfold pos_view. by rewrite (ve_fig _ _ V g). Qed.

Lemma owner_view_lookup s g o :
  owner_view s g = Ok o →
  ∃ fg, st_figures s !! g = Some fg ∧ fig_player fg = o.
Proof.
  unfold owner_view, fig_view. destruct (st_figures s !! g) as [fg|]; [|done].
  simpl. intros [= <-]. eauto.
Qed.

(** The state [Figure.move] leaves when the destination is legal: the old
    cell is emptied, the figure's caches are reset, the destination cell
    holds the figure, and the caches of its player and of the table are
    reset.  [s2] is the state the legality check left. *)
Lemma Figure_move_ok s self to m p o cs1 cs2 :
  eval (available_moves self) s = Ok m → to ∈ m →
  pos_view s self = Ok p → owner_view s self = Ok o →
  store_cell (tbl_cells (st_table s)) p None = Ok cs1 →
  store_cell cs1 to (Some self) = Ok cs2 →
  ∃ s2, only_caches_filled s s2
        ∧ Figure_move self to s
          = (Ok (),
             mkState (mkTable (tbl_rows (st_table s))
                              (tbl_columns (st_table s)) cs2 None)
                     (alter (set_pl_figures None) o (st_players s))
                     (alter (set_fig_available_moves None) self
                        (alter (set_fig_position None) self
                               (st_figures s2)))).
Proof.
  intros He Hto Hp Ho H1 H2.
  set (s1 := exec (available_moves self) s).
  set (s2 := exec (Figure_position self) s1).
  assert (only_caches_filled s s1) as O1 by apply ocf_available_moves.
  assert (only_caches_filled s1 s2) as O12
    by apply ocf_query, is_query_Figure_position.
  assert (only_caches_filled s s2) as O2 by (by eapply ocf_trans).
  exists s2. split; [done|].
  unfold Figure_move, Figure_move_validity.
  rewrite bind_run, eval_bind, He, eval_ret, exec_bind, He, exec_ret.
  rewrite bool_decide_true by done. simpl. fold s1.
  rewrite bind_run, eval_Figure_position, (ocf_pos _ _ _ O1), Hp. fold s2.
  destruct (owner_view_lookup s2 self o) as (fg2 & Hs2 & Hfo).
  { by rewrite (ocf_owner _ _ _ O2). }
  destruct O2 as [[Hrows Hcols Hcells Hplayers _ _] _ _].
  unfold Table_set_figure, Figure_reset, Figure_player, Player_reset,
    Table_reset.
  unfold_m. rewrite <- Hcells, H1. simpl. rewrite H2. simpl.
  rewrite !lookup_alter_eq, Hs2. simpl.
  unfold set_table, set_tbl_figures, set_cells. simpl.
  by rewrite Hfo, Hrows, Hcols, Hplayers.
Qed.

(** The same for [Pawn.move]: the flag is cleared and the destination cell
    is written once more. *)
Lemma Pawn_move_ok s self to m p o cs1 cs2 cs3 :
  eval (available_moves self) s = Ok m → to ∈ m →
  pos_view s self = Ok p → owner_view s self = Ok o →
  store_cell (tbl_cells (st_table s)) p None = Ok cs1 →
  store_cell cs1 to (Some self) = Ok cs2 →
  store_cell cs2 to (Some self) = Ok cs3 →
  ∃ s2, only_caches_filled s s2
        ∧ Pawn_move self to s
          = (Ok (),
             mkState (mkTable (tbl_rows (st_table s))
                              (tbl_columns (st_table s)) cs3 None)
                     (alter (set_pl_figures None) o (st_players s))
                     (alter (set_fig_first_move false) self
                        (alter (set_fig_available_moves None) self
                           (alter (set_fig_position None) self
                                  (st_figures s2))))).
Proof.
  intros He Hto Hp Ho H1 H2 H3.
  destruct (Figure_move_ok s self to m p o cs1 cs2 He Hto Hp Ho H1 H2)
    as (s2 & O2 & Hrun).
  exists s2. split; [done|].
  unfold Pawn_move. unfold bind at 1. rewrite Hrun.
  unfold Table_set_figure. unfold_m. by rewrite H3.
Qed.

(** ** Lemmas: writing a cell *)

Lemma store_cell_in_grid rows columns cs p x :
  grid rows columns cs → 0 ≤ p.1 < rows → 0 ≤ p.2 < columns →
  ∃ cs', store_cell cs p x = Ok cs'
         ∧ grid rows columns cs'
         ∧ ∀ q, occ cs' q = if decide (q = p) then x else occ cs q.
Proof.
  intros [Hrows Hcols] Hr Hc. destruct p as [r c]; simpl in *.
  unfold store_cell; simpl.
  rewrite (py_index_wrap (Z.of_nat (length cs)) r) by lia.
  unfold py_wrap. replace (0 <=? r) with true by (symmetry; apply Z.leb_le; lia).
  destruct (lookup_lt_is_Some_2 cs (Z.to_nat r)) as [row Hrow]; [lia|].
  rewrite Hrow.
  assert (Z.of_nat (length row) = columns) as Hlen.
  { rewrite Forall_forall in Hcols. apply Hcols.
    by eapply list_elem_of_lookup_2. }
  rewrite (py_index_wrap (Z.of_nat (length row)) c) by lia.
  unfold py_wrap. replace (0 <=? c) with true by (symmetry; apply Z.leb_le; lia).
  eexists. split; [done|]. split; [split|].
  - by rewrite length_insert.
  - apply Forall_insert; [done|]. by rewrite length_insert.
  - intros [qr qc]. unfold occ; simpl. case_decide as Hq.
    + injection Hq as -> ->. rewrite bool_decide_true by lia.
      unfold cell. rewrite list_lookup_insert_eq by lia.
      by rewrite list_lookup_insert_eq by lia.
    + case_bool_decide as Hnn; [|done]. unfold cell.
      destruct (decide (Z.to_nat qr = Z.to_nat r)) as [Hrr|Hrr].
      * rewrite Hrr, list_lookup_insert_eq, Hrow by lia.
        rewrite list_lookup_insert_ne; [done|].
        intros Hcc. apply Hq. f_equal; lia.
      * by rewrite list_lookup_insert_ne.
Qed.

Lemma occ_in_grid rows columns cs q g :
  grid rows columns cs → occ cs q = Some g →
  0 ≤ q.1 < rows ∧ 0 ≤ q.2 < columns.
Proof.
  intros [Hrows Hcols]. unfold occ. case_bool_decide as Hnn; [|done].
  intros (row & Hr & Hc)%cell_Some.
  apply lookup_lt_Some in Hr as Hr', Hc as Hc'.
  rewrite Forall_forall in Hcols.
  pose proof (Hcols row (list_elem_of_lookup_2 _ _ _ Hr)). lia.
Qed.

(** A board with a single figure whose caches are empty is consistent. *)
Lemma consistent_alone s self p fg :
  alone_on_board s self p →
  tbl_figures (st_table s) = None →
  st_figures s !! self = Some fg → fig_position fg = None →
  consistent s.
Proof.
  intros Halone Htbl Hs Hpos.
  assert (occupant s p = Some self) as Hp.
  { rewrite Halone. by rewrite decide_True. }
  assert (∀ q g, occupant s q = Some g → g = self ∧ q = p) as Honly.
  { intros q g. rewrite Halone. case_decide; [|done]. by intros [= <-]. }
  assert (figs_view s = scan (tbl_cells (st_table s))) as Hfv.
  { unfold figs_view. by rewrite Htbl. }
  assert (pos_view s self = Ok p) as Hpv.
  { unfold pos_view, fig_view, pos_of. rewrite Hs. simpl. rewrite Hpos.
    destruct (locate self (tbl_cells (st_table s)) 0) as [p'|] eqn:Hl.
    - apply locate_Some in Hl as (r & c & -> & Hc). simpl in Hc.
      destruct (Honly (Z.of_nat r, Z.of_nat c) self) as [_ Heq];
        [apply occupant_Some; eauto|].
      by rewrite <- Heq.
    - apply occupant_Some in Hp as (r & c & _ & Hc).
      by apply (locate_None _ _ _ r c) in Hl. }
  assert (∀ g, g ∈ figs_view s → g = self) as Hin.
  { intros g. rewrite Hfv, elem_of_scan. intros (r & c & Hc).
    apply (Honly (Z.of_nat r, Z.of_nat c)), occupant_Some. eauto. }
  constructor.
  - intros q g. split.
    + intros Hq. destruct (Honly _ _ Hq) as [-> ->]. split; [|done].
      rewrite Hfv. apply elem_of_scan.
      apply occupant_Some in Hp as (r & c & _ & Hc). eauto.
    + intros [Hg Hq]. apply Hin in Hg as ->. rewrite Hpv in Hq.
      by injection Hq as <-.
  - intros g Hg. apply Hin in Hg as ->. eauto.
Qed.

(** ** Lemmas: the legal-move cache is answered again *)

Lemma post_bind {A B} (m : M A) (k : A → M B) Q :
  (∀ a, post (k a) Q) → post (bind m k) Q.
Proof.
  intros Hk s b. rewrite eval_bind, exec_bind.
  destruct (eval m s) as [a|e]; [|done]. apply Hk.
Qed.

Lemma post_cached_moves self : post (cached_moves self) (is_cached self).
Proof.
  intros s m. unfold cached_moves, is_cached.
  rewrite eval_bind, exec_bind, eval_read_figure, exec_read_figure.
  destruct (st_figures s !! self) as [fg|] eqn:Hs; [|done].
  destruct (fig_available_moves fg) as [m'|] eqn:Hm; [|done].
  intros [= <-]. by exists fg.
Qed.

Ltac post_step :=
  match goal with
  | |- post (cached_moves _) _ => apply post_cached_moves
  | |- post (bind _ _) _ => apply post_bind; intros ?
  | |- post (match ?x with _ => _ end) _ => destruct x
  | |- post (let '(_, _) := ?x in _) _ => destruct x
  end.

(** When [available_moves] returns, the set it returns is the cached one. *)
Lemma available_moves_as_caches k self s m :
  eval (available_moves_as k self) s = Ok m →
  is_cached self m (exec (available_moves_as k self) s).
Proof.
  destruct (st_figures s !! self) as [fg|] eqn:Hs.
  - destruct (fig_available_moves fg) as [m'|] eqn:Hm.
    + unfold eval, exec.
      rewrite (available_moves_as_cached _ _ _ _ _ Hs Hm). simpl.
      intros [= <-]. by exists fg.
    + destruct k; simpl;
        unfold Pawn_available_moves, Rook_available_moves,
          Bishop_available_moves, Queen_available_moves,
          Knight_available_moves, King_available_moves;
        try (by apply post_bind; intros; apply post_cached_moves);
        rewrite eval_bind, exec_bind, eval_read_figure, exec_read_figure,
          Hs, Hm;
        intros He; refine ((_ : post _ (is_cached self)) s m He);
        clear; repeat post_step.
  - destruct k; simpl;
      unfold Pawn_available_moves, Rook_available_moves,
        Bishop_available_moves, Queen_available_moves,
        Knight_available_moves, King_available_moves, Knight_validate_moves;
      rewrite !eval_bind, eval_read_figure, Hs; done.
Qed.

Lemma available_moves_caches self s m :
  eval (available_moves self) s = Ok m →
  is_cached self m (exec (available_moves self) s).
Proof.
  unfold available_moves.
  rewrite eval_bind, exec_bind, eval_read_figure, exec_read_figure.
  destruct (st_figures s !! self) as [fg|]; [|done].
  apply available_moves_as_caches.
Qed.

(** A cached legal-move set is answered without a change of state. *)
Lemma available_moves_cached self s m :
  is_cached self m s → available_moves self s = (Ok m, s).
Proof.
  intros (fg & Hs & Hm). unfold available_moves.
  rewrite bind_run, eval_read_figure, exec_read_figure, Hs.
  by eapply available_moves_as_cached.
Qed.

Lemma available_moves_again self s m n :
  eval (available_moves self) s = Ok m →
  eval (available_moves self)
       (Nat.iter n (exec (available_moves self))
                 (exec (available_moves self) s)) = Ok m.
Proof.
  intros He. apply available_moves_caches in He.
  assert (Nat.iter n (exec (available_moves self))
                   (exec (available_moves self) s)
          = exec (available_moves self) s) as ->.
  { induction n as [|n IH]; [done|]. simpl. rewrite IH.
    unfold exec at 1. by rewrite (available_moves_cached _ _ _ He). }
  unfold eval. by rewrite (available_moves_cached _ _ _ He).
Qed.

(** ** Lemmas: the pawn flag is never set again *)

Lemma keeps_flag_bind {A B} self (m : M A) (k : A → M B) :
  keeps_flag self m → (∀ a, keeps_flag self (k a)) →
  keeps_flag self (bind m k).
Proof.
  intros Hm Hk s Hs. rewrite exec_bind.
  destruct (eval m s); [apply Hk|]; by apply Hm.
Qed.

Lemma keeps_flag_view {A} self (m : M A) :
  (∀ s, view_eq s (exec m s)) → keeps_flag self m.
Proof.
  intros Hv s Hs. unfold first_move_view in *.
  by rewrite <- (ve_fig _ _ (Hv s) self).
Qed.

Lemma keeps_flag_query {A} self (m : M A) : is_query m → keeps_flag self m.
Proof. intros Hq. apply keeps_flag_view. intros s. apply (q_fill _ Hq). Qed.

Lemma keeps_flag_available_moves self g : keeps_flag self (available_moves g).
Proof.
  apply keeps_flag_view. intros s.
  apply (ocf_view _ _ (ocf_available_moves g s)).
Qed.

Lemma first_move_view_eq s g :
  first_move_view s g = match st_figures s !! g with
                        | Some fg => Ok (fig_first_move fg)
                        | None => Raise NoSuchObject
                        end.
Proof.
  unfold first_move_view, fig_view. by destruct (st_figures s !! g).
Qed.

Lemma keeps_flag_figures {A} self (m : M A) :
  (∀ s, st_figures (exec m s) = st_figures s) → keeps_flag self m.
Proof. intros Hf s Hs. rewrite first_move_view_eq in *. by rewrite Hf. Qed.

Lemma keeps_flag_update self g u :
  (∀ fg, fig_first_move fg = false → fig_first_move (u fg) = false) →
  keeps_flag self (update_figure g u).
Proof.
  intros Hu s. rewrite !first_move_view_eq. unfold update_figure. unfold_m.
  rewrite lookup_alter. case_decide as Hd; [subst g|done].
  destruct (st_figures s !! self) as [fg|]; [simpl|done].
  intros [= Hf]. by rewrite Hu.
Qed.

Lemma keeps_flag_Table_set_figure self c p :
  keeps_flag self (Table_set_figure c p).
Proof.
  apply keeps_flag_figures. intros s. unfold Table_set_figure. unfold_m.
  by destruct (store_cell _ p c).
Qed.

Ltac keeps_flag_step :=
  match goal with
  | |- keeps_flag _ (bind _ _) => apply keeps_flag_bind; [|intros ?]
  | |- keeps_flag _ (available_moves _) => apply keeps_flag_available_moves
  | |- keeps_flag _ (Table_set_figure _ _) => apply keeps_flag_Table_set_figure
  | |- keeps_flag _ (update_figure _ _) => apply keeps_flag_update; done
  | |- keeps_flag _ (if ?b then _ else _) => destruct b
  | |- keeps_flag _ (match ?x with _ => _ end) => destruct x
  | |- keeps_flag _ (filter_m _ _) =>
      apply keeps_flag_query, is_query_filter_m; solve [query]
  | |- keeps_flag _ _ => apply keeps_flag_query; solve [query]
  | |- keeps_flag _ _ => apply keeps_flag_figures; done
  end.

Lemma keeps_flag_Figure_move self g to : keeps_flag self (Figure_move g to).
Proof.
  unfold Figure_move, Figure_move_validity, Figure_reset, Player_reset,
    Table_reset.
  repeat keeps_flag_step.
Qed.

Lemma keeps_flag_move self g to : keeps_flag self (move g to).
Proof.
  unfold move, Pawn_move.
  apply keeps_flag_bind;
    [apply keeps_flag_figures; intros s; by rewrite exec_read_figure|].
  intros fg. destruct (fig_kind fg); try apply keeps_flag_Figure_move.
  repeat first [apply keeps_flag_Figure_move | keeps_flag_step].
Qed.

Lemma keeps_flag_Player_move self p from to :
  keeps_flag self (Player_move p from to).
Proof.
  unfold Player_move, Player_figures.
  repeat first [apply keeps_flag_move | keeps_flag_step].
Qed.

Lemma play_keeps_flag self ops s :
  first_move_view s self = Ok false →
  first_move_view (play ops s) self = Ok false.
Proof.
  revert s. induction ops as [|[[p from] to] ops IH]; intros s Hs; [done|].
  simpl. apply IH. by apply keeps_flag_Player_move.
Qed.

(** ** Lemmas: a pawn alone on the board *)

Lemma owner_view_eq s g :
  owner_view s g = match st_figures s !! g with
                   | Some fg => Ok (fig_player fg)
                   | None => Raise NoSuchObject
                   end.
Proof. unfold owner_view, fig_view. by destruct (st_figures s !! g). Qed.

Lemma alone_occupant s self p : alone_on_board s self p → occupant s p = Some self.
Proof. intros H. rewrite H. by rewrite decide_True. Qed.

Lemma alone_only s self p q g :
  alone_on_board s self p → occupant s q = Some g → g = self ∧ q = p.
Proof. intros H. rewrite H. case_decide; [|done]. by intros [= <-]. Qed.

(** The legal-move set of a pawn that stands alone on the board, one and
    two rows ahead being on the board: the square ahead, and the second
    square ahead while the flag is set. *)
Lemma lone_pawn_moves s self fg r c pl :
  consistent s → rectangular s →
  st_figures s !! self = Some fg → fig_kind fg = Pawn →
  fig_available_moves fg = None →
  st_players s !! fig_player fg = Some pl →
  alone_on_board s self (r, c) →
  0 ≤ r + forward pl < tbl_rows (st_table s) →
  (fig_first_move fg = true →
   0 ≤ r + 2 * forward pl < tbl_rows (st_table s)) →
  eval (available_moves self) s
  = Ok (if fig_first_move fg
        then {[ (r + forward pl, c); (r + 2 * forward pl, c) ]}
        else {[ (r + forward pl, c) ]}).
Proof.
  intros Hc Hrect Hs Hk Hm Hpl Halone Hr1 Hr2.
  pose proof (alone_occupant _ _ _ Halone) as Hocc.
  pose proof (occupant_in_grid _ _ _ Hrect Hocc) as [Hr0 Hc0]. simpl in *.
  assert (owner_view s self = Ok (fig_player fg)) as Hsp
    by (by rewrite owner_view_eq, Hs).
  destruct (Pawn_moves_spec s self fg r c (fig_player fg) pl Hc Hrect Hs Hk Hm
              Hocc Hsp Hpl) as (m & He & Hspec).
  rewrite He. f_equal. apply set_eq. intros q. rewrite Hspec. clear Hspec He.
  fold (forward pl).
  assert (forward pl = -1 ∨ forward pl = 1) as Hd
    by (unfold forward; destruct (pl_goes_up pl); auto).
  assert (∀ q, q = (r + forward pl, c) ∨ q = (r + 2 * forward pl, c) →
               occupant s q = None) as Hfree.
  { intros q' Hq'. rewrite Halone. rewrite decide_False; [done|].
    destruct Hq' as [-> | ->]; intros [=]; lia. }
  assert (fig_first_move fg = true ∧ q = (r + 2 * forward pl, c)
          ↔ q ∈ (if fig_first_move fg
                 then ({[ (r + 2 * forward pl, c) ]} : gset pos) else ∅))
    as Hsecond.
  { destruct (fig_first_move fg).
    - rewrite elem_of_singleton. tauto.
    - rewrite elem_of_empty. split; [by intros [? _] | done]. }
  transitivity (q = (r + forward pl, c)
                ∨ q ∈ (if fig_first_move fg
                       then ({[ (r + 2 * forward pl, c) ]} : gset pos)
                       else ∅)).
  - rewrite <- Hsecond. split.
    + intros [_ [[Hq _]|[_ (g & Hg & Hne)]]]; [done|].
      destruct (alone_only _ _ _ _ _ Halone Hg) as [-> _]. done.
    + intros Hq. split.
      * destruct Hq as [->|[Hf ->]]; simpl; [lia|]. specialize (Hr2 Hf). lia.
      * left. split; [done|]. apply Hfree. tauto.
  - destruct (fig_first_move fg).
    + by rewrite elem_of_union, !elem_of_singleton.
    + rewrite elem_of_singleton, elem_of_empty. tauto.
Qed.

(** The state after a legal move of a pawn that stands alone on the board:
    the pawn stands alone on the destination, its caches are empty and its
    flag is cleared. *)
Lemma lone_pawn_step (s : State) (self : fid) (fg : Figure) (p : pos)
    (pl : Player) (m : gset pos) (to : pos) :
  consistent s → rectangular s →
  st_figures s !! self = Some fg → fig_kind fg = Pawn →
  st_players s !! fig_player fg = Some pl →
  alone_on_board s self p →
  eval (available_moves self) s = Ok m → to ∈ m →
  0 ≤ to.1 < tbl_rows (st_table s) → 0 ≤ to.2 < tbl_columns (st_table s) →
  eval (move self to) s = Ok ()
  ∧ consistent (exec (move self to) s)
  ∧ rectangular (exec (move self to) s)
  ∧ alone_on_board (exec (move self to) s) self to
  ∧ tbl_rows (st_table (exec (move self to) s)) = tbl_rows (st_table s)
  ∧ ∃ fg' pl',
      st_figures (exec (move self to) s) !! self = Some fg'
      ∧ fig_kind fg' = Pawn ∧ fig_player fg' = fig_player fg
      ∧ fig_available_moves fg' = None ∧ fig_first_move fg' = false
      ∧ st_players (exec (move self to) s) !! fig_player fg = Some pl'
      ∧ forward pl' = forward pl.
Proof.
  intros Hc Hrect Hs Hk Hpl Halone He Hto Hr Hcol.
  pose proof (alone_occupant _ _ _ Halone) as Hocc.
  pose proof (occupant_in_grid _ _ _ Hrect Hocc) as [Hr0 Hc0].
  pose proof (consistent_pos _ _ _ Hc Hocc) as Hpos.
  assert (owner_view s self = Ok (fig_player fg)) as Hsp
    by (by rewrite owner_view_eq, Hs).
  destruct (store_cell_in_grid _ _ _ p None Hrect Hr0 Hc0)
    as (cs1 & H1 & G1 & O1).
  destruct (store_cell_in_grid _ _ _ to (Some self) G1 Hr Hcol)
    as (cs2 & H2 & G2 & O2).
  destruct (store_cell_in_grid _ _ _ to (Some self) G2 Hr Hcol)
    as (cs3 & H3 & G3 & O3).
  destruct (Pawn_move_ok s self to m p (fig_player fg) cs1 cs2 cs3
              He Hto Hpos Hsp H1 H2 H3) as (s2 & Hocf & Hrun).
  assert (move self to s = Pawn_move self to s) as Hmove.
  { unfold move. by rewrite bind_run, eval_read_figure, exec_read_figure,
      Hs, Hk. }
  destruct (owner_view_lookup s2 self (fig_player fg)) as (fg2 & Hs2 & Hp2).
  { by rewrite (ocf_owner _ _ _ Hocf). }
  assert (fig_kind fg2 = Pawn) as Hk2.
  { pose proof (ve_fig _ _ (ocf_view _ _ Hocf) self) as Hv.
    unfold fig_view in Hv. rewrite Hs, Hs2 in Hv. simpl in Hv.
    injection Hv as Hv _ _ _. congruence. }
  unfold eval, exec. rewrite Hmove, Hrun. simpl.
  set (s' := mkState _ _ _).
  assert (alone_on_board s' self to) as Halone'.
  { intros q. unfold occupant. simpl. rewrite O3, O2, O1.
    repeat case_decide; try done.
    change (occupant s q = None). rewrite Halone. by rewrite decide_False. }
  assert (st_figures s' !! self
          = Some (set_fig_first_move false
                    (set_fig_available_moves None
                       (set_fig_position None fg2)))) as Hs'.
  { simpl. by rewrite !lookup_alter_eq, Hs2. }
  split; [done|]. split; [|split; [done|split; [done|split; [done|]]]].
  - by eapply consistent_alone.
  - eexists _, (set_pl_figures None pl). split; [done|]. simpl.
    split; [done|]. split; [done|]. split; [done|]. split; [done|].
    by rewrite lookup_alter_eq, Hpl.
Qed.

Lemma aloneb_sound s self p : aloneb s self p = true → alone_on_board s self p.
Proof.
  unfold aloneb. intros [Hscan Hp]%andb_prop.
  apply bool_decide_eq_true in Hscan, Hp. intros q.
  case_decide as Hq; [by subst q|].
  destruct (occupant s q) as [g|] eqn:Hg; [|done]. exfalso. apply Hq.
  apply occupant_Some in Hg as (r & c & -> & Hc).
  apply occupant_Some in Hp as (r' & c' & -> & Hc').
  assert (g = self) as ->.
  { assert (g ∈ scan (tbl_cells (st_table s))) as Hin
      by (apply elem_of_scan; eauto).
    rewrite Hscan in Hin. by apply list_elem_of_singleton in Hin. }
  destruct (cell_inj _ _ _ _ _ _ (eq_ind_r NoDup (NoDup_singleton self) Hscan)
              Hc Hc') as [-> ->]. done.
Qed.

(** ** Lemmas: which exceptions a move can raise *)

Lemma never_bind {A B} e (m : M A) (k : A → M B) :
  never e m → (∀ a, never e (k a)) → never e (bind m k).
Proof.
  intros Hm Hk s. rewrite eval_bind. pose proof (Hm s) as Hs.
  destruct (eval m s) as [a|e']; [apply Hk | intros [= ->]; by apply Hs].
Qed.

Lemma never_ret {A} e (a : A) : never e (ret a).
Proof. by intros s. Qed.

Lemma never_raise {A} e e' : e' ≠ e → never e (@raise A e').
Proof. intros Hne s [=]. done. Qed.

Lemma never_gets {A} e (f : State → A) : never e (gets f).
Proof. by intros s. Qed.

Lemma never_modify e f : never e (modify f).
Proof. by intros s. Qed.

Lemma never_read_figure e g : e ≠ NoSuchObject → never e (read_figure g).
Proof.
  intros Hne s. rewrite eval_read_figure.
  destruct (st_figures s !! g); [done|]. by intros [= <-].
Qed.

Lemma never_read_player e p : e ≠ NoSuchObject → never e (read_player p).
Proof.
  intros Hne s. unfold eval, read_player.
  destruct (st_players s !! p); [done|]. by intros [= <-].
Qed.

Lemma getitem_raise {A} (l : list A) i e :
  getitem l i = Raise e → e = IndexError.
Proof. unfold getitem. repeat case_match; congruence. Qed.

Lemma cell_at_raise cs p e : cell_at cs p = Raise e → e = IndexError.
Proof.
  unfold cell_at. destruct (getitem cs p.1) eqn:H1.
  - apply getitem_raise.
  - intros [= <-]. by eapply getitem_raise.
Qed.

Lemma store_cell_raise cs p c e : store_cell cs p c = Raise e → e = IndexError.
Proof. unfold store_cell. repeat case_match; congruence. Qed.

Lemma never_of_result {A} e (r : Result A) : r ≠ Raise e → never e (of_result r).
Proof. by intros Hne s. Qed.

Lemma never_Figure_position e g :
  e ≠ NoSuchObject → e ≠ MissingFigure → never e (Figure_position g).
Proof.
  intros H1 H2 s. rewrite eval_Figure_position.
  unfold pos_view, fig_view, pos_of.
  destruct (st_figures s !! g) as [fg|]; simpl; [|congruence].
  destruct (fig_position fg); [done|].
  destruct (locate g _ 0); [done | congruence].
Qed.

Lemma never_for_each {A} e (l : list A) body :
  (∀ x, never e (body x)) → never e (for_each l body).
Proof.
  intros Hb. induction l; simpl; [apply never_ret | by apply never_bind].
Qed.

Lemma never_map_m {A B} e (f : A → M B) l :
  (∀ x, never e (f x)) → never e (map_m f l).
Proof.
  intros Hf. induction l; simpl; [apply never_ret|].
  repeat (apply never_bind; [done|intros ?]). apply never_ret.
Qed.

Lemma never_filter_m {A} e (f : A → M bool) l :
  (∀ x, never e (f x)) → never e (filter_m f l).
Proof.
  intros Hf. induction l; simpl; [apply never_ret|].
  repeat (apply never_bind; [done|intros ?]). apply never_ret.
Qed.

Ltac never_step :=
  match goal with
  | |- never _ (bind _ _) => apply never_bind; [|intros ?]
  | |- never _ (ret _) => apply never_ret
  | |- never _ (raise _) => apply never_raise; discriminate
  | |- never _ (gets _) => apply never_gets
  | |- never _ (modify _) => apply never_modify
  | |- never _ (update_figure _ _) => apply never_modify
  | |- never _ (update_player _ _) => apply never_modify
  | |- never _ (update_table _) => apply never_modify
  | |- never _ (set_moves _ _) => apply never_modify
  | |- never _ (moves_update _ _) => apply never_modify
  | |- never _ (read_figure _) => apply never_read_figure; discriminate
  | |- never _ (read_player _) => apply never_read_player; discriminate
  | |- never _ (Figure_position _) =>
      apply never_Figure_position; discriminate
  | |- never _ (of_result (cell_at _ _)) =>
      apply never_of_result; intros ?%cell_at_raise; discriminate
  | |- never _ (of_result (store_cell _ _ _)) =>
      apply never_of_result; intros ?%store_cell_raise; discriminate
  | |- never _ (of_result (getitem _ _)) =>
      apply never_of_result; intros ?%getitem_raise; discriminate
  | |- never _ (for_each _ _) => apply never_for_each; intros ?
  | |- never _ (map_m _ _) => apply never_map_m; intros ?
  | |- never _ (filter_m _ _) => apply never_filter_m; intros ?
  | |- never _ (match ?x with _ => _ end) => destruct x
  | |- never _ (let '(_, _) := ?x in _) => destruct x
  end.

Ltac never_unfold :=
  unfold Table_get_figure, Table_set_figure, Table_figures, Table_reset,
    Table_get_figure_position, Figure_player, Figure_first_move,
    Figure_reset, Player_reset, Player_figures, cached_moves, pawn_takes,
    leaper_free.
Ltac never_solve := repeat first [never_step | progress never_unfold].

Lemma never_cut_before e f t p :
  e ≠ NoSuchObject → e ≠ MissingFigure → never e (cut_before f t p).
Proof.
  intros H1 H2. revert f. induction t as [|i t IH]; intros f; simpl.
  - apply never_ret.
  - apply never_bind; [by apply never_Figure_position|intros ?].
    destruct (list_index _ f); [|apply IH].
    apply never_bind; [|intros ?; apply IH].
    unfold Figure_player. apply never_bind; [by apply never_read_figure|].
    intros ?. apply never_ret.
Qed.

Lemma never_cut_after e f t p :
  e ≠ NoSuchObject → e ≠ MissingFigure → never e (cut_after f t p).
Proof.
  intros H1 H2. revert f. induction t as [|i t IH]; intros f; simpl.
  - apply never_ret.
  - apply never_bind; [by apply never_Figure_position|intros ?].
    destruct (list_index _ f); [|apply IH].
    apply never_bind; [|intros ?; apply IH].
    unfold Figure_player. apply never_bind; [by apply never_read_figure|].
    intros ?. apply never_ret.
Qed.

Lemma never_remove_positions e l t :
  e ≠ NoSuchObject → e ≠ MissingFigure → never e (remove_positions l t).
Proof.
  intros H1 H2. revert l. induction t as [|i t IH]; intros l; simpl.
  - apply never_ret.
  - apply never_bind; [by apply never_Figure_position|intros ?]. apply IH.
Qed.

(** No legal-move computation raises AccessError. *)
Lemma never_access_available_moves self :
  never AccessError (available_moves self).
Proof.
  unfold available_moves. apply never_bind; [never_solve|]. intros fg.
  destruct (fig_kind fg); simpl;
    unfold Pawn_available_moves, Rook_available_moves,
      Bishop_available_moves, Queen_available_moves, Knight_available_moves,
      King_available_moves, Knight_validate_moves, Rook_straight_moves,
      Bishop_oblique_moves;
    never_unfold;
    repeat first
      [ apply never_cut_before; discriminate
      | apply never_cut_after; discriminate
      | apply never_remove_positions; discriminate
      | never_step
      | progress never_unfold ].
Qed.

Lemma never_access_Figure_move self to : never AccessError (Figure_move self to).
Proof.
  unfold Figure_move, Figure_move_validity. never_unfold.
  repeat first
    [ apply never_access_available_moves
    | never_step
    | progress never_unfold
    | match goal with |- never _ (if ?b then _ else _) => destruct b end ].
Qed.

Lemma never_access_move self to : never AccessError (move self to).
Proof.
  unfold move, Pawn_move. never_unfold.
  repeat first
    [ apply never_access_Figure_move | never_step | progress never_unfold ].
Qed.

(** ** Lemmas: MissingFigure is raised by position lookups only *)

Lemma quiet_never {A} s (m : M A) : never MissingFigure m → quiet s m.
Proof. intros Hm s1 _. apply Hm. Qed.

Lemma quiet_bind_query {A B} s (q : M A) (k : A → M B) :
  is_query q → quiet s q → (∀ a, eval q s = Ok a → quiet s (k a)) →
  quiet s (bind q k).
Proof.
  intros Hq Hqq Hk s1 V1. rewrite eval_bind.
  pose proof (Hqq s1 V1) as Hne.
  destruct (eval q s1) as [a|e] eqn:He; [|by intros [= ->]].
  apply Hk.
  - by rewrite (q_cong _ Hq _ _ V1).
  - eapply view_eq_trans; [apply V1 | apply (q_fill _ Hq)].
Qed.

Lemma quiet_bind_view {A B} s (m : M A) (k : A → M B) :
  (∀ s1, view_eq s1 (exec m s1)) → never MissingFigure m →
  (∀ a, quiet s (k a)) → quiet s (bind m k).
Proof.
  intros Hv Hm Hk s1 V1. rewrite eval_bind.
  pose proof (Hm s1) as Hne.
  destruct (eval m s1) as [a|e]; [|by intros [= ->]].
  apply Hk. eapply view_eq_trans; [apply V1 | apply Hv].
Qed.

Lemma quiet_Figure_position s g :
  pos_view s g ≠ Raise MissingFigure → quiet s (Figure_position g).
Proof.
  intros Hg s1 V1. rewrite eval_Figure_position. unfold pos_view in *.
  by rewrite <- (ve_fig _ _ V1 g).
Qed.

Lemma never_missing_Figure_player g : never MissingFigure (Figure_player g).
Proof. never_solve. Qed.

Lemma quiet_cut_before s f t p :
  (∀ g, g ∈ t → pos_view s g ≠ Raise MissingFigure) →
  quiet s (cut_before f t p).
Proof.
  revert f. induction t as [|i t IH]; intros f Ht; simpl.
  - apply quiet_never, never_ret.
  - assert (∀ f, quiet s (cut_before f t p)) as IH'.
    { intros f'. apply IH. intros g Hg. apply Ht. by right. }
    apply quiet_bind_query; [query | apply quiet_Figure_position, Ht; by left|].
    intros ipos _. destruct (list_index ipos f); [|apply IH'].
    apply quiet_bind_query;
      [query | apply quiet_never, never_missing_Figure_player|].
    intros q _. apply IH'.
Qed.

Lemma quiet_cut_after s f t p :
  (∀ g, g ∈ t → pos_view s g ≠ Raise MissingFigure) →
  quiet s (cut_after f t p).
Proof.
  revert f. induction t as [|i t IH]; intros f Ht; simpl.
  - apply quiet_never, never_ret.
  - assert (∀ f, quiet s (cut_after f t p)) as IH'.
    { intros f'. apply IH. intros g Hg. apply Ht. by right. }
    apply quiet_bind_query; [query | apply quiet_Figure_position, Ht; by left|].
    intros ipos _. destruct (list_index ipos f); [|apply IH'].
    apply quiet_bind_query;
      [query | apply quiet_never, never_missing_Figure_player|].
    intros q _. apply IH'.
Qed.

Lemma quiet_remove_positions s l t :
  (∀ g, g ∈ t → pos_view s g ≠ Raise MissingFigure) →
  quiet s (remove_positions l t).
Proof.
  revert l. induction t as [|i t IH]; intros l Ht; simpl.
  - apply quiet_never, never_ret.
  - apply quiet_bind_query; [query | apply quiet_Figure_position, Ht; by left|].
    intros ipos _. apply IH. intros g Hg. apply Ht. by right.
Qed.

Lemma quiet_map_m_positions s t :
  (∀ g, g ∈ t → pos_view s g ≠ Raise MissingFigure) →
  quiet s (map_m Figure_position t).
Proof.
  induction t as [|i t IH]; intros Ht; simpl.
  - apply quiet_never, never_ret.
  - apply quiet_bind_query; [query | apply quiet_Figure_position, Ht; by left|].
    intros ipos _.
    apply quiet_bind_query; [query | apply IH; intros g Hg; apply Ht; by right|].
    intros ps _. apply quiet_never, never_ret.
Qed.

Lemma resolved_quiet s g :
  resolved s → g ∈ figs_view s → pos_view s g ≠ Raise MissingFigure.
Proof. intros Hr Hg. destruct (Hr g Hg) as [q ->]. done. Qed.

(** One step of a legal-move computation that cannot raise MissingFigure
    where every listed figure and the mover have a position. *)
Ltac quiet_step Hres Hself :=
  match goal with
  | |- quiet _ (bind (Figure_position _) _) =>
      apply quiet_bind_query;
        [query | by apply quiet_Figure_position | intros ? _]
  | |- quiet _ (bind Table_figures _) =>
      apply quiet_bind_query;
        [query | apply quiet_never; never_solve
        | let a := fresh "figs" in
          let Ha := fresh "Hfigs" in
          intros a Ha; rewrite eval_Table_figures in Ha;
          injection Ha as <-]
  | |- quiet _ (bind (cut_before _ _ _) _) =>
      apply quiet_bind_query;
        [query | apply quiet_cut_before; intros; by apply resolved_quiet
        | intros ? _]
  | |- quiet _ (bind (cut_after _ _ _) _) =>
      apply quiet_bind_query;
        [query | apply quiet_cut_after; intros; by apply resolved_quiet
        | intros ? _]
  | |- quiet _ (bind (remove_positions _ _) _) =>
      apply quiet_bind_query;
        [query | apply quiet_remove_positions; intros; by apply resolved_quiet
        | intros ? _]
  | |- quiet _ (bind (map_m Figure_position _) _) =>
      apply quiet_bind_query;
        [query | apply quiet_map_m_positions; intros; by apply resolved_quiet
        | intros ? _]
  | |- quiet _ (bind (set_moves _ _) _) =>
      apply quiet_bind_view;
        [intros ?; apply view_eq_set_moves | never_solve | intros ?]
  | |- quiet _ (bind _ _) =>
      apply quiet_bind_query;
        [solve [query] | apply quiet_never; solve [never_solve] | intros ? _]
  | |- quiet _ (let '(_, _) := ?x in _) => destruct x
  | |- quiet _ _ => apply quiet_never; solve [never_solve]
  end.

Lemma quiet_Rook_straight_moves s self :
  resolved s → pos_view s self ≠ Raise MissingFigure →
  quiet s (Rook_straight_moves self).
Proof.
  intros Hres Hself. unfold Rook_straight_moves.
  repeat quiet_step Hres Hself.
Qed.

Lemma quiet_Bishop_oblique_moves s self :
  resolved s → pos_view s self ≠ Raise MissingFigure →
  quiet s (Bishop_oblique_moves self).
Proof.
  intros Hres Hself. unfold Bishop_oblique_moves.
  repeat quiet_step Hres Hself.
Qed.

Lemma quiet_bind_frame {A B} s (m : M A) (k : A → M B) :
  (∀ s1, view_eq s1 (exec m s1)) → quiet s m →
  (∀ a, quiet s (k a)) → quiet s (bind m k).
Proof.
  intros Hv Hm Hk s1 V1. rewrite eval_bind.
  pose proof (Hm s1 V1) as Hne.
  destruct (eval m s1) as [a|e]; [|by intros [= ->]].
  apply Hk. eapply view_eq_trans; [apply V1 | apply Hv].
Qed.

Lemma view_eq_read_figure g s : view_eq s (exec (read_figure g) s).
Proof. rewrite exec_read_figure. apply view_eq_refl. Qed.

Lemma quiet_Knight_validate_moves s self offs :
  resolved s → pos_view s self ≠ Raise MissingFigure →
  quiet s (Knight_validate_moves self offs).
Proof.
  intros Hres Hself. unfold Knight_validate_moves.
  apply quiet_bind_view; [apply view_eq_read_figure | never_solve|].
  intros fg. destruct (fig_available_moves fg);
    [apply quiet_never; never_solve|].
  repeat quiet_step Hres Hself.
Qed.

Lemma quiet_available_moves_as s k self :
  resolved s → pos_view s self ≠ Raise MissingFigure →
  quiet s (available_moves_as k self).
Proof.
  intros Hres Hself. destruct k; simpl;
    unfold Pawn_available_moves, Rook_available_moves,
      Bishop_available_moves, Queen_available_moves,
      Knight_available_moves, King_available_moves.
  - apply quiet_bind_view; [apply view_eq_read_figure | never_solve|].
    intros fg. destruct (fig_available_moves fg);
      [apply quiet_never; never_solve|].
    repeat quiet_step Hres Hself.
  - apply quiet_bind_view; [apply view_eq_read_figure | never_solve|].
    intros fg. destruct (fig_available_moves fg);
      [apply quiet_never; never_solve|].
    apply quiet_bind_view;
      [intros ?; apply view_eq_set_moves | never_solve | intros ?].
    apply quiet_bind_query;
      [query | by apply quiet_Rook_straight_moves | intros [[[??]?]?] _].
    apply quiet_never; never_solve.
  - apply quiet_bind_view; [apply view_eq_read_figure | never_solve|].
    intros fg. destruct (fig_available_moves fg);
      [apply quiet_never; never_solve|].
    apply quiet_bind_view;
      [intros ?; apply view_eq_set_moves | never_solve | intros ?].
    apply quiet_bind_query;
      [query | by apply quiet_Bishop_oblique_moves | intros [[[??]?]?] _].
    apply quiet_never; never_solve.
  - apply quiet_bind_view; [apply view_eq_read_figure | never_solve|].
    intros fg. destruct (fig_available_moves fg);
      [apply quiet_never; never_solve|].
    apply quiet_bind_view;
      [intros ?; apply view_eq_set_moves | never_solve | intros ?].
    apply quiet_bind_query;
      [query | by apply quiet_Rook_straight_moves | intros [[[??]?]?] _].
    apply quiet_bind_query;
      [query | by apply quiet_Bishop_oblique_moves | intros [[[??]?]?] _].
    apply quiet_never; never_solve.
  - apply quiet_bind_frame;
      [intros ?; apply is_frame_Knight_validate_moves
      | by apply quiet_Knight_validate_moves
      | intros ?; apply quiet_never; never_solve].
  - apply quiet_bind_frame;
      [intros ?; apply is_frame_Knight_validate_moves
      | by apply quiet_Knight_validate_moves
      | intros ?; apply quiet_never; never_solve].
Qed.

Lemma quiet_available_moves s self :
  resolved s → pos_view s self ≠ Raise MissingFigure →
  quiet s (available_moves self).
Proof.
  intros Hres Hself. unfold available_moves.
  apply quiet_bind_view; [apply view_eq_read_figure | never_solve|].
  intros fg. by apply quiet_available_moves_as.
Qed.

Lemma view_eq_available_moves self s : view_eq s (exec (available_moves self) s).
Proof. apply (ocf_view _ _ (ocf_available_moves self s)). Qed.

Lemma quiet_Figure_move s self to :
  resolved s → pos_view s self ≠ Raise MissingFigure →
  quiet s (Figure_move self to).
Proof.
  intros Hres Hself. unfold Figure_move, Figure_move_validity.
  apply quiet_bind_frame.
  - intros s1. rewrite exec_bind.
    destruct (eval (available_moves self) s1); apply view_eq_available_moves.
  - apply quiet_bind_frame;
      [apply view_eq_available_moves | by apply quiet_available_moves
      | intros ?; apply quiet_never, never_ret].
  - intros ok. destruct (negb ok).
    + apply quiet_bind_query;
        [query | by apply quiet_Figure_position | intros ? _].
      apply quiet_bind_frame;
        [apply view_eq_available_moves | by apply quiet_available_moves
        | intros ?; apply quiet_never; never_solve].
    + apply quiet_bind_query;
        [query | by apply quiet_Figure_position | intros ? _].
      apply quiet_never; never_solve.
Qed.

(** A move request for a figure that has a position, in a state where every
    listed figure has one, does not raise MissingFigure. *)
Lemma move_not_missing s self to :
  resolved s → pos_view s self ≠ Raise MissingFigure →
  eval (move self to) s ≠ Raise MissingFigure.
Proof.
  intros Hres Hself. unfold move, Pawn_move.
  rewrite eval_bind, eval_read_figure, exec_read_figure.
  destruct (st_figures s !! self) as [fg|]; [|done].
  pose proof (quiet_Figure_move s self to Hres Hself s (view_eq_refl s)) as Hq.
  destruct (fig_kind fg); try done.
  rewrite eval_bind.
  destruct (eval (Figure_move self to) s) as [[]|e]; [|by intros [= ->]].
  rewrite eval_bind. simpl.
  intros He. apply eval_Table_set_figure_raise in He. done.
Qed.

(** ** Lemmas: the owner's move request *)

Lemma getitem_Ok {A} (l : list A) i x : getitem l i = Ok x → ∃ k, l !! k = Some x.
Proof.
  unfold getitem. destruct (py_index _ i) as [k|]; [|done].
  destruct (l !! k) as [y|] eqn:Hk; [|done]. intros [= <-]. eauto.
Qed.

Lemma cell_at_on_board cs p f :
  cell_at cs p = Ok (Some f) → ∃ r c, cell cs r c = Some f.
Proof.
  unfold cell_at. destruct (getitem cs p.1) as [row|] eqn:Hr; [|done].
  intros Hc. apply getitem_Ok in Hr as [r Hr], Hc as [c Hc].
  exists r, c. apply cell_Some. eauto.
Qed.

Lemma on_board_pos s f r c :
  cell (tbl_cells (st_table s)) r c = Some f →
  pos_view s f ≠ Raise MissingFigure.
Proof.
  intros Hc. unfold pos_view, fig_view, pos_of.
  destruct (st_figures s !! f) as [fg|]; simpl; [|done].
  destruct (fig_position fg); [done|].
  destruct (locate f _ 0) eqn:Hl; [done|].
  by apply (locate_None _ _ _ r c) in Hl.
Qed.

Lemma resolved_owner s g : resolved s → g ∈ figs_view s → ∃ o, owner_view s g = Ok o.
Proof. intros Hr Hg. destruct (Hr g Hg) as [q Hq]. by eapply pos_view_owner. Qed.

(** The message of MissingFigure is evaluated without an exception. *)
Lemma eval_missing_message s p pl :
  resolved s → st_players s !! p = Some pl → pl_figures pl = None →
  eval (fs <<- Player_figures p ;;
        map_m Figure_position fs ;;;
        @raise () MissingFigure) s = Raise MissingFigure.
Proof.
  intros Hres Hp Hpl.
  destruct (filter_m_spec
              (λ f, q <<- Figure_player f ;; ret (bool_decide (q = p)))
              s (figs_view s)) as (fs & Hfs & Sfs).
  { query. }
  { intros g Hg. destruct (resolved_owner _ _ Hres Hg) as [o Ho].
    rewrite eval_bind_query, eval_Figure_player, Ho by query. eauto. }
  destruct (map_m_positions s fs) as (ps & Hps & _).
  { intros g Hg. apply Hres. by apply Sfs in Hg as [? _]. }
  assert (eval (Player_figures p) s = Ok fs) as HPf.
  { unfold Player_figures.
    rewrite eval_bind_query by (query; by apply is_query_filter_m; query).
    unfold eval at 1, read_player. rewrite Hp. simpl. rewrite Hpl.
    by rewrite eval_bind_query, eval_Table_figures
      by (query; by apply is_query_filter_m; query). }
  assert (is_query (Player_figures p)) as QPf.
  { unfold Player_figures. query. apply is_query_filter_m. query. }
  rewrite eval_bind_query, HPf by query.
  by rewrite eval_bind_query, Hps by query.
Qed.

(** ** Lemmas: the loops of the bishop end by their conditions *)

Lemma ray_while_enough fuel extra cond sq start :
  (∀ n, start + Z.of_nat fuel ≤ n → cond n = false) →
  ray_while (fuel + extra) cond sq start = ray_while fuel cond sq start.
Proof.
  revert start. induction fuel as [|k IH]; intros start Hstop; simpl.
  - destruct extra as [|x]; [done|]. simpl. by rewrite Hstop by lia.
  - destruct (cond start); [|done]. f_equal. apply IH.
    intros n Hn. apply Hstop. lia.
Qed.

(** The iteration bounds of [Bishop_oblique_moves] do not cut a loop
    short: more iterations give the same four rays. *)
Lemma Bishop_rays_complete (r c rows columns : Z) (extra : nat) :
  ray_while (Z.to_nat r + extra)
            (λ n, bool_decide (Z.min (r - n) (c - n) >= 0))
            (λ n, (r - n, c - n)) 1
  = ray_while (Z.to_nat r) (λ n, bool_decide (Z.min (r - n) (c - n) >= 0))
              (λ n, (r - n, c - n)) 1
  ∧ ray_while (Z.to_nat c + extra)
              (λ n, bool_decide (r + n < rows) && bool_decide (c - n >= 0))
              (λ n, (r + n, c - n)) 1
    = ray_while (Z.to_nat c)
                (λ n, bool_decide (r + n < rows) && bool_decide (c - n >= 0))
                (λ n, (r + n, c - n)) 1
  ∧ ray_while (Z.to_nat r + extra)
              (λ n, bool_decide (r - n >= 0) && bool_decide (c + n < columns))
              (λ n, (r - n, c + n)) 1
    = ray_while (Z.to_nat r)
                (λ n, bool_decide (r - n >= 0) && bool_decide (c + n < columns))
                (λ n, (r - n, c + n)) 1
  ∧ ray_while (Z.to_nat (Z.min rows columns - r) + extra)
              (λ n, bool_decide (Z.max (r + n) (c + n) < Z.min rows columns))
              (λ n, (r + n, c + n)) 1
    = ray_while (Z.to_nat (Z.min rows columns - r))
                (λ n, bool_decide (Z.max (r + n) (c + n) < Z.min rows columns))
                (λ n, (r + n, c + n)) 1.
Proof.
  repeat split; apply ray_while_enough; intros n Hn.
  - apply bool_decide_eq_false. lia.
  - apply andb_false_iff. right. apply bool_decide_eq_false. lia.
  - apply andb_false_iff. left. apply bool_decide_eq_false. lia.
  - apply bool_decide_eq_false. lia.
Qed.

(** ** A move that fails after the legality check

    The bounds of [_validate_moves] let a knight or a king aim at row
    [rows]: in the starting position (8, 3) is in the legal-move set of the
    knight of (7, 1); the move empties (7, 1) and then fails with IndexError
    on the write to row 8. *)
Lemma leaper_move_past_last_row :
  eval (available_moves 17%nat) standard_position
  = Ok (list_to_set [(5, 0); (5, 2); (8, 3)])
  ∧ occupant standard_position (7, 1) = Some 17%nat
  ∧ eval (move 17%nat (8, 3)) standard_position = Raise IndexError
  ∧ occupant (exec (move 17%nat (8, 3)) standard_position) (7, 1) = None.
Proof. repeat split; by vm_compute. Qed.

(** ** The pawn's captures on the board

    For the diagonal squares that have no negative coordinate the pawn
    takes exactly where a figure of another player stands, and a square
    straight ahead that holds a figure is never legal.  A diagonal square
    with a negative coordinate is read through [wrapped]. *)
Lemma pawn_captures_on_board s self fg r c sp pl :
  consistent s → rectangular s →
  st_figures s !! self = Some fg → fig_kind fg = Pawn →
  fig_available_moves fg = None →
  occupant s (r, c) = Some self → owner_view s self = Ok sp →
  st_players s !! sp = Some pl →
  ∃ m, eval (available_moves self) s = Ok m
       ∧ (∀ q, q = (r + forward pl, c + 1) ∨ q = (r + forward pl, c - 1) →
               0 ≤ q.1 → 0 ≤ q.2 →
               (q ∈ m ↔ ∃ g, occupant s q = Some g ∧ owner_view s g ≠ Ok sp))
       ∧ (∀ q g, q = (r + forward pl, c) ∨ q = (r + 2 * forward pl, c) →
                 occupant s q = Some g → q ∉ m).
Proof.
  intros Hc Hrect Hs Hk Hm Hocc Hsp Hpl.
  destruct (Pawn_moves_spec s self fg r c sp pl Hc Hrect Hs Hk Hm Hocc Hsp Hpl)
    as (m & He & Hspec).
  fold (forward pl) in Hspec.
  assert (forward pl = -1 ∨ forward pl = 1) as Hd
    by (unfold forward; destruct (pl_goes_up pl); auto).
  exists m. split; [done|]. split.
  - intros q Hq Hq1 Hq2. rewrite Hspec.
    assert (wrapped s q = q) as Hw.
    { unfold wrapped, py_wrap. destruct q as [x y]. simpl in *.
      by rewrite !(proj2 (Z.leb_le 0 _)) by done. }
    rewrite Hw. split.
    + intros [_ [[Hst _]|[_ Hg]]]; [|done].
      destruct Hq as [-> | ->], Hst as [[=]|[_ [=]]]; lia.
    + intros (g & Hg & Hne).
      pose proof (occupant_in_grid _ _ _ Hrect Hg) as [? ?].
      split; [lia|]. right. split; [done|]. eauto.
  - intros q g Hq Hg. rewrite Hspec. intros [_ [[_ Hnone]|[Hob _]]].
    + congruence.
    + destruct Hq as [-> | ->], Hob as [[=]|[=]]; lia.
Qed.
(** ** Lemmas: the cell an index pair addresses *)

Lemma py_index_Some len i k :
  py_index len i = Some k → (Z.of_nat k < len) ∧ - len ≤ i < len.
Proof.
  unfold py_index.
  destruct (0 <=? i) eqn:H0, (i <? len) eqn:H1; simpl;
    try (apply Z.leb_le in H0); try (apply Z.leb_gt in H0);
    try (apply Z.ltb_lt in H1); try (apply Z.ltb_ge in H1).
  - intros [= <-]. lia.
  - destruct (- len <=? i) eqn:H2, (i <? 0) eqn:H3; simpl; try done.
    apply Z.ltb_lt in H3. lia.
  - destruct (- len <=? i) eqn:H2, (i <? 0) eqn:H3; simpl; try done.
    apply Z.leb_le in H2. intros [= <-]. lia.
  - destruct (- len <=? i) eqn:H2, (i <? 0) eqn:H3; simpl; try done.
    apply Z.leb_le in H2. intros [= <-]. lia.
Qed.

Lemma py_index_None len i : py_index len i = None → ¬ (- len ≤ i < len).
Proof. intros H Hi. by rewrite (py_index_wrap _ _ Hi) in H. Qed.

Lemma address_Some cs p r k :
  address cs p = Some (r, k) →
  ∃ row, cs !! r = Some row ∧ (k < length row)%nat
         ∧ py_index (Z.of_nat (length cs)) p.1 = Some r
         ∧ py_index (Z.of_nat (length row)) p.2 = Some k.
Proof.
  unfold address.
  destruct (py_index (Z.of_nat (length cs)) p.1) as [r'|] eqn:Hr; [|done].
  destruct (cs !! r') as [row|] eqn:Hrow; [|done].
  destruct (py_index (Z.of_nat (length row)) p.2) as [k'|] eqn:Hk; [|done].
  intros [= <- <-]. exists row. apply py_index_Some in Hk as Hk'.
  repeat split; try done. lia.
Qed.

Lemma cell_at_address cs p :
  cell_at cs p = match address cs p with
                 | Some (r, k) => Ok (cell cs r k)
                 | None => Raise IndexError
                 end.
Proof.
  unfold cell_at, address, getitem, cell.
  destruct (py_index (Z.of_nat (length cs)) p.1) as [r|] eqn:Hr; [|done].
  destruct (cs !! r) as [row|] eqn:Hrow; [|done].
  destruct (py_index (Z.of_nat (length row)) p.2) as [k|] eqn:Hk; [|done].
  rewrite Hrow. destruct (row !! k) as [x|] eqn:Hx; [done|].
  apply lookup_ge_None in Hx. apply py_index_Some in Hk. lia.
Qed.

Lemma store_cell_address cs p c :
  store_cell cs p c
  = match address cs p with
    | Some (r, k) =>
        match cs !! r with
        | Some row => Ok (<[r := <[k := c]> row]> cs)
        | None => Raise IndexError
        end
    | None => Raise IndexError
    end.
Proof.
  unfold store_cell, address.
  destruct (py_index (Z.of_nat (length cs)) p.1) as [r|] eqn:Hr; [|done].
  destruct (cs !! r) as [row|] eqn:Hrow; [|done].
  destruct (py_index (Z.of_nat (length row)) p.2) as [k|] eqn:Hk; [|done].
  by rewrite Hrow.
Qed.

(** Writing a cell changes no length, so it changes no address. *)
Lemma address_insert cs r row k c q :
  cs !! r = Some row →
  address (<[r := <[k := c]> row]> cs) q = address cs q.
Proof.
  intros Hrow. unfold address. rewrite length_insert.
  destruct (py_index (Z.of_nat (length cs)) q.1) as [r'|]; [|done].
  destruct (decide (r' = r)) as [->|Hne].
  - rewrite list_lookup_insert_eq by (by eapply lookup_lt_Some).
    by rewrite Hrow, length_insert.
  - by rewrite list_lookup_insert_ne.
Qed.

Lemma cell_insert cs r row k c r' k' :
  cs !! r = Some row → (k < length row)%nat →
  cell (<[r := <[k := c]> row]> cs) r' k'
  = if decide ((r', k') = (r, k)) then c else cell cs r' k'.
Proof.
  intros Hrow Hk. unfold cell. apply lookup_lt_Some in Hrow as Hr.
  destruct (decide (r' = r)) as [->|Hne].
  - rewrite list_lookup_insert_eq, Hrow by done.
    destruct (decide (k' = k)) as [->|Hnk].
    + rewrite list_lookup_insert_eq by done. by rewrite decide_True.
    + rewrite list_lookup_insert_ne by done.
      rewrite decide_False; [done | congruence].
  - rewrite list_lookup_insert_ne by done.
    rewrite decide_False; [done | congruence].
Qed.

Lemma eval_Table_set_figure c p s :
  eval (Table_set_figure c p) s
  = match store_cell (tbl_cells (st_table s)) p c with
    | Ok _ => Ok ()
    | Raise e => Raise e
    end.
Proof.
  unfold Table_set_figure. unfold_m.
  by destruct (store_cell (tbl_cells (st_table s)) p c).
Qed.

Lemma exec_Table_set_figure c p s :
  exec (Table_set_figure c p) s
  = match store_cell (tbl_cells (st_table s)) p c with
    | Ok cs' => set_table (set_cells cs' (st_table s)) s
    | Raise e => s
    end.
Proof.
  unfold Table_set_figure. unfold_m.
  by destruct (store_cell (tbl_cells (st_table s)) p c).
Qed.

(** The first cell in row-major order. *)
Lemma locate_first g cs k p :
  locate g cs k = Some p →
  ∃ r c, p = (Z.of_nat (k + r), Z.of_nat c) ∧ cell cs r c = Some g
         ∧ ∀ i j, cell cs i j = Some g →
                  (r < i)%nat ∨ (r = i ∧ (c ≤ j)%nat).
Proof.
  revert k. induction cs as [|row cs IH]; intros k; simpl; [done|].
  destruct (list_index (Some g) row) as [c|] eqn:Hc.
  - intros [= <-]. exists 0%nat, c. rewrite Nat.add_0_r. split; [done|].
    apply list_index_Some in Hc as [Hc Hmin]. unfold cell. simpl.
    rewrite Hc. split; [done|]. intros [|i] j; [|lia].
    simpl. intros Hj. right. split; [done|].
    destruct (decide (c ≤ j)%nat) as [|Hlt]; [done|].
    destruct (row !! j) as [x|] eqn:Hx; [|done]. subst x.
    exfalso. apply (Hmin j); [lia | done].
  - intros (r & c & -> & Hcell & Hmin)%IH. exists (S r), c.
    split; [f_equal; lia|]. split; [done|].
    intros [|i] j Hj.
    + exfalso. apply cell_Some in Hj as (row' & [= <-] & Hj).
      apply list_index_None in Hc. apply Hc.
      by eapply list_elem_of_lookup_2.
    + destruct (Hmin i j Hj) as [?|[-> ?]]; [left; lia | right; done].
Qed.

Lemma py_index_out len i : ¬ (- len ≤ i < len) → py_index len i = None.
Proof.
  intros Hi. destruct (py_index len i) as [k|] eqn:Hk; [|done].
  apply py_index_Some in Hk. tauto.
Qed.

Lemma py_wrap_nonneg len i : 0 ≤ i → py_wrap len i = i.
Proof.
  intros Hi. unfold py_wrap.
  by replace (0 <=? i) with true by (symmetry; apply Z.leb_le; lia).
Qed.

(** In a grid an index pair is in range exactly when each index is, and it
    addresses the cell the indices wrap to. *)
Lemma address_grid rows columns cs p :
  grid rows columns cs →
  address cs p
  = if bool_decide (- rows ≤ p.1 < rows ∧ - columns ≤ p.2 < columns)
    then Some (Z.to_nat (py_wrap rows p.1), Z.to_nat (py_wrap columns p.2))
    else None.
Proof.
  intros [Hrows Hcols]. unfold address. rewrite Hrows.
  rewrite Forall_forall in Hcols.
  case_bool_decide as Hok.
  - destruct Hok as [Hr Hc]. rewrite (py_index_wrap _ _ Hr).
    pose proof (py_wrap_range _ _ Hr) as Hr'.
    destruct (lookup_lt_is_Some_2 cs (Z.to_nat (py_wrap rows p.1)))
      as [row Hrow]; [lia|].
    rewrite Hrow, (Hcols row) by (by eapply list_elem_of_lookup_2).
    by rewrite (py_index_wrap _ _ Hc).
  - destruct (py_index rows p.1) as [r|] eqn:Hr; [|done].
    destruct (cs !! r) as [row|] eqn:Hrow; [|done].
    rewrite (Hcols row) by (by eapply list_elem_of_lookup_2).
    rewrite py_index_out; [done|].
    apply py_index_Some in Hr. tauto.
Qed.

Lemma store_cell_wrapped rows columns cs p x :
  grid rows columns cs →
  - rows ≤ p.1 < rows → - columns ≤ p.2 < columns →
  store_cell cs p x
  = store_cell cs (py_wrap rows p.1, py_wrap columns p.2) x.
Proof.
  intros Hg Hr Hc. rewrite !store_cell_address.
  rewrite !(address_grid _ _ _ _ Hg). simpl.
  pose proof (py_wrap_range _ _ Hr). pose proof (py_wrap_range _ _ Hc).
  rewrite !bool_decide_true by lia.
  by rewrite (py_wrap_nonneg rows (py_wrap rows p.1)),
    (py_wrap_nonneg columns (py_wrap columns p.2)) by lia.
Qed.

(** ** Lemmas: what a computation preserves *)

Lemma preserves_bind {A B} P (m : M A) (k : A → M B) :
  preserves P m → (∀ a, preserves P (k a)) → preserves P (bind m k).
Proof.
  intros Hm Hk s Hs. rewrite exec_bind.
  destruct (eval m s); [apply Hk|]; by apply Hm.
Qed.

Lemma preserves_ret {A} P (a : A) : preserves P (ret a).
Proof. by intros s. Qed.

Lemma preserves_raise {A} P e : preserves P (@raise A e).
Proof. by intros s. Qed.

Lemma preserves_read_figure P g : preserves P (read_figure g).
Proof. intros s. by rewrite exec_read_figure. Qed.

Lemma preserves_read_player P p : preserves P (read_player p).
Proof. intros s. unfold exec, read_player. by destruct (st_players s !! p). Qed.

Lemma preserves_Table_get_figure P p : preserves P (Table_get_figure p).
Proof. by intros s. Qed.

Lemma preserves_Figure_player P g : preserves P (Figure_player g).
Proof. intros s. by rewrite exec_Figure_player. Qed.

Lemma preserves_for_each {A} P (l : list A) body :
  (∀ x, preserves P (body x)) → preserves P (for_each l body).
Proof.
  intros Hb. induction l as [|x l IH]; simpl; [by intros s|].
  apply preserves_bind; [apply Hb | by intros _].
Qed.

(** The structure of a computation; [leaf] settles what is left. *)
Ltac preserves_with leaf :=
  repeat match goal with
  | |- preserves _ (bind _ _) => apply preserves_bind; [|intros ?]
  | |- preserves _ (ret _) => apply preserves_ret
  | |- preserves _ (raise _) => apply preserves_raise
  | |- preserves _ (read_figure _) => apply preserves_read_figure
  | |- preserves _ (read_player _) => apply preserves_read_player
  | |- preserves _ (Table_get_figure _) => apply preserves_Table_get_figure
  | |- preserves _ (Figure_player _) => apply preserves_Figure_player
  | |- preserves _ (if ?b then _ else _) => destruct b
  | |- preserves _ (match ?x with _ => _ end) => destruct x
  | |- preserves _ _ => progress leaf
  end.

Lemma is_frame_available_moves self :
  is_frame (Some self) (available_moves self).
Proof.
  unfold available_moves. apply is_frame_bind; [apply is_frame_read_figure|].
  intros fg. apply is_frame_available_moves_as.
Qed.

Lemma st_figures_Table_set_figure c p s :
  st_figures (exec (Table_set_figure c p) s) = st_figures s.
Proof.
  rewrite exec_Table_set_figure. by destruct (store_cell _ p c).
Qed.

Lemma st_players_Table_set_figure c p s :
  st_players (exec (Table_set_figure c p) s) = st_players s.
Proof.
  rewrite exec_Table_set_figure. by destruct (store_cell _ p c).
Qed.

Lemma tbl_figures_Table_set_figure c p s :
  tbl_figures (st_table (exec (Table_set_figure c p) s))
  = tbl_figures (st_table s).
Proof.
  rewrite exec_Table_set_figure. by destruct (store_cell _ p c).
Qed.

Lemma st_figures_set_figures ws s :
  st_figures (set_figures ws s) = st_figures s.
Proof.
  revert s. induction ws as [|w ws IH]; intros s; simpl; [done|].
  unfold set_figures in *. simpl. by rewrite IH, st_figures_Table_set_figure.
Qed.

Lemma tbl_figures_set_figures ws s :
  tbl_figures (st_table (set_figures ws s)) = tbl_figures (st_table s).
Proof.
  revert s. induction ws as [|w ws IH]; intros s; simpl; [done|].
  unfold set_figures in *. simpl.
  by rewrite IH, tbl_figures_Table_set_figure.
Qed.

(** *** The legal-move cache of a figure that does not move *)

Lemma preserves_cached_fill g mv w s s' :
  Some g ≠ w → fill w s s' → is_cached g mv s → is_cached g mv s'.
Proof.
  intros Hw Hf (fg & Hs & Hm).
  destruct (fill_lookup _ _ _ _ _ Hf Hs) as (fg' & Hs' & Hm').
  exists fg'. split; [done|]. by rewrite Hm'.
Qed.

Lemma preserves_cached_query {A} g mv (m : M A) :
  is_query m → preserves (is_cached g mv) m.
Proof.
  intros Hq s. apply (preserves_cached_fill g mv None); [done|].
  apply (q_fill _ Hq).
Qed.

Lemma preserves_cached_available_moves g mv self :
  self ≠ g → preserves (is_cached g mv) (available_moves self).
Proof.
  intros Hne s. apply (preserves_cached_fill g mv (Some self)); [congruence|].
  apply is_frame_available_moves.
Qed.

Lemma preserves_cached_figures {A} g mv (m : M A) :
  (∀ s, st_figures (exec m s) = st_figures s) →
  preserves (is_cached g mv) m.
Proof. intros Hf s (fg & Hs & Hm). exists fg. by rewrite Hf. Qed.

Lemma preserves_cached_update g mv self u :
  self ≠ g → preserves (is_cached g mv) (update_figure self u).
Proof.
  intros Hne s (fg & Hs & Hm). exists fg. split; [|done].
  unfold update_figure. unfold_m. by rewrite lookup_alter_ne.
Qed.

Ltac cached_leaf :=
  first
    [ apply preserves_cached_available_moves; done
    | apply preserves_cached_update; done
    | apply preserves_cached_figures; intros ?;
        solve [apply st_figures_Table_set_figure | reflexivity]
    | apply preserves_cached_query; solve [query] ].

Lemma preserves_cached_Figure_move g mv self to :
  self ≠ g → preserves (is_cached g mv) (Figure_move self to).
Proof.
  intros Hne.
  unfold Figure_move, Figure_move_validity, Figure_reset, Player_reset,
    Table_reset.
  preserves_with cached_leaf.
Qed.

Lemma preserves_cached_move g mv self to :
  self ≠ g → preserves (is_cached g mv) (move self to).
Proof.
  intros Hne. unfold move, Pawn_move.
  preserves_with
    ltac:(first [apply preserves_cached_Figure_move; done | cached_leaf]).
Qed.

Lemma is_cached_set_figures g mv ws s :
  is_cached g mv s → is_cached g mv (set_figures ws s).
Proof. intros (fg & Hs & Hm). exists fg. by rewrite st_figures_set_figures. Qed.

Lemma is_cached_moves_of g mv ops s :
  Forall (λ op, op.1 ≠ g) ops →
  is_cached g mv s → is_cached g mv (moves_of ops s).
Proof.
  intros Hops. revert s. induction Hops as [|op ops Hop _ IH]; intros s Hs.
  - done.
  - unfold moves_of in *. simpl. apply IH.
    by apply preserves_cached_move.
Qed.

Lemma tbl_cells_set_figures ws s1 s2 :
  tbl_cells (st_table s1) = tbl_cells (st_table s2) →
  tbl_cells (st_table (set_figures ws s1))
  = tbl_cells (st_table (set_figures ws s2)).
Proof.
  revert s1 s2. induction ws as [|w ws IH]; intros s1 s2 H; simpl; [done|].
  unfold set_figures in *. simpl. apply IH.
  rewrite !exec_Table_set_figure, H.
  by destruct (store_cell (tbl_cells (st_table s2)) w.2 w.1).
Qed.

Lemma tbl_cells_Table_figures s :
  tbl_cells (st_table (exec Table_figures s)) = tbl_cells (st_table s).
Proof. rewrite exec_Table_figures. by destruct (tbl_figures (st_table s)). Qed.

(** ** Lemmas: the ray scanner keeps one end of the list *)

Lemma cut_after_prefix f t p s l :
  eval (cut_after f t p) s = Ok l → l `prefix_of` f.
Proof.
  revert f. induction t as [|i t IH]; intros f; simpl.
  - by intros [= <-].
  - rewrite eval_bind_query by query.
    destruct (eval (Figure_position i) s) as [qi|]; [|done].
    destruct (list_index qi f) as [s0|]; [|by apply IH].
    rewrite eval_bind_query by query.
    destruct (eval (Figure_player i) s) as [oi|]; [|done].
    intros Hl%IH. etrans; [exact Hl|].
    case_bool_decide; eexists; symmetry; apply take_drop.
Qed.

Lemma cut_before_suffix f t p s l :
  eval (cut_before f t p) s = Ok l → l `suffix_of` f.
Proof.
  revert f. induction t as [|i t IH]; intros f; simpl.
  - by intros [= <-].
  - rewrite eval_bind_query by query.
    destruct (eval (Figure_position i) s) as [qi|]; [|done].
    destruct (list_index qi f) as [s0|]; [|by apply IH].
    rewrite eval_bind_query by query.
    destruct (eval (Figure_player i) s) as [oi|]; [|done].
    intros Hl%IH. etrans; [exact Hl|].
    case_bool_decide; eexists; symmetry; apply take_drop.
Qed.

(** ** Lemmas: the sliding pieces, square by square *)

Lemma kept_after_path s sp (sq : Z → pos) a b q :
  consistent s →
  kept_after s sp (sq <$> range a b) q ↔
  ∃ x, q = sq x ∧ a ≤ x < b
       ∧ (∀ y, a ≤ y < x → occupant s (sq y) = None)
       ∧ free_for s sp (sq x).
Proof.
  intros Hc. rewrite kept_after_range. split.
  - intros (x & -> & Hx & HC). exists x. split; [done|]. split; [done|].
    split.
    + intros y Hy. destruct (occupant s (sq y)) as [g|] eqn:Hg; [|done].
      destruct (occupant_owner _ _ _ Hc Hg) as [o Ho].
      destruct (HC g y o Hg) as [H1 H2]; [lia|done|].
      destruct (decide (sp = o)) as [Hp|Hp];
        [apply H1 in Hp | apply H2 in Hp]; lia.
    + unfold free_for. destruct (occupant s (sq x)) as [g|] eqn:Hg; [|done].
      intros Ho. destruct (HC g x sp Hg) as [H1 _]; [lia|done|].
      specialize (H1 eq_refl). lia.
  - intros (x & -> & Hx & Hpath & Hfree). exists x.
    split; [done|]. split; [done|]. intros g y o Hg Hy Ho.
    destruct (decide (y < x)) as [Hlt|Hge].
    { rewrite Hpath in Hg by lia. done. }
    destruct (decide (y = x)) as [->|Hne]; [|split; intros; lia].
    unfold free_for in Hfree. rewrite Hg in Hfree.
    split; [|intros; lia]. intros ->. done.
Qed.

Lemma kept_before_path s sp (sq : Z → pos) a b q :
  consistent s →
  kept_before s sp (sq <$> range a b) q ↔
  ∃ x, q = sq x ∧ a ≤ x < b
       ∧ (∀ y, x < y < b → occupant s (sq y) = None)
       ∧ free_for s sp (sq x).
Proof.
  intros Hc. rewrite kept_before_range. split.
  - intros (x & -> & Hx & HC). exists x. split; [done|]. split; [done|].
    split.
    + intros y Hy. destruct (occupant s (sq y)) as [g|] eqn:Hg; [|done].
      destruct (occupant_owner _ _ _ Hc Hg) as [o Ho].
      destruct (HC g y o Hg) as [H1 H2]; [lia|done|].
      destruct (decide (sp = o)) as [Hp|Hp];
        [apply H1 in Hp | apply H2 in Hp]; lia.
    + unfold free_for. destruct (occupant s (sq x)) as [g|] eqn:Hg; [|done].
      intros Ho. destruct (HC g x sp Hg) as [H1 _]; [lia|done|].
      specialize (H1 eq_refl). lia.
  - intros (x & -> & Hx & Hpath & Hfree). exists x.
    split; [done|]. split; [done|]. intros g y o Hg Hy Ho.
    destruct (decide (x < y)) as [Hlt|Hge].
    { rewrite Hpath in Hg by lia. done. }
    destruct (decide (y = x)) as [->|Hne]; [|split; intros; lia].
    unfold free_for in Hfree. rewrite Hg in Hfree.
    split; [|intros; lia]. intros ->. done.
Qed.

(** A [while] loop whose condition holds from [start] up to [stop]
    collects the squares of that range. *)
Lemma ray_while_range fuel cond sq start stop :
  start ≤ stop →
  (∀ n, start ≤ n < stop → cond n = true) → cond stop = false →
  (Z.to_nat (stop - start) ≤ fuel)%nat →
  ray_while fuel cond sq start = sq <$> range start stop.
Proof.
  revert start. induction fuel as [|fuel IH]; intros start Hle Ht Hf Hfuel.
  - simpl. unfold range. replace (stop - start) with 0 by lia. done.
  - simpl. destruct (decide (start = stop)) as [->|Hne].
    + rewrite Hf. unfold range. by rewrite Z.sub_diag.
    + rewrite Ht by lia. unfold range.
      rewrite (seqZ_cons start) by lia. simpl. f_equal.
      rewrite (IH (Z.succ start)); [|lia|intros; apply Ht; lia|done|lia].
      unfold range. f_equal. f_equal. lia.
Qed.

(** The four lists of [Bishop._oblique_moves] before they are cut, for a
    bishop standing on the board. *)
Lemma Bishop_rays_range (r c rows columns : Z) :
  0 ≤ r < rows → 0 ≤ c < columns →
  ray_while (Z.to_nat r) (λ n, bool_decide (Z.min (r - n) (c - n) >= 0))
            (λ n, (r - n, c - n)) 1
  = (λ n, (r - n, c - n)) <$> range 1 (Z.min r c + 1)
  ∧ ray_while (Z.to_nat c)
              (λ n, bool_decide (r + n < rows) && bool_decide (c - n >= 0))
              (λ n, (r + n, c - n)) 1
    = (λ n, (r + n, c - n)) <$> range 1 (Z.min (rows - r) (c + 1))
  ∧ ray_while (Z.to_nat r)
              (λ n, bool_decide (r - n >= 0) && bool_decide (c + n < columns))
              (λ n, (r - n, c + n)) 1
    = (λ n, (r - n, c + n)) <$> range 1 (Z.min (r + 1) (columns - c))
  ∧ ray_while (Z.to_nat (Z.min rows columns - r))
              (λ n, bool_decide (Z.max (r + n) (c + n) < Z.min rows columns))
              (λ n, (r + n, c + n)) 1
    = (λ n, (r + n, c + n))
        <$> range 1 (Z.max 1 (Z.min rows columns - Z.max r c)).
Proof.
  intros Hr Hc. repeat split; apply ray_while_range; try lia.
  - intros n Hn. apply bool_decide_true. lia.
  - apply bool_decide_false. lia.
  - intros n Hn. apply andb_true_iff.
    split; apply bool_decide_true; lia.
  - apply andb_false_iff.
    destruct (decide (rows - r ≤ c + 1));
      [left | right]; apply bool_decide_false; lia.
  - intros n Hn. apply andb_true_iff.
    split; apply bool_decide_true; lia.
  - apply andb_false_iff.
    destruct (decide (r + 1 ≤ columns - c));
      [left | right]; apply bool_decide_false; lia.
  - intros n Hn. apply bool_decide_true. lia.
  - apply bool_decide_false. lia.
Qed.

(** The four lists of [Bishop._oblique_moves] in a consistent state. *)
Lemma Bishop_oblique_moves_spec s self r c sp :
  consistent s → pos_view s self = Ok (r, c) → owner_view s self = Ok sp →
  0 ≤ r < tbl_rows (st_table s) → 0 ≤ c < tbl_columns (st_table s) →
  ∃ lu ld ru rd,
    eval (Bishop_oblique_moves self) s = Ok (lu, ld, ru, rd)
    ∧ (∀ q, q ∈ lu ↔
            kept_after s sp ((λ n, (r - n, c - n))
                               <$> range 1 (Z.min r c + 1)) q)
    ∧ (∀ q, q ∈ ld ↔
            kept_after s sp
              ((λ n, (r + n, c - n))
                 <$> range 1 (Z.min (tbl_rows (st_table s) - r) (c + 1))) q)
    ∧ (∀ q, q ∈ ru ↔
            kept_after s sp
              ((λ n, (r - n, c + n))
                 <$> range 1 (Z.min (r + 1) (tbl_columns (st_table s) - c)))
              q)
    ∧ (∀ q, q ∈ rd ↔
            kept_after s sp
              ((λ n, (r + n, c + n))
                 <$> range 1 (Z.max 1 (Z.min (tbl_rows (st_table s))
                                             (tbl_columns (st_table s))
                                       - Z.max r c))) q).
Proof.
  intros Hc Hpos Hown Hr Hcol. unfold Bishop_oblique_moves.
  destruct (Bishop_rays_range r c _ _ Hr Hcol) as (E1 & E2 & E3 & E4).
  change (@fmap list list_fmap Z (Z * Z)) with (@fmap list list_fmap Z pos)
    in E1, E2, E3, E4.
  assert (∀ (sq : Z → pos) a b, (∀ x y, sq x = sq y → x = y) →
            ∃ l, eval (cut_after (sq <$> range a b) (figs_view s) sp) s = Ok l
                 ∧ ∀ q, q ∈ l ↔ kept_after s sp (sq <$> range a b) q) as Hcut.
  { intros sq a b Hinj. apply consistent_cut_after; [done|].
    by apply NoDup_fmap_range. }
  destruct (Hcut (λ n, (r - n, c - n)) 1 (Z.min r c + 1))
    as (lu & Hlu & Slu); [intros ?? [= ? ?]; lia|].
  destruct (Hcut (λ n, (r + n, c - n)) 1
              (Z.min (tbl_rows (st_table s) - r) (c + 1)))
    as (ld & Hld & Sld); [intros ?? [= ? ?]; lia|].
  destruct (Hcut (λ n, (r - n, c + n)) 1
              (Z.min (r + 1) (tbl_columns (st_table s) - c)))
    as (ru & Hru & Sru); [intros ?? [= ? ?]; lia|].
  destruct (Hcut (λ n, (r + n, c + n)) 1
              (Z.max 1 (Z.min (tbl_rows (st_table s))
                              (tbl_columns (st_table s)) - Z.max r c)))
    as (rd & Hrd & Srd); [intros ?? [= ? ?]; lia|].
  exists lu, ld, ru, rd. split; [|done].
  rewrite eval_bind_query, eval_Figure_position, Hpos by query.
  rewrite eval_bind_query, eval_Table_figures by query.
  cbv zeta. rewrite E1.
  rewrite eval_bind_query, eval_Figure_player, Hown by query.
  rewrite eval_bind_query, Hlu by query.
  rewrite eval_bind_query by query.
  change (eval (gets (λ s0, tbl_rows (st_table s0))) s)
    with (Ok (tbl_rows (st_table s)) : Result Z).
  cbv beta iota zeta. rewrite E2.
  rewrite eval_bind_query, eval_Figure_player, Hown by query.
  rewrite eval_bind_query, Hld by query.
  rewrite eval_bind_query by query.
  change (eval (gets (λ s0, tbl_columns (st_table s0))) s)
    with (Ok (tbl_columns (st_table s)) : Result Z).
  cbv beta iota zeta. rewrite E3.
  rewrite eval_bind_query, eval_Figure_player, Hown by query.
  rewrite eval_bind_query, Hru by query.
  rewrite eval_bind_query by query.
  change (eval (gets (λ s0, tbl_rows (st_table s0))) s)
    with (Ok (tbl_rows (st_table s)) : Result Z).
  cbv beta iota zeta.
  rewrite eval_bind_query by query.
  change (eval (gets (λ s0, tbl_columns (st_table s0))) s)
    with (Ok (tbl_columns (st_table s)) : Result Z).
  cbv beta iota zeta. rewrite E4.
  rewrite eval_bind_query, eval_Figure_player, Hown by query.
  rewrite eval_bind_query, Hrd by query.
  done.
Qed.

(** A candidate list that runs away from the figure, read as a slide. *)
Lemma slides_after s sp p d (sq : Z → pos) a b off q :
  consistent s →
  (∀ x, sq x = along p d (x - off)) → a - off = 1 →
  (∀ x, a ≤ x → (x < b ↔ in_reach s d (sq x))) →
  kept_after s sp (sq <$> range a b) q ↔ slides s sp p d q.
Proof.
  intros Hc Hsq Ha Hreach. rewrite (kept_after_path _ _ _ _ _ _ Hc). split.
  - intros (x & -> & Hx & Hpath & Hfree). exists (x - off).
    split; [lia|]. split; [apply Hsq|]. split; [apply Hreach; lia|].
    split; [|done]. intros k Hk.
    replace k with (k + off - off) by lia. rewrite <- Hsq.
    apply Hpath. lia.
  - intros (n & Hn & -> & Hr & Hpath & Hfree). exists (n + off).
    assert (sq (n + off) = along p d n) as Heq.
    { rewrite Hsq. f_equal. lia. }
    split; [done|]. rewrite Heq. split.
    { split; [lia|]. apply Hreach; [lia|]. by rewrite Heq. }
    split; [|done]. intros y Hy. rewrite Hsq. apply Hpath. lia.
Qed.

(** A candidate list that runs towards the figure, read as a slide. *)
Lemma slides_before s sp p d (sq : Z → pos) a b q :
  consistent s →
  (∀ x, sq x = along p d (b - x)) →
  (∀ x, x < b → (a ≤ x ↔ in_reach s d (sq x))) →
  kept_before s sp (sq <$> range a b) q ↔ slides s sp p d q.
Proof.
  intros Hc Hsq Hreach. rewrite (kept_before_path _ _ _ _ _ _ Hc). split.
  - intros (x & -> & Hx & Hpath & Hfree). exists (b - x).
    split; [lia|]. split; [apply Hsq|]. split; [apply Hreach; lia|].
    split; [|done]. intros k Hk.
    replace k with (b - (b - k)) by lia. rewrite <- Hsq.
    apply Hpath. lia.
  - intros (n & Hn & -> & Hr & Hpath & Hfree). exists (b - n).
    assert (sq (b - n) = along p d n) as Heq.
    { rewrite Hsq. f_equal. lia. }
    split; [done|]. rewrite Heq. split.
    { split; [|lia]. apply Hreach; [lia|]. by rewrite Heq. }
    split; [|done]. intros y Hy. rewrite Hsq. apply Hpath. lia.
Qed.

Lemma in_reach_on_board s d q : d ≠ (1, 1) → in_reach s d q ↔ on_board s q.
Proof. intros Hd. unfold in_reach. by rewrite decide_False. Qed.

(** The four lists of the rook are the slides in its four directions. *)
Lemma rook_lists_slide s sp r c q :
  consistent s → on_board s (r, c) →
  (kept_before s sp ((λ x, (x, c)) <$> range 0 r) q
   ∨ kept_after s sp ((λ x, (x, c)) <$> range (r + 1)
                                         (tbl_rows (st_table s))) q
   ∨ kept_before s sp ((λ x, (r, x)) <$> range 0 c) q
   ∨ kept_after s sp ((λ x, (r, x)) <$> range (c + 1)
                                      (tbl_columns (st_table s))) q)
  ↔ ∃ d, d ∈ rook_directions ∧ slides s sp (r, c) d q.
Proof.
  intros Hc [Hr Hcol]. simpl in Hr, Hcol.
  rewrite (slides_before s sp (r, c) (-1, 0) (λ x, (x, c)) 0 r q Hc).
  2: { intros x. unfold along. simpl. f_equal; lia. }
  2: { intros x Hx. rewrite in_reach_on_board by done.
       unfold on_board. simpl. lia. }
  rewrite (slides_after s sp (r, c) (1, 0) (λ x, (x, c)) (r + 1) _ r q Hc).
  2: { intros x. unfold along. simpl. f_equal; lia. }
  2: { lia. }
  2: { intros x Hx. rewrite in_reach_on_board by done.
       unfold on_board. simpl. lia. }
  rewrite (slides_before s sp (r, c) (0, -1) (λ x, (r, x)) 0 c q Hc).
  2: { intros x. unfold along. simpl. f_equal; lia. }
  2: { intros x Hx. rewrite in_reach_on_board by done.
       unfold on_board. simpl. lia. }
  rewrite (slides_after s sp (r, c) (0, 1) (λ x, (r, x)) (c + 1) _ c q Hc).
  2: { intros x. unfold along. simpl. f_equal; lia. }
  2: { lia. }
  2: { intros x Hx. rewrite in_reach_on_board by done.
       unfold on_board. simpl. lia. }
  unfold rook_directions. split.
  - intros [H|[H|[H|H]]]; eexists; (split; [|exact H]);
      rewrite !elem_of_cons; tauto.
  - intros (d & Hd & H). rewrite !elem_of_cons, elem_of_nil in Hd.
    destruct Hd as [->|[->|[->|[->|[]]]]]; tauto.
Qed.

(** The four lists of the bishop are the slides in its four directions. *)
Lemma bishop_lists_slide s sp r c q :
  consistent s → on_board s (r, c) →
  (kept_after s sp ((λ n, (r - n, c - n)) <$> range 1 (Z.min r c + 1)) q
   ∨ kept_after s sp
       ((λ n, (r + n, c - n))
          <$> range 1 (Z.min (tbl_rows (st_table s) - r) (c + 1))) q
   ∨ kept_after s sp
       ((λ n, (r - n, c + n))
          <$> range 1 (Z.min (r + 1) (tbl_columns (st_table s) - c))) q
   ∨ kept_after s sp
       ((λ n, (r + n, c + n))
          <$> range 1 (Z.max 1 (Z.min (tbl_rows (st_table s))
                                      (tbl_columns (st_table s))
                                - Z.max r c))) q)
  ↔ ∃ d, d ∈ bishop_directions ∧ slides s sp (r, c) d q.
Proof.
  intros Hc [Hr Hcol]. simpl in Hr, Hcol.
  rewrite (slides_after s sp (r, c) (-1, -1) (λ n, (r - n, c - n)) 1 _ 0 q Hc).
  2: { intros x. unfold along. simpl. f_equal; lia. }
  2: { lia. }
  2: { intros x Hx. rewrite in_reach_on_board by done.
       unfold on_board. simpl. lia. }
  rewrite (slides_after s sp (r, c) (1, -1) (λ n, (r + n, c - n)) 1 _ 0 q Hc).
  2: { intros x. unfold along. simpl. f_equal; lia. }
  2: { lia. }
  2: { intros x Hx. rewrite in_reach_on_board by done.
       unfold on_board. simpl. lia. }
  rewrite (slides_after s sp (r, c) (-1, 1) (λ n, (r - n, c + n)) 1 _ 0 q Hc).
  2: { intros x. unfold along. simpl. f_equal; lia. }
  2: { lia. }
  2: { intros x Hx. rewrite in_reach_on_board by done.
       unfold on_board. simpl. lia. }
  rewrite (slides_after s sp (r, c) (1, 1) (λ n, (r + n, c + n)) 1 _ 0 q Hc).
  2: { intros x. unfold along. simpl. f_equal; lia. }
  2: { lia. }
  2: { intros x Hx. unfold in_reach. rewrite decide_True by done.
       simpl. lia. }
  unfold bishop_directions. split.
  - intros [H|[H|[H|H]]]; eexists; (split; [|exact H]);
      rewrite !elem_of_cons; tauto.
  - intros (d & Hd & H). rewrite !elem_of_cons, elem_of_nil in Hd.
    destruct Hd as [->|[->|[->|[->|[]]]]]; tauto.
Qed.

(** The legal-move set of a bishop in a consistent state: the union of the
    kept squares of its four diagonals. *)
Lemma Bishop_moves_spec s self fg r c sp :
  consistent s →
  st_figures s !! self = Some fg → fig_kind fg = Bishop →
  fig_available_moves fg = None →
  pos_view s self = Ok (r, c) → owner_view s self = Ok sp →
  on_board s (r, c) →
  ∃ m, eval (available_moves self) s = Ok m
       ∧ ∀ q, q ∈ m ↔
           kept_after s sp ((λ n, (r - n, c - n))
                              <$> range 1 (Z.min r c + 1)) q
           ∨ kept_after s sp
               ((λ n, (r + n, c - n))
                  <$> range 1 (Z.min (tbl_rows (st_table s) - r) (c + 1))) q
           ∨ kept_after s sp
               ((λ n, (r - n, c + n))
                  <$> range 1 (Z.min (r + 1) (tbl_columns (st_table s) - c)))
               q
           ∨ kept_after s sp
               ((λ n, (r + n, c + n))
                  <$> range 1 (Z.max 1 (Z.min (tbl_rows (st_table s))
                                              (tbl_columns (st_table s))
                                        - Z.max r c))) q.
Proof.
  intros Hc Hs Hk Hm Hpos Hown [Hr Hcol].
  destruct (Bishop_oblique_moves_spec s self r c sp Hc Hpos Hown Hr Hcol)
    as (lu & ld & ru & rd & He & Slu & Sld & Sru & Srd).
  eexists. split.
  - unfold available_moves.
    rewrite eval_bind, eval_read_figure, exec_read_figure, Hs, Hk. simpl.
    by rewrite (eval_Bishop_available_moves _ _ _ Hs Hm), He.
  - intros q. simpl.
    rewrite !elem_of_union, !elem_of_list_to_set, Slu, Sld, Sru, Srd.
    rewrite !elem_of_empty. tauto.
Qed.

(** The legal-move set of a queen: the kept squares of the eight lists. *)
Lemma Queen_moves_spec s self fg r c sp :
  consistent s →
  st_figures s !! self = Some fg → fig_kind fg = Queen →
  fig_available_moves fg = None →
  pos_view s self = Ok (r, c) → owner_view s self = Ok sp →
  on_board s (r, c) →
  ∃ m, eval (available_moves self) s = Ok m
       ∧ ∀ q, q ∈ m ↔
           (kept_before s sp ((λ x, (x, c)) <$> range 0 r) q
            ∨ kept_after s sp ((λ x, (x, c)) <$> range (r + 1)
                                                  (tbl_rows (st_table s))) q
            ∨ kept_before s sp ((λ x, (r, x)) <$> range 0 c) q
            ∨ kept_after s sp ((λ x, (r, x)) <$> range (c + 1)
                                               (tbl_columns (st_table s))) q)
           ∨ (kept_after s sp ((λ n, (r - n, c - n))
                                 <$> range 1 (Z.min r c + 1)) q
              ∨ kept_after s sp
                  ((λ n, (r + n, c - n))
                     <$> range 1 (Z.min (tbl_rows (st_table s) - r) (c + 1)))
                  q
              ∨ kept_after s sp
                  ((λ n, (r - n, c + n))
                     <$> range 1 (Z.min (r + 1)
                                        (tbl_columns (st_table s) - c))) q
              ∨ kept_after s sp
                  ((λ n, (r + n, c + n))
                     <$> range 1 (Z.max 1 (Z.min (tbl_rows (st_table s))
                                                 (tbl_columns (st_table s))
                                           - Z.max r c))) q).
Proof.
  intros Hc Hs Hk Hm Hpos Hown [Hr Hcol].
  destruct (Rook_straight_moves_spec s self r c sp Hc Hpos Hown)
    as (up & dn & lf & rg & He1 & Sup & Sdn & Slf & Srg).
  destruct (Bishop_oblique_moves_spec s self r c sp Hc Hpos Hown Hr Hcol)
    as (lu & ld & ru & rd & He2 & Slu & Sld & Sru & Srd).
  eexists. split.
  - unfold available_moves.
    rewrite eval_bind, eval_read_figure, exec_read_figure, Hs, Hk. simpl.
    by rewrite (eval_Queen_available_moves _ _ _ Hs Hm), He1, He2.
  - intros q. simpl.
    rewrite !elem_of_union, !elem_of_list_to_set, Sup, Sdn, Slf, Srg,
      Slu, Sld, Sru, Srd.
    rewrite !elem_of_empty. tauto.
Qed.

(** ** Lemmas: the move executor, step by step *)

(** Writing a cell of a grid: the write succeeds exactly for index pairs in
    range and changes the cell the indices wrap to. *)
Lemma store_cell_grid rows columns cs p x cs' :
  grid rows columns cs → store_cell cs p x = Ok cs' →
  (- rows ≤ p.1 < rows ∧ - columns ≤ p.2 < columns)
  ∧ grid rows columns cs'
  ∧ ∀ q, occ cs' q
         = if decide (q = (py_wrap rows p.1, py_wrap columns p.2))
           then x else occ cs q.
Proof.
  intros Hg Hst.
  assert (- rows ≤ p.1 < rows ∧ - columns ≤ p.2 < columns) as [Hr Hc].
  { rewrite store_cell_address, (address_grid _ _ _ _ Hg) in Hst.
    by case_bool_decide. }
  split; [done|].
  rewrite (store_cell_wrapped _ _ _ _ _ Hg Hr Hc) in Hst.
  pose proof (py_wrap_range _ _ Hr) as Hr'.
  pose proof (py_wrap_range _ _ Hc) as Hc'.
  destruct (store_cell_in_grid _ _ _ (py_wrap rows p.1, py_wrap columns p.2)
              x Hg Hr' Hc') as (cs'' & Hst' & Hg' & Hocc).
  rewrite Hst in Hst'. by injection Hst' as ->.
Qed.

Lemma store_cell_grid_out rows columns cs p x :
  grid rows columns cs →
  ¬ (- rows ≤ p.1 < rows ∧ - columns ≤ p.2 < columns) →
  store_cell cs p x = Raise IndexError.
Proof.
  intros Hg Hno. rewrite store_cell_address, (address_grid _ _ _ _ Hg).
  by rewrite bool_decide_false.
Qed.

(** [Figure.move] to a legal destination: the origin is emptied and the
    caches of the figure are reset; then the write of the destination
    either succeeds, and the caches of the player and of the table are
    reset, or raises and leaves the figure on no square.  [s2] is the state
    the legality check left. *)
Lemma Figure_move_legal s self to m p o cs1 :
  eval (available_moves self) s = Ok m → to ∈ m →
  pos_view s self = Ok p → owner_view s self = Ok o →
  store_cell (tbl_cells (st_table s)) p None = Ok cs1 →
  ∃ s2, only_caches_filled s s2
        ∧ Figure_move self to s
          = match store_cell cs1 to (Some self) with
            | Ok cs2 =>
                (Ok (),
                 mkState (mkTable (tbl_rows (st_table s))
                                  (tbl_columns (st_table s)) cs2 None)
                         (alter (set_pl_figures None) o (st_players s))
                         (alter (set_fig_available_moves None) self
                            (alter (set_fig_position None) self
                                   (st_figures s2))))
            | Raise e =>
                (Raise e,
                 mkState (mkTable (tbl_rows (st_table s))
                                  (tbl_columns (st_table s)) cs1
                                  (tbl_figures (st_table s2)))
                         (st_players s)
                         (alter (set_fig_available_moves None) self
                            (alter (set_fig_position None) self
                                   (st_figures s2))))
            end.
Proof.
  intros He Hto Hp Ho H1.
  set (s1 := exec (available_moves self) s).
  set (s2 := exec (Figure_position self) s1).
  assert (only_caches_filled s s1) as O1 by apply ocf_available_moves.
  assert (only_caches_filled s1 s2) as O12
    by apply ocf_query, is_query_Figure_position.
  assert (only_caches_filled s s2) as O2 by (by eapply ocf_trans).
  exists s2. split; [done|].
  unfold Figure_move, Figure_move_validity.
  rewrite bind_run, eval_bind, He, eval_ret, exec_bind, He, exec_ret.
  rewrite bool_decide_true by done. simpl. fold s1.
  rewrite bind_run, eval_Figure_position, (ocf_pos _ _ _ O1), Hp. fold s2.
  destruct (owner_view_lookup s2 self o) as (fg2 & Hs2 & Hfo).
  { by rewrite (ocf_owner _ _ _ O2). }
  destruct O2 as [[Hrows Hcols Hcells Hplayers _ _] _ _].
  unfold Table_set_figure, Figure_reset, Figure_player, Player_reset,
    Table_reset.
  unfold_m. rewrite <- Hcells, H1. simpl.
  destruct (store_cell cs1 to (Some self)) as [cs2|e]; simpl.
  - rewrite !lookup_alter_eq, Hs2. simpl.
    unfold set_table, set_tbl_figures, set_cells. simpl.
    by rewrite Hfo, Hrows, Hcols, Hplayers.
  - unfold set_table, set_cells. simpl.
    by rewrite Hrows, Hcols, Hplayers.
Qed.

(** When [Figure.move] returns, the destination was in the legal-move
    set. *)
Lemma Figure_move_returns self to s :
  eval (Figure_move self to) s = Ok () →
  ∃ m, eval (available_moves self) s = Ok m ∧ to ∈ m.
Proof.
  unfold Figure_move, Figure_move_validity.
  rewrite !eval_bind.
  destruct (eval (available_moves self) s) as [m|e1]; [|done].
  rewrite eval_ret. case_bool_decide as Hto; [by eauto|]. simpl.
  rewrite eval_bind.
  destruct (eval (Figure_position self) _); [|done].
  rewrite eval_bind.
  by destruct (eval (available_moves self) _).
Qed.

Lemma alter_after_move (self : fid) (figs : gmap fid Figure) :
  (∀ fg, figs !! self = Some fg → fig_kind fg ≠ Pawn) →
  alter (set_fig_available_moves None) self
        (alter (set_fig_position None) self figs)
  = alter after_move self figs.
Proof.
  intros Hk. rewrite alter_alter_eq. apply alter_ext.
  intros fg Hfg. unfold after_move, compose. simpl.
  by rewrite decide_False by (by apply Hk).
Qed.

Lemma alter_after_move_pawn (self : fid) (figs : gmap fid Figure) :
  (∀ fg, figs !! self = Some fg → fig_kind fg = Pawn) →
  alter (set_fig_first_move false) self
        (alter (set_fig_available_moves None) self
               (alter (set_fig_position None) self figs))
  = alter after_move self figs.
Proof.
  intros Hk. rewrite !alter_alter_eq. apply alter_ext.
  intros fg Hfg. unfold after_move, compose. simpl.
  by rewrite decide_True by (by apply Hk).
Qed.

Lemma ocf_kind s s' g fg fg' :
  only_caches_filled s s' →
  st_figures s !! g = Some fg → st_figures s' !! g = Some fg' →
  fig_kind fg' = fig_kind fg ∧ fig_player fg' = fig_player fg
  ∧ fig_first_move fg' = fig_first_move fg.
Proof.
  intros [V _ _] Hs Hs'. pose proof (ve_fig _ _ V g) as Hv.
  unfold fig_view in Hv. rewrite Hs, Hs' in Hv. simpl in Hv.
  by injection Hv as -> -> -> _.
Qed.

(** The index pairs [set_figure] accepts. *)
Lemma in_range_wrapped s to :
  (- tbl_rows (st_table s) ≤ to.1 < tbl_rows (st_table s)
   ∧ - tbl_columns (st_table s) ≤ to.2 < tbl_columns (st_table s)) →
  on_board s (wrapped s to).
Proof.
  intros [Hr Hc]. split; simpl; by apply py_wrap_range.
Qed.

(** A legal move of a figure standing on [p], up to the write of the
    destination. *)
Lemma move_legal_run s self to m p :
  consistent s → rectangular s → occupant s p = Some self →
  eval (available_moves self) s = Ok m → to ∈ m →
  ∃ s2 o fg cs1,
    only_caches_filled s s2 ∧ owner_view s self = Ok o
    ∧ st_figures s !! self = Some fg
    ∧ grid (tbl_rows (st_table s)) (tbl_columns (st_table s)) cs1
    ∧ (∀ q, occ cs1 q = if decide (q = p) then None else occupant s q)
    ∧ Figure_move self to s
      = match store_cell cs1 to (Some self) with
        | Ok cs2 =>
            (Ok (),
             mkState (mkTable (tbl_rows (st_table s))
                              (tbl_columns (st_table s)) cs2 None)
                     (alter (set_pl_figures None) o (st_players s))
                     (alter (set_fig_available_moves None) self
                        (alter (set_fig_position None) self
                               (st_figures s2))))
        | Raise e =>
            (Raise e,
             mkState (mkTable (tbl_rows (st_table s))
                              (tbl_columns (st_table s)) cs1
                              (tbl_figures (st_table s2)))
                     (st_players s)
                     (alter (set_fig_available_moves None) self
                        (alter (set_fig_position None) self
                               (st_figures s2))))
        end.
Proof.
  intros Hc Hrect Hocc He Hto.
  pose proof (consistent_pos _ _ _ Hc Hocc) as Hpos.
  destruct (occupant_owner _ _ _ Hc Hocc) as [o Ho].
  destruct (owner_view_lookup _ _ _ Ho) as (fg & Hs & _).
  destruct (occupant_in_grid _ _ _ Hrect Hocc) as [Hr Hcol].
  destruct (store_cell_in_grid _ _ _ p None Hrect Hr Hcol)
    as (cs1 & H1 & Hg1 & Hocc1).
  destruct (Figure_move_legal s self to m p o cs1 He Hto Hpos Ho H1)
    as (s2 & O2 & Hrun).
  by exists s2, o, fg, cs1.
Qed.

(** A legal move to an index pair in range returns; the state it leaves. *)
Lemma move_legal_in_range s self to m p :
  consistent s → rectangular s → occupant s p = Some self →
  eval (available_moves self) s = Ok m → to ∈ m →
  (- tbl_rows (st_table s) ≤ to.1 < tbl_rows (st_table s)
   ∧ - tbl_columns (st_table s) ≤ to.2 < tbl_columns (st_table s)) →
  ∃ s2 o cs',
    only_caches_filled s s2 ∧ owner_view s self = Ok o
    ∧ grid (tbl_rows (st_table s)) (tbl_columns (st_table s)) cs'
    ∧ (∀ q, occ cs' q = if decide (q = wrapped s to) then Some self
                        else if decide (q = p) then None
                             else occupant s q)
    ∧ move self to s
      = (Ok (),
         mkState (mkTable (tbl_rows (st_table s))
                          (tbl_columns (st_table s)) cs' None)
                 (alter (set_pl_figures None) o (st_players s))
                 (alter after_move self (st_figures s2))).
Proof.
  intros Hc Hrect Hocc He Hto [Hr Hcol].
  destruct (move_legal_run s self to m p Hc Hrect Hocc He Hto)
    as (s2 & o & fg & cs1 & O2 & Ho & Hs & Hg1 & Hocc1 & Hrun).
  pose proof (py_wrap_range _ _ Hr) as Hr'.
  pose proof (py_wrap_range _ _ Hcol) as Hc'.
  destruct (store_cell_in_grid _ _ _ (wrapped s to) (Some self) Hg1 Hr' Hc')
    as (cs2 & H2 & Hg2 & Hocc2).
  rewrite <- (store_cell_wrapped _ _ _ to _ Hg1 Hr Hcol) in H2.
  rewrite H2 in Hrun.
  assert (∀ q, occ cs2 q = if decide (q = wrapped s to) then Some self
                           else if decide (q = p) then None
                                else occupant s q) as Hocc2'.
  { intros q. rewrite Hocc2. case_decide; [done|]. apply Hocc1. }
  destruct (ocf_fig _ _ O2 self fg Hs) as (fg2 & Hs2 & _).
  destruct (ocf_kind _ _ _ _ _ O2 Hs Hs2) as (Hk2 & _ & _).
  exists s2, o. unfold move.
  rewrite bind_run, eval_read_figure, exec_read_figure, Hs.
  destruct (decide (fig_kind fg = Pawn)) as [Hk|Hk].
  - destruct (store_cell_in_grid _ _ _ (wrapped s to) (Some self) Hg2 Hr' Hc')
      as (cs3 & H3 & Hg3 & Hocc3).
    rewrite <- (store_cell_wrapped _ _ _ to _ Hg2 Hr Hcol) in H3.
    exists cs3. split; [done|]. split; [done|]. split; [done|]. split.
    { intros q. rewrite Hocc3. case_decide as Hq; [done|].
      rewrite Hocc2'. by rewrite decide_False. }
    rewrite Hk. unfold Pawn_move. unfold bind at 1. rewrite Hrun.
    unfold Table_set_figure. unfold_m. rewrite H3. simpl.
    unfold set_table, set_cells. simpl. f_equal. f_equal.
    apply alter_after_move_pawn. intros fg' Hfg'.
    rewrite Hs2 in Hfg'. injection Hfg' as <-. congruence.
  - exists cs2. split; [done|]. split; [done|]. split; [done|].
    split; [done|].
    assert (move_eq : (match fig_kind fg with
                       | Pawn => Pawn_move self to
                       | _ => Figure_move self to
                       end) = Figure_move self to)
      by (by destruct (fig_kind fg)).
    rewrite move_eq, Hrun. f_equal. f_equal.
    apply alter_after_move. intros fg' Hfg'.
    rewrite Hs2 in Hfg'. injection Hfg' as <-. congruence.
Qed.

(** A legal move to an index pair out of range raises IndexError after
    the origin was emptied. *)
Lemma move_legal_out_of_range s self to m p :
  consistent s → rectangular s → occupant s p = Some self →
  eval (available_moves self) s = Ok m → to ∈ m →
  ¬ (- tbl_rows (st_table s) ≤ to.1 < tbl_rows (st_table s)
     ∧ - tbl_columns (st_table s) ≤ to.2 < tbl_columns (st_table s)) →
  ∃ s2 cs1,
    only_caches_filled s s2
    ∧ (∀ q, occ cs1 q = if decide (q = p) then None else occupant s q)
    ∧ move self to s
      = (Raise IndexError,
         mkState (mkTable (tbl_rows (st_table s))
                          (tbl_columns (st_table s)) cs1
                          (tbl_figures (st_table s2)))
                 (st_players s)
                 (alter (set_fig_available_moves None) self
                    (alter (set_fig_position None) self (st_figures s2)))).
Proof.
  intros Hc Hrect Hocc He Hto Hout.
  destruct (move_legal_run s self to m p Hc Hrect Hocc He Hto)
    as (s2 & o & fg & cs1 & O2 & Ho & Hs & Hg1 & Hocc1 & Hrun).
  rewrite (store_cell_grid_out _ _ _ _ _ Hg1 Hout) in Hrun.
  exists s2, cs1. split; [done|]. split; [done|].
  unfold move. rewrite bind_run, eval_read_figure, exec_read_figure, Hs.
  destruct (fig_kind fg); try exact Hrun.
  unfold Pawn_move. unfold bind at 1. by rewrite Hrun.
Qed.

(** ** Lemmas: the caches agree with the board after a move *)

Lemma occ_Some cs p g :
  occ cs p = Some g ↔
  ∃ r c, p = (Z.of_nat r, Z.of_nat c) ∧ cell cs r c = Some g.
Proof.
  unfold occ. destruct p as [x y]; simpl. split.
  - case_bool_decide as Hp; [|done]. intros Hc.
    exists (Z.to_nat x), (Z.to_nat y). split; [f_equal; lia | done].
  - intros (r & c & [= -> ->] & Hc).
    rewrite bool_decide_true by lia. by rewrite !Nat2Z.id.
Qed.

(** A figure that stands on one square only is found there. *)
Lemma locate_unique cs g q :
  occ cs q = Some g → (∀ q', occ cs q' = Some g → q' = q) →
  locate g cs 0 = Some q.
Proof.
  intros Hq Huniq. destruct (locate g cs 0) as [p'|] eqn:Hl.
  - apply locate_Some in Hl as (r & c & -> & Hc). simpl. f_equal.
    apply Huniq, occ_Some. eauto.
  - apply occ_Some in Hq as (r & c & _ & Hc).
    by apply (locate_None _ _ _ r c) in Hl.
Qed.

(** What makes a state consistent: the figure list is not cached (or is
    the scan of the board), every figure on the board stands on one square
    and is a stored object whose position cache is empty or holds that
    square. *)
Lemma consistent_intro s :
  figs_view s = scan (tbl_cells (st_table s)) →
  (∀ q q' g, occupant s q = Some g → occupant s q' = Some g → q = q') →
  (∀ q g, occupant s q = Some g →
          ∃ fg, st_figures s !! g = Some fg
                ∧ (fig_position fg = None ∨ fig_position fg = Some q)) →
  consistent s.
Proof.
  intros Hfv Huniq Hstore.
  assert (∀ q g, occupant s q = Some g → pos_view s g = Ok q) as Hpos.
  { intros q g Hq. destruct (Hstore q g Hq) as (fg & Hs & Hp).
    unfold pos_view, fig_view, pos_of. rewrite Hs. simpl.
    destruct Hp as [-> | ->]; [|done].
    rewrite (locate_unique _ g q); [done | exact Hq|].
    intros q' Hq'. by apply (Huniq q' q g). }
  assert (∀ g, g ∈ figs_view s → ∃ q, occupant s q = Some g) as Hon.
  { intros g. rewrite Hfv, elem_of_scan. intros (r & c & Hc).
    exists (Z.of_nat r, Z.of_nat c). apply occupant_Some. eauto. }
  constructor.
  - intros q g. split.
    + intros Hq. split; [|by apply Hpos].
      rewrite Hfv. apply elem_of_scan.
      apply occupant_Some in Hq as (r & c & _ & Hc). eauto.
    + intros [Hg Hq]. destruct (Hon g Hg) as [q' Hq'].
      pose proof (Hpos _ _ Hq') as Hq''. rewrite Hq in Hq''.
      by injection Hq'' as ->.
  - intros g Hg. destruct (Hon g Hg) as [q Hq]. eauto.
Qed.

(** What a consistent state gives for a figure on the board. *)
Lemma consistent_unique s q q' g :
  consistent s → occupant s q = Some g → occupant s q' = Some g → q = q'.
Proof.
  intros Hc H1 H2. apply (consistent_pos _ _ _ Hc) in H1, H2.
  rewrite H1 in H2. by injection H2.
Qed.

Lemma consistent_stored s q g :
  consistent s → occupant s q = Some g →
  ∃ fg, st_figures s !! g = Some fg
        ∧ (fig_position fg = None ∨ fig_position fg = Some q).
Proof.
  intros Hc Hq. apply (consistent_pos _ _ _ Hc) in Hq.
  unfold pos_view, fig_view, pos_of in Hq.
  destruct (st_figures s !! g) as [fg|]; [|done]. simpl in Hq.
  exists fg. split; [done|].
  destruct (fig_position fg) as [x|]; [|by left].
  injection Hq as ->. by right.
Qed.

Lemma ocf_stored s s2 q g :
  consistent s → only_caches_filled s s2 → occupant s q = Some g →
  ∃ fg2, st_figures s2 !! g = Some fg2
         ∧ (fig_position fg2 = None ∨ fig_position fg2 = Some q).
Proof.
  intros Hc O2 Hq. apply (consistent_stored s2).
  - destruct O2 as [V _ _]. constructor.
    + intros p' g'. unfold occupant, pos_view.
      rewrite <- (ve_cells _ _ V), <- (ve_figs _ _ V), <- (ve_fig _ _ V).
      apply (cs_occupant _ Hc).
    + intros g'. unfold pos_view.
      rewrite <- (ve_figs _ _ V), <- (ve_fig _ _ V).
      apply (cs_resolved _ Hc).
  - unfold occupant. by rewrite <- (ve_cells _ _ (ocf_view _ _ O2)).
Qed.

(** The state a move leaves is consistent. *)
Lemma consistent_relocated s s2 self p w cs' players :
  consistent s → only_caches_filled s s2 → occupant s p = Some self →
  (∀ q, occ cs' q = if decide (q = w) then Some self
                    else if decide (q = p) then None
                         else occupant s q) →
  consistent
    (mkState (mkTable (tbl_rows (st_table s)) (tbl_columns (st_table s))
                      cs' None)
             players (alter after_move self (st_figures s2))).
Proof.
  intros Hc O2 Hocc Hocc'.
  assert (∀ q g, occ cs' q = Some g →
            (q = w ∧ g = self)
            ∨ (q ≠ w ∧ q ≠ p ∧ g ≠ self ∧ occupant s q = Some g)) as Hcases.
  { intros q g. rewrite Hocc'. case_decide; [intros [= <-]; by left|].
    case_decide; [done|]. intros Hq. right.
    split; [done|]. split; [done|]. split; [|done]. intros ->.
    by pose proof (consistent_unique _ _ _ _ Hc Hq Hocc). }
  apply consistent_intro.
  - done.
  - intros q q' g Hq Hq'. unfold occupant in Hq, Hq'. simpl in Hq, Hq'.
    destruct (Hcases _ _ Hq) as [[Ea Eb]|(Na & Nb & Nc & H1)];
      destruct (Hcases _ _ Hq') as [[Ea' Eb']|(Na' & Nb' & Nc' & H2)];
      try congruence.
    by eapply consistent_unique.
  - intros q g Hq. unfold occupant in Hq. simpl in Hq. simpl.
    destruct (Hcases _ _ Hq) as [[-> ->]|(_ & _ & Hne & H1)].
    + destruct (ocf_stored _ _ _ _ Hc O2 Hocc) as (fg2 & Hs2 & _).
      exists (after_move fg2). rewrite lookup_alter_eq, Hs2.
      split; [done|]. by left.
    + destruct (ocf_stored _ _ _ _ Hc O2 H1) as (fg2 & Hs2 & Hp2).
      exists fg2. by rewrite lookup_alter_ne.
Qed.

Lemma consistent_view_eq s s' : view_eq s s' → consistent s → consistent s'.
Proof.
  intros V Hc. constructor.
  - intros p g. unfold occupant, pos_view.
    rewrite <- (ve_cells _ _ V), <- (ve_figs _ _ V), <- (ve_fig _ _ V).
    apply (cs_occupant _ Hc).
  - intros g. unfold pos_view.
    rewrite <- (ve_figs _ _ V), <- (ve_fig _ _ V).
    apply (cs_resolved _ Hc).
Qed.

Lemma rectangular_view_eq s s' : view_eq s s' → rectangular s → rectangular s'.
Proof.
  intros V. unfold rectangular.
  by rewrite (ve_rows _ _ V), (ve_columns _ _ V), (ve_cells _ _ V).
Qed.

(** A move that raises InvalidMove or MissingFigure only fills caches. *)
Lemma move_failure_fills s self to e :
  eval (move self to) s = Raise e →
  e = InvalidMove ∨ e = MissingFigure →
  only_caches_filled s (exec (move self to) s).
Proof.
  unfold move. rewrite eval_bind, exec_bind, eval_read_figure, exec_read_figure.
  destruct (st_figures s !! self) as [fg|]; [|intros; apply ocf_refl].
  destruct (fig_kind fg);
    first [apply Pawn_move_failure | apply Figure_move_failure].
Qed.

(** When a move returns, the destination was legal and its indices in
    range. *)
Lemma move_returns s self to p :
  consistent s → rectangular s → occupant s p = Some self →
  eval (move self to) s = Ok () →
  ∃ m, eval (available_moves self) s = Ok m ∧ to ∈ m
       ∧ (- tbl_rows (st_table s) ≤ to.1 < tbl_rows (st_table s)
          ∧ - tbl_columns (st_table s) ≤ to.2 < tbl_columns (st_table s)).
Proof.
  intros Hc Hrect Hocc Hret.
  assert (eval (Figure_move self to) s = Ok ()) as Hfm.
  { revert Hret. unfold move.
    rewrite eval_bind, eval_read_figure, exec_read_figure.
    destruct (st_figures s !! self) as [fg|]; [|done].
    destruct (fig_kind fg); try done.
    unfold Pawn_move. rewrite eval_bind.
    by destruct (eval (Figure_move self to) s) as [[]|]. }
  destruct (Figure_move_returns _ _ _ Hfm) as (m & He & Hto).
  exists m. split; [done|]. split; [done|].
  destruct (decide (- tbl_rows (st_table s) ≤ to.1 < tbl_rows (st_table s)
                    ∧ - tbl_columns (st_table s) ≤ to.2
                        < tbl_columns (st_table s))) as [|Hout]; [done|].
  destruct (move_legal_out_of_range s self to m p Hc Hrect Hocc He Hto Hout)
    as (s2 & cs1 & _ & _ & Hrun).
  unfold eval in Hret. by rewrite Hrun in Hret.
Qed.

(** The state a move leaves when it returns is consistent, on a
    rectangular board of the same extents. *)
Lemma move_returns_consistent s self to p :
  consistent s → rectangular s → occupant s p = Some self →
  eval (move self to) s = Ok () →
  consistent (exec (move self to) s) ∧ rectangular (exec (move self to) s).
Proof.
  intros Hc Hrect Hocc Hret.
  destruct (move_returns s self to p Hc Hrect Hocc Hret)
    as (m & He & Hto & Hin).
  destruct (move_legal_in_range s self to m p Hc Hrect Hocc He Hto Hin)
    as (s2 & o & cs' & O2 & Ho & Hg & Hocc' & Hrun).
  unfold exec. rewrite Hrun. simpl. split.
  - by apply (consistent_relocated s s2 self p (wrapped s to)).
  - exact Hg.
Qed.

(** The piece a player asks to move stands on the board. *)
Lemma cell_at_occupant s from f :
  cell_at (tbl_cells (st_table s)) from = Ok (Some f) →
  ∃ p, occupant s p = Some f.
Proof.
  intros (r & c & Hc)%cell_at_on_board.
  exists (Z.of_nat r, Z.of_nat c). apply occupant_Some. eauto.
Qed.

Lemma is_query_Player_figures p : is_query (Player_figures p).
Proof.
  unfold Player_figures. apply is_query_bind; [query|]. intros pl.
  destruct (pl_figures pl); [query|].
  apply is_query_bind; [query|]. intros fs.
  apply is_query_filter_m. query.
Qed.

(** What a request [player.move(_from, to)] leaves when it raises one of
    the three exceptions of the engine. *)
Lemma Player_move_failure s p from to e :
  eval (Player_move p from to) s = Raise e →
  e = InvalidMove ∨ e = MissingFigure ∨ e = AccessError →
  only_caches_filled s (exec (Player_move p from to) s).
Proof.
  unfold Player_move. rewrite eval_bind, exec_bind.
  rewrite eval_Table_get_figure, exec_Table_get_figure.
  destruct (cell_at (tbl_cells (st_table s)) from) as [[f|]|e0];
    [| |intros; apply ocf_refl].
  - rewrite eval_bind, exec_bind, eval_Figure_player, exec_Figure_player.
    destruct (owner_view s f) as [q|e1]; [|intros; apply ocf_refl].
    case_bool_decide as Hq; simpl.
    + intros He [->|[->| ->]].
      * apply (move_failure_fills _ _ _ InvalidMove); [done | by left].
      * apply (move_failure_fills _ _ _ MissingFigure); [done | by right].
      * by apply never_access_move in He.
    + intros _ _. apply ocf_query. query.
  - intros _ _. apply ocf_query.
    apply is_query_bind; [apply is_query_Player_figures|]. query.
Qed.

(** When the request returns, it was the move of a piece on the board. *)
Lemma Player_move_returns s p from to :
  eval (Player_move p from to) s = Ok () →
  ∃ f q, occupant s q = Some f ∧ owner_view s f = Ok p
         ∧ Player_move p from to s = move f to s.
Proof.
  unfold Player_move. intros Hret.
  rewrite bind_run, eval_Table_get_figure, exec_Table_get_figure.
  rewrite eval_bind, eval_Table_get_figure, exec_Table_get_figure in Hret.
  destruct (cell_at (tbl_cells (st_table s)) from) as [[f|]|e0] eqn:Hcell;
    [| |done].
  - destruct (cell_at_occupant _ _ _ Hcell) as [q Hq].
    rewrite bind_run, eval_Figure_player, exec_Figure_player.
    rewrite eval_bind, eval_Figure_player, exec_Figure_player in Hret.
    destruct (owner_view s f) as [o|e1] eqn:Ho; [|done].
    case_bool_decide as Hp; simpl in *.
    + subst o. by exists f, q.
    + rewrite !eval_bind in Hret.
      destruct (eval (read_player p) s); [|done].
      by destruct (eval (read_player o) _).
  - exfalso. revert Hret. rewrite eval_bind.
    destruct (eval (Player_figures p) s); [|done].
    rewrite eval_bind. by destruct (eval (map_m Figure_position _) _).
Qed.

(** ** Lemmas: where the pieces land *)

Lemma slides_on_board s sp p d q : slides s sp p d q → on_board s q.
Proof.
  intros (n & _ & _ & Hr & _). unfold in_reach in Hr.
  case_decide; [|done]. unfold on_board. lia.
Qed.

Lemma slides_free s sp p d q : slides s sp p d q → free_for s sp q.
Proof. by intros (n & _ & _ & _ & _ & Hf). Qed.

(** Every legal destination of a sliding piece is reached by a slide. *)
Lemma sliding_moves_slide s self fg p sp :
  consistent s → rectangular s →
  st_figures s !! self = Some fg →
  fig_kind fg = Rook ∨ fig_kind fg = Bishop ∨ fig_kind fg = Queen →
  fig_available_moves fg = None →
  occupant s p = Some self → owner_view s self = Ok sp →
  ∃ m, eval (available_moves self) s = Ok m
       ∧ ∀ q, q ∈ m → ∃ d, slides s sp p d q.
Proof.
  intros Hc Hrect Hs Hk Hm Hocc Hown.
  pose proof (consistent_pos _ _ _ Hc Hocc) as Hpos.
  pose proof (occupant_in_grid _ _ _ Hrect Hocc) as Hon.
  destruct p as [r c]. fold (on_board s (r, c)) in Hon.
  destruct Hk as [Hk|[Hk|Hk]].
  - destruct (Rook_moves_spec s self fg r c sp Hc Hs Hk Hm Hpos Hown)
      as (m & He & Hspec).
    exists m. split; [done|]. intros q Hq. apply Hspec in Hq.
    apply (rook_lists_slide _ _ _ _ _ Hc Hon) in Hq as (d & _ & Hd). eauto.
  - destruct (Bishop_moves_spec s self fg r c sp Hc Hs Hk Hm Hpos Hown Hon)
      as (m & He & Hspec).
    exists m. split; [done|]. intros q Hq. apply Hspec in Hq.
    apply (bishop_lists_slide _ _ _ _ _ Hc Hon) in Hq as (d & _ & Hd). eauto.
  - destruct (Queen_moves_spec s self fg r c sp Hc Hs Hk Hm Hpos Hown Hon)
      as (m & He & Hspec).
    exists m. split; [done|]. intros q Hq. apply Hspec in Hq.
    destruct Hq as [Hq|Hq].
    + apply (rook_lists_slide _ _ _ _ _ Hc Hon) in Hq as (d & _ & Hd). eauto.
    + apply (bishop_lists_slide _ _ _ _ _ Hc Hon) in Hq as (d & _ & Hd).
      eauto.
Qed.

(** ** Lemmas: the pawn flags through a move *)

Lemma preserves_flags_view {A} s0 (m : M A) :
  (∀ s, view_eq s (exec m s)) → preserves (same_flags s0) m.
Proof.
  intros Hv s Hs g. unfold first_move_view.
  rewrite <- (ve_fig _ _ (Hv s) g). apply Hs.
Qed.

Lemma preserves_flags_figures {A} s0 (m : M A) :
  (∀ s, st_figures (exec m s) = st_figures s) →
  preserves (same_flags s0) m.
Proof.
  intros Hf s Hs g. rewrite first_move_view_eq, Hf, <- first_move_view_eq.
  apply Hs.
Qed.

Lemma preserves_flags_update s0 self u :
  (∀ fg, fig_first_move (u fg) = fig_first_move fg) →
  preserves (same_flags s0) (update_figure self u).
Proof.
  intros Hu s Hs g. rewrite <- Hs, !first_move_view_eq.
  unfold update_figure. unfold_m. rewrite lookup_alter.
  case_decide as Hd; [subst g|done].
  destruct (st_figures s !! self) as [fg|]; [simpl|done]. by rewrite Hu.
Qed.

Lemma preserves_flags_query {A} s0 (m : M A) :
  is_query m → preserves (same_flags s0) m.
Proof.
  intros Hq. apply preserves_flags_view. intros s. apply (q_fill _ Hq).
Qed.

Ltac flags_leaf :=
  first
    [ apply preserves_flags_view; intros ?; apply view_eq_available_moves
    | apply preserves_flags_update; done
    | apply preserves_flags_figures; intros ?;
        solve [apply st_figures_Table_set_figure | reflexivity]
    | apply preserves_flags_query; solve [query] ].

Lemma preserves_flags_Figure_move s0 self to :
  preserves (same_flags s0) (Figure_move self to).
Proof.
  unfold Figure_move, Figure_move_validity, Figure_reset, Player_reset,
    Table_reset.
  preserves_with flags_leaf.
Qed.

(** A cell that was written can be written again. *)
Lemma store_cell_again cs p x cs' y :
  store_cell cs p x = Ok cs' → ∃ cs'', store_cell cs' p y = Ok cs''.
Proof.
  rewrite !store_cell_address.
  destruct (address cs p) as [[r k]|] eqn:Ha; [|done].
  destruct (cs !! r) as [row|] eqn:Hrow; [|done].
  intros [= <-]. rewrite (address_insert _ _ _ _ _ _ Hrow), Ha.
  rewrite list_lookup_insert_eq by (by eapply lookup_lt_Some). eauto.
Qed.

Lemma post_raise {A} e (Q : A → State → Prop) : post (raise e) Q.
Proof. by intros s a. Qed.

(** When [Figure.move] returns, the destination cell can be written once
    more. *)
Lemma Figure_move_leaves_writable self to s :
  eval (Figure_move self to) s = Ok () →
  ∃ cs'', store_cell (tbl_cells (st_table (exec (Figure_move self to) s)))
                     to (Some self) = Ok cs''.
Proof.
  assert (post (Figure_move self to)
            (λ _ s', ∃ cs'', store_cell (tbl_cells (st_table s')) to
                                        (Some self) = Ok cs'')) as Hpost.
  { unfold Figure_move.
    apply post_bind. intros ok. destruct (negb ok).
    - repeat (apply post_bind; intros ?). apply post_raise.
    - apply post_bind. intros p. apply post_bind. intros _.
      apply post_bind. intros _. intros s1 [] Hret.
      rewrite eval_bind, eval_Table_set_figure in Hret.
      rewrite exec_bind, eval_Table_set_figure, exec_Table_set_figure.
      destruct (store_cell (tbl_cells (st_table s1)) to (Some self))
        as [cs2|] eqn:H2; [|done].
      assert (tbl_cells (st_table
                (exec (pl <<- Figure_player self;; Player_reset pl)
                      (set_table (set_cells cs2 (st_table s1)) s1))) = cs2)
        as ->.
      { rewrite exec_bind, eval_Figure_player, exec_Figure_player.
        by destruct (owner_view _ self). }
      by eapply store_cell_again. }
  intros Hret. by apply (Hpost s ()).
Qed.

(** ** Lemmas: the players through a move *)

Lemma same_players_refl s : same_players s s.
Proof. intros p. by destruct (st_players s !! p). Qed.

Lemma preserves_players_same {A} s0 (m : M A) :
  (∀ s, st_players (exec m s) = st_players s) →
  preserves (same_players s0) m.
Proof. intros Hf s Hs p. rewrite Hf. apply Hs. Qed.

Lemma preserves_players_view {A} s0 (m : M A) :
  (∀ s, view_eq s (exec m s)) → preserves (same_players s0) m.
Proof.
  intros Hv. apply preserves_players_same. intros s.
  symmetry. apply (ve_players _ _ (Hv s)).
Qed.

Lemma preserves_players_query {A} s0 (m : M A) :
  is_query m → preserves (same_players s0) m.
Proof.
  intros Hq. apply preserves_players_view. intros s. apply (q_fill _ Hq).
Qed.

Lemma preserves_players_reset s0 q :
  preserves (same_players s0) (update_player q (set_pl_figures None)).
Proof.
  intros s Hs p. specialize (Hs p). unfold update_player. unfold_m.
  rewrite lookup_alter. case_decide as Hd; [subst q|done].
  destruct (st_players s !! p) as [pl'|], (st_players s0 !! p) as [pl|];
    simpl; try done.
  destruct Hs as (? & ? & ?). done.
Qed.

Ltac players_leaf :=
  first
    [ apply preserves_players_view; intros ?; apply view_eq_available_moves
    | apply preserves_players_reset
    | apply preserves_players_same; intros ?;
        solve [apply st_players_Table_set_figure | reflexivity]
    | apply preserves_players_query; solve [query] ].

Lemma preserves_players_Figure_move s0 self to :
  preserves (same_players s0) (Figure_move self to).
Proof.
  unfold Figure_move, Figure_move_validity, Figure_reset, Player_reset,
    Table_reset.
  preserves_with players_leaf.
Qed.

Lemma preserves_players_move s0 self to :
  preserves (same_players s0) (move self to).
Proof.
  unfold move, Pawn_move.
  preserves_with
    ltac:(first [apply preserves_players_Figure_move | players_leaf]).
Qed.

Lemma preserves_players_Player_move s0 p from to :
  preserves (same_players s0) (Player_move p from to).
Proof.
  unfold Player_move.
  preserves_with
    ltac:(first [ apply preserves_players_move
                | apply preserves_players_query, is_query_Player_figures
                | players_leaf ]).
Qed.

(** A filtering comprehension keeps a sublist. *)
Lemma filter_m_sublist {A} (f : A → M bool) s l l' :
  (∀ x, is_query (f x)) → eval (filter_m f l) s = Ok l' → l' `sublist_of` l.
Proof.
  intros Hf. revert l'. induction l as [|x l IH]; intros l'; simpl.
  - by intros [= <-].
  - rewrite eval_bind_query; [|apply Hf|query; by apply is_query_filter_m].
    destruct (eval (f x) s) as [b|]; [|done].
    rewrite eval_bind_query; [|by apply is_query_filter_m|query].
    destruct (eval (filter_m f l) s) as [ys|]; [|done].
    intros [= <-]. specialize (IH ys eq_refl).
    destruct b; [by apply sublist_skip | by apply sublist_cons].
Qed.

(** ** Lemmas: a new object of another class on the same square *)






(** The getter of the Queen class answers the union of what the getters of
    the Rook and Bishop classes answer for the same object; when one of
    them raises, it raises the same exception.  For an object whose cache
    is filled the three answer the cached set. *)
Lemma Queen_getter_union (s : State) (self : fid) :
  eval (available_moves_as Queen self) s
  = union_result (eval (available_moves_as Rook self) s)
                 (eval (available_moves_as Bishop self) s).
Proof.
  destruct (st_figures s !! self) as [fg|] eqn:Hs.
  - destruct (fig_available_moves fg) as [m|] eqn:Hm.
    + unfold eval.
      rewrite !(available_moves_as_cached _ _ _ _ _ Hs Hm). simpl.
      by rewrite union_idemp_L.
    + simpl. rewrite (eval_Queen_available_moves _ _ _ Hs Hm),
        (eval_Rook_available_moves _ _ _ Hs Hm),
        (eval_Bishop_available_moves _ _ _ Hs Hm).
      destruct (eval (Rook_straight_moves self) s) as [[[[up dn] lf] rg]|e];
        [|done].
      destruct (eval (Bishop_oblique_moves self) s) as [[[[lu ld] ru] rd]|e];
        [|done].
      simpl. f_equal.
      by rewrite !union_empty_l_L, !union_empty_r_L, <- !(assoc_L (∪)).
  - simpl. unfold Queen_available_moves, Rook_available_moves,
      Bishop_available_moves.
    by rewrite !eval_bind, !eval_read_figure, Hs.
Qed.

(** ** Lemmas: a move that returns has reset the caches of its figure *)

Lemma post_then {A B} (m : M A) (k : A → M B) (P : State → Prop) :
  post m (λ _, P) → (∀ a, preserves P (k a)) → post (bind m k) (λ _, P).
Proof.
  intros Hm Hk s b. rewrite eval_bind, exec_bind.
  destruct (eval m s) as [a|] eqn:Ha; [|done].
  intros _. apply Hk. by apply (Hm s a).
Qed.

Lemma Figure_move_resets self to :
  post (Figure_move self to) (λ _, caches_empty self).
Proof.
  unfold Figure_move.
  apply post_bind. intros ok. destruct (negb ok).
  { repeat (apply post_bind; intros ?). apply post_raise. }
  apply post_bind. intros p. apply post_bind. intros _.
  intros s1 [] Hret. revert Hret.
  unfold Figure_reset, Table_set_figure, Figure_player, Player_reset,
    Table_reset, caches_empty.
  unfold_m.
  destruct (store_cell (tbl_cells (st_table s1)) to (Some self)); [|done].
  simpl. rewrite !lookup_alter_eq.
  destruct (st_figures s1 !! self) as [fg|] eqn:Hs; [|done].
  simpl. intros _. eexists. rewrite !lookup_alter_eq, Hs. simpl. eauto.
Qed.

Lemma preserves_caches_empty_figures {A} self (m : M A) :
  (∀ s, st_figures (exec m s) = st_figures s) →
  preserves (caches_empty self) m.
Proof. intros Hf s (fg & Hs & H). exists fg. by rewrite Hf. Qed.

Lemma preserves_caches_empty_flag self g b :
  preserves (caches_empty self) (update_figure g (set_fig_first_move b)).
Proof.
  intros s (fg & Hs & Hp & Hm). unfold caches_empty, update_figure.
  unfold_m. rewrite lookup_alter. case_decide as Hd.
  - subst g. rewrite Hs. simpl. eauto.
  - eauto.
Qed.

(** When a move returns, both caches of the moved figure are empty. *)
Lemma move_returns_resets self to s :
  eval (move self to) s = Ok () → caches_empty self (exec (move self to) s).
Proof.
  assert (post (move self to) (λ _, caches_empty self)) as Hpost.
  { unfold move. apply post_bind. intros fg.
    destruct (fig_kind fg); try apply Figure_move_resets.
    unfold Pawn_move. apply post_then; [apply Figure_move_resets|].
    intros _. apply preserves_bind; [apply preserves_caches_empty_flag|].
    intros _. apply preserves_caches_empty_figures.
    intros s1. apply st_figures_Table_set_figure. }
  intros Hret. by apply (Hpost s ()).
Qed.

(** ** Lemmas: emptying the board *)

(** After [position] has answered, the square is cached. *)
Lemma Figure_position_run st g q :
  pos_view st g = Ok q →
  ∃ st1, Figure_position g st = (Ok q, st1) ∧ view_eq st st1
         ∧ ∃ fg, st_figures st1 !! g = Some fg ∧ fig_position fg = Some q.
Proof.
  intros Hq. exists (exec (Figure_position g) st).
  split; [by rewrite (run_eq (Figure_position g) st), eval_Figure_position, Hq|].
  split; [apply (fill_Figure_position g st)|].
  rewrite exec_Figure_position.
  unfold pos_view, fig_view, pos_of in Hq.
  destruct (st_figures st !! g) as [fg|] eqn:Hs; [simpl in Hq|done].
  destruct (fig_position fg) as [p'|] eqn:Hp.
  - injection Hq as ->. eauto.
  - destruct (locate g (tbl_cells (st_table st)) 0) as [p'|]; [|done].
    injection Hq as ->. simpl. rewrite lookup_alter_eq, Hs. simpl. eauto.
Qed.

(** The loop of [delete_all_figures], started in a state [st] whose board
    is the board of the consistent state [s] with some cells emptied and
    in which [position] still answers as in [s]. *)
Lemma delete_loop s l :
  consistent s → rectangular s →
  (∀ g, g ∈ l → ∃ q, occupant s q = Some g) →
  ∀ st,
    grid (tbl_rows (st_table s)) (tbl_columns (st_table s))
         (tbl_cells (st_table st)) →
    (∀ q g, occupant st q = Some g → occupant s q = Some g) →
    (∀ q g, occupant s q = Some g → pos_view st g = Ok q) →
    ∃ st',
      for_each l (λ i, p <<- Figure_position i ;; Table_set_figure None p) st
      = (Ok (), st')
      ∧ grid (tbl_rows (st_table s)) (tbl_columns (st_table s))
             (tbl_cells (st_table st'))
      ∧ (∀ q g, occupant st' q = Some g → occupant st q = Some g)
      ∧ (∀ q g, g ∈ l → occupant s q = Some g → occupant st' q = None)
      ∧ tbl_rows (st_table st') = tbl_rows (st_table st)
      ∧ tbl_columns (st_table st') = tbl_columns (st_table st)
      ∧ st_players st' = st_players st.
Proof.
  intros Hc Hrect. induction l as [|g l IH]; intros Hl st Hg Hsub Hpos.
  { exists st. split; [done|]. split; [done|]. split; [done|].
    split; [|done]. intros q g Hin. by apply elem_of_nil in Hin. }
  destruct (Hl g) as [q Hq]; [by left|].
  destruct (Figure_position_run st g q (Hpos _ _ Hq))
    as (st1 & Hrun1 & V1 & fg1 & Hs1 & Hp1).
  destruct (occupant_in_grid _ _ _ Hrect Hq) as [Hr Hcol].
  rewrite (ve_cells _ _ V1) in Hg.
  destruct (store_cell_in_grid _ _ _ q None Hg Hr Hcol)
    as (cs2 & H2 & Hg2 & Hocc2).
  set (st2 := set_table (set_cells cs2 (st_table st1)) st1).
  assert (∀ x g', occupant st2 x = Some g' → occupant st x = Some g')
    as Hsub2.
  { intros x g'. unfold occupant at 1. simpl. rewrite Hocc2.
    case_decide; [done|]. unfold occupant. by rewrite (ve_cells _ _ V1). }
  destruct (IH (λ g' Hg', Hl g' (list_elem_of_further _ _ _ Hg')) st2)
    as (st' & Hrun & Hg' & Hsub' & Hclr & Hrows & Hcols & Hpl).
  - exact Hg2.
  - intros x g' Hx. by apply Hsub, Hsub2.
  - intros q' g' Hq'.
    assert (pos_view st1 g' = Ok q') as Hp1'.
    { unfold pos_view. rewrite <- (ve_fig _ _ V1 g'). by apply Hpos. }
    unfold pos_view, fig_view, pos_of in Hp1' |- *. simpl.
    destruct (st_figures st1 !! g') as [fg'|] eqn:Hs'; [simpl in *|done].
    destruct (fig_position fg') as [x|] eqn:Hx; [done|].
    assert (g' ≠ g) as Hne by (intros ->; congruence).
    assert (q' ≠ q) as Hqq.
    { intros ->. apply Hne.
      pose proof (eq_trans (eq_sym Hq') Hq) as E. by injection E. }
    destruct (locate g' (tbl_cells (st_table st1)) 0) as [y|] eqn:Hloc;
      [|done].
    injection Hp1' as ->.
    rewrite (locate_unique cs2 g' q'); [done| |].
    + rewrite Hocc2, decide_False by done.
      apply locate_Some in Hloc as (r & c & -> & Hcell).
      apply occ_Some. eauto.
    + intros x' Hx'. apply (consistent_unique s x' q' g' Hc); [|done].
      apply Hsub, Hsub2. exact Hx'.
  - exists st'. split.
    { simpl. unfold bind at 1. unfold bind at 1. rewrite Hrun1.
      unfold Table_set_figure. unfold_m. rewrite H2. simpl.
      exact Hrun. }
    split; [done|]. split.
    { intros x g' Hx. by apply Hsub2, Hsub'. }
    split.
    { intros x g' Hin Hx. apply elem_of_cons in Hin as [->|Hin].
      - assert (x = q) as -> by (by eapply consistent_unique).
        destruct (occupant st' q) as [g''|] eqn:Ho; [|done].
        apply Hsub' in Ho. unfold occupant in Ho. simpl in Ho.
        rewrite Hocc2, decide_True in Ho by done. done.
      - by eapply Hclr. }
    rewrite Hrows, Hcols, Hpl. simpl.
    by rewrite (ve_rows _ _ V1), (ve_columns _ _ V1), (ve_players _ _ V1).
Qed.


(** * Properties of the engine *)

(** C1 (as amended).  A move request that raises InvalidMove (the
    destination is not in the legal-move set) or MissingFigure leaves the
    board occupancy, the players, every figure's owner, pawn flag and
    position as they were; the caches are not all unchanged, but a cache
    that held a value before the call still holds that value, so the only
    change is that caches empty before the call may have been filled by the
    legality check. *)
Theorem failed_move_only_fills_caches (s : State) (self : fid) (to : pos)
    (e : Exn) :
  eval (move self to) s = Raise e →
  e = InvalidMove ∨ e = MissingFigure →
  only_caches_filled s (exec (move self to) s).
Proof.
  unfold move. rewrite eval_bind, exec_bind, eval_read_figure, exec_read_figure.
  destruct (st_figures s !! self) as [fg|]; [|intros; apply ocf_refl].
  destruct (fig_kind fg);
    first [apply Pawn_move_failure | apply Figure_move_failure].
Qed.

Lemma failed_move_only_fills_caches_witness :
  eval (move 17%nat (3, 3)) standard_position = Raise InvalidMove
  ∧ only_caches_filled standard_position
      (exec (move 17%nat (3, 3)) standard_position).
Proof.
  split; [by vm_compute|].
  apply (failed_move_only_fills_caches standard_position 17%nat (3, 3)
           InvalidMove); [by vm_compute | by left].
Defined.

(** C1 as stated fails: in the starting position the knight on (7, 1) is
    asked to move to (3, 3); the request raises InvalidMove and the state
    after the call differs from the state before it (the knight's
    legal-move cache, empty before, is now filled). *)
Lemma failed_move_changes_caches :
  eval (move 17%nat (3, 3)) standard_position = Raise InvalidMove
  ∧ exec (move 17%nat (3, 3)) standard_position ≠ standard_position.
Proof.
  split; [by vm_compute|].
  intros H.
  apply (f_equal (λ s, match st_figures s !! 17%nat with
                       | Some fg => bool_decide (fig_available_moves fg = None)
                       | None => false
                       end)) in H.
  vm_compute in H. discriminate.
Qed.

(** C2 (as amended).  A rook whose legal-move cache is empty, in a
    consistent position on a rectangular board, with an opponent piece at
    distance 3 and a friendly piece at distance 5 on one of its four rays
    and no other piece on that ray: the squares of that ray in its
    legal-move set are exactly those at distances 1, 2 and 3. *)
Theorem rook_ray_truncation (s : State) (self : fid) (fg : Figure)
    (from : pos) (d : Ray) (opp fr : fid) :
  consistent s → rectangular s →
  st_figures s !! self = Some fg → fig_kind fg = Rook →
  fig_available_moves fg = None →
  occupant s from = Some self →
  occupant s (ray_square from d 3) = Some opp →
  owner_view s opp ≠ owner_view s self →
  occupant s (ray_square from d 5) = Some fr →
  owner_view s fr = owner_view s self →
  (∀ n, 1 ≤ n → n ≠ 3 → n ≠ 5 → occupant s (ray_square from d n) = None) →
  ∃ m, eval (available_moves self) s = Ok m
       ∧ ∀ n, 1 ≤ n → (ray_square from d n ∈ m ↔ n ≤ 3).
Proof.
  intros Hc Hrect Hs Hk Hm Hself Hopp Hopp_o Hfr Hfr_o Hempty.
  destruct from as [r c].
  pose proof (consistent_pos _ _ _ Hc Hself) as Hpos.
  destruct (occupant_owner _ _ _ Hc Hself) as [sp Hsp].
  destruct (occupant_owner _ _ _ Hc Hopp) as [oo Hoo].
  rewrite Hsp in Hfr_o. rewrite Hsp, Hoo in Hopp_o.
  assert (sp ≠ oo) as Hne by congruence.
  destruct (Rook_moves_spec s self fg r c sp Hc Hs Hk Hm Hpos Hsp)
    as (m & He & Hspec).
  pose proof (occupant_in_grid _ _ _ Hrect Hopp) as Hg3.
  pose proof (occupant_in_grid _ _ _ Hrect Hfr) as Hg5.
  pose proof (occupant_in_grid _ _ _ Hrect Hself) as Hg0.
  exists m. split; [done|]. intros n Hn. rewrite Hspec.
  rewrite !kept_before_range, !kept_after_range.
  assert (∀ g y o, 1 ≤ y → occupant s (ray_square (r, c) d y) = Some g →
                   owner_view s g = Ok o →
                   (y = 3 ∧ o = oo) ∨ (y = 5 ∧ o = sp)) as Hocc.
  { intros g y o Hy Hg Ho.
    destruct (decide (y = 3)) as [->|H3]; [left; split; [done|]; congruence|].
    destruct (decide (y = 5)) as [->|H5]; [right; split; [done|]; congruence|].
    rewrite Hempty in Hg by done. done. }
  destruct d; simpl in *; split.
  - intros [H|[H|[H|H]]]; destruct H as (x & Heq & Hx & HC);
      simplify_eq; try lia.
    destruct (HC opp (r - 3) oo Hopp) as [_ H2]; [lia|done|].
    apply H2 in Hne. lia.
  - intros Hn3. left. exists (r - n). split; [done|]. split; [lia|].
    intros g y o Hg Hy Ho.
    destruct (Hocc g (r - y) o) as [[? ->]|[? ->]];
      [lia | by replace (r - (r - y)) with y by lia | done | |];
      split; intros; try done; lia.
  - intros [H|[H|[H|H]]]; destruct H as (x & Heq & Hx & HC);
      simplify_eq; try lia.
    destruct (HC opp (r + 3) oo Hopp) as [_ H2]; [lia|done|].
    apply H2 in Hne. lia.
  - intros Hn3. right; left. exists (r + n). split; [done|]. split; [lia|].
    intros g y o Hg Hy Ho.
    destruct (Hocc g (y - r) o) as [[? ->]|[? ->]];
      [lia | by replace (r + (y - r)) with y by lia | done | |];
      split; intros; try done; lia.
  - intros [H|[H|[H|H]]]; destruct H as (x & Heq & Hx & HC);
      simplify_eq; try lia.
    destruct (HC opp (c - 3) oo Hopp) as [_ H2]; [lia|done|].
    apply H2 in Hne. lia.
  - intros Hn3. right; right; left. exists (c - n).
    split; [done|]. split; [lia|].
    intros g y o Hg Hy Ho.
    destruct (Hocc g (c - y) o) as [[? ->]|[? ->]];
      [lia | by replace (c - (c - y)) with y by lia | done | |];
      split; intros; try done; lia.
  - intros [H|[H|[H|H]]]; destruct H as (x & Heq & Hx & HC);
      simplify_eq; try lia.
    destruct (HC opp (c + 3) oo Hopp) as [_ H2]; [lia|done|].
    apply H2 in Hne. lia.
  - intros Hn3. right; right; right. exists (c + n).
    split; [done|]. split; [lia|].
    intros g y o Hg Hy Ho.
    destruct (Hocc g (y - c) o) as [[? ->]|[? ->]];
      [lia | by replace (c + (y - c)) with y by lia | done | |];
      split; intros; try done; lia.
Qed.

Lemma rook_ray_truncation_witness :
  ∃ m, eval (available_moves 0%nat) rook_position = Ok m
       ∧ ∀ n, 1 ≤ n → (ray_square (4, 0) RayRight n ∈ m ↔ n ≤ 3).
Proof.
  apply (rook_ray_truncation rook_position 0%nat
           (Figure_init Rook 0%nat) (4, 0) RayRight 1%nat 2%nat).
  - apply consistentb_sound. by vm_compute.
  - split; [by vm_compute|]. vm_compute. repeat constructor.
  - by vm_compute.
  - done.
  - done.
  - by vm_compute.
  - by vm_compute.
  - by vm_compute.
  - by vm_compute.
  - by vm_compute.
  - intros n Hn H3 H5. destruct (decide (n < 8)) as [Hlt|Hge].
    + assert (n = 1 ∨ n = 2 ∨ n = 4 ∨ n = 6 ∨ n = 7) as Hcases by lia.
      destruct Hcases as [->|[->|[->|[->| ->]]]]; by vm_compute.
    + unfold occupant, occ, ray_square. simpl.
      rewrite bool_decide_true by lia.
      unfold cell. simpl.
      by rewrite lookup_ge_None_2 by (simpl; lia).
Defined.

(** C2 as stated fails for a rook whose legal-move cache holds a set
    computed earlier.  With the rook on (4, 0), a Black pawn on (3, 3) and
    a White pawn on (4, 5), White asks for the rook move (4, 0) to (0, 7),
    which is refused and caches the legal-move set, and Black then steps
    the pawn to (4, 3).  The position is consistent; on the ray to the
    right the only pieces are the opponent pawn at distance 3 and the
    friendly pawn at distance 5; and yet the square at distance 4 is in the
    rook's legal-move set, and the move to it, over the pawn, returns. *)
Lemma rook_cached_set_passes_the_block :
  consistent rook_position_by_play ∧ rectangular rook_position_by_play
  ∧ occupant rook_position_by_play (4, 0) = Some 0%nat
  ∧ fig_kind <$> st_figures rook_position_by_play !! 0%nat = Some Rook
  ∧ occupant rook_position_by_play (ray_square (4, 0) RayRight 3)
    = Some 1%nat
  ∧ owner_view rook_position_by_play 1%nat
    ≠ owner_view rook_position_by_play 0%nat
  ∧ occupant rook_position_by_play (ray_square (4, 0) RayRight 5)
    = Some 2%nat
  ∧ owner_view rook_position_by_play 2%nat
    = owner_view rook_position_by_play 0%nat
  ∧ (∀ n, 1 ≤ n → n ≠ 3 → n ≠ 5 →
          occupant rook_position_by_play (ray_square (4, 0) RayRight n)
          = None)
  ∧ (∃ m, eval (available_moves 0%nat) rook_position_by_play = Ok m
          ∧ ray_square (4, 0) RayRight 4 ∈ m)
  ∧ eval (Player_move 0%nat (4, 0) (4, 4)) rook_position_by_play = Ok ().
Proof.
  split; [apply consistentb_sound; by vm_compute|].
  split; [split; [by vm_compute | vm_compute; repeat constructor]|].
  repeat (split; [by vm_compute|]).
  split; [|split; [|by vm_compute]].
  - intros n Hn H3 H5. destruct (decide (n < 8)) as [Hlt|Hge].
    + assert (n = 1 ∨ n = 2 ∨ n = 4 ∨ n = 6 ∨ n = 7) as Hcases by lia.
      destruct Hcases as [->|[->|[->|[->| ->]]]]; by vm_compute.
    + unfold occupant, occ, ray_square. simpl fst. simpl snd.
      rewrite bool_decide_true by lia.
      unfold cell.
      destruct (tbl_cells (st_table rook_position_by_play)
                  !! Z.to_nat 4) as [row|] eqn:Hrow; [|done].
      assert (length row = 8%nat) as Hlen.
      { revert Hrow. vm_compute. by intros [= <-]. }
      by rewrite lookup_ge_None_2 by lia.
  - exists (list_to_set [(0, 0); (7, 0); (5, 0); (3, 0); (6, 0); (2, 0);
                         (1, 0); (4, 3); (4, 1); (4, 2); (4, 4)]).
    split; [by vm_compute|].
    rewrite elem_of_list_to_set, !elem_of_cons. unfold ray_square. simpl.
    tauto.
Qed.

(** C3 (as amended).  A knight or a king whose legal-move cache is empty,
    in a consistent position: the square an offset of its table leads to is
    in its legal-move set exactly when both coordinates lie in
    [0, rows] x [0, columns], bounds included, and the square is empty or
    holds a figure of another player.  No other square is looked at: a
    knight whose eight neighbouring squares all hold friendly pieces
    reaches every L-shaped destination that is in bounds and empty. *)
Theorem leaper_destination_legal (s : State) (self : fid) (fg : Figure)
    (cur : pos) (sp : pid) :
  consistent s →
  st_figures s !! self = Some fg →
  fig_kind fg = Knight ∨ fig_kind fg = King →
  fig_available_moves fg = None →
  occupant s cur = Some self → owner_view s self = Ok sp →
  ∃ m, eval (available_moves self) s = Ok m
       ∧ (∀ off, off ∈ leaper_offsets (fig_kind fg) →
            shift cur off ∈ m ↔
            leaper_in_bounds s (shift cur off)
            ∧ free_for s sp (shift cur off))
       ∧ (fig_kind fg = Knight →
          (∀ adj, adj ∈ king_offsets →
             ∃ g, occupant s (shift cur adj) = Some g
                  ∧ owner_view s g = Ok sp) →
          (∀ off, off ∈ knight_offsets →
             leaper_in_bounds s (shift cur off)
             ∧ occupant s (shift cur off) = None) →
          ∀ off, off ∈ knight_offsets → shift cur off ∈ m).
Proof.
  intros Hc Hs Hk Hm Hocc Hsp.
  pose proof (consistent_pos _ _ _ Hc Hocc) as Hpos.
  destruct (leaper_available_moves_spec s self fg cur sp Hc Hs Hk Hm Hpos Hsp)
    as (m & He & Hspec).
  exists m. split; [done|]. split.
  - intros off Hoff. rewrite Hspec. split.
    + by intros (i & _ & -> & ?).
    + intros ?. by exists off.
  - intros Hkn _ Hfree off Hoff. rewrite Hspec. exists off.
    rewrite Hkn. split; [done|]. split; [done|].
    destruct (Hfree off Hoff) as [Hb Hnone]. split; [done|].
    unfold free_for. by rewrite Hnone.
Qed.

Lemma leaper_destination_legal_witness :
  ∃ m, eval (available_moves 0%nat) surrounded_knight = Ok m
       ∧ ∀ off, off ∈ knight_offsets → shift (4, 4) off ∈ m.
Proof.
  destruct (leaper_destination_legal surrounded_knight 0%nat
              (Figure_init Knight 0%nat) (4, 4) 0%nat)
    as (m & He & _ & Hsur).
  - apply consistentb_sound. by vm_compute.
  - by vm_compute.
  - by left.
  - done.
  - by vm_compute.
  - by vm_compute.
  - exists m. split; [done|]. apply Hsur; [done| |].
    + intros adj Hadj. unfold king_offsets in Hadj.
      repeat (apply elem_of_cons in Hadj as [->|Hadj]);
        [eexists; split; by vm_compute..|].
      by apply elem_of_nil in Hadj.
    + intros off Hoff. unfold knight_offsets in Hoff.
      repeat (apply elem_of_cons in Hoff as [->|Hoff]);
        [split; [by vm_compute | by vm_compute]..|].
      by apply elem_of_nil in Hoff.
Defined.

(** C3 as stated fails for a knight whose legal-move cache holds a set
    computed earlier.  From the starting position White asks for the
    knight move (7, 1) to (3, 3), which is refused and caches the
    legal-move set, and then steps the pawn from (6, 3) to (4, 3).  The
    position is consistent, the knight still stands on (7, 1), and the
    square (6, 3) its offset (-1, 2) leads to is in bounds and empty; yet
    it is not in the knight's legal-move set. *)
Lemma knight_cached_set_misses_a_free_square :
  consistent knight_position_by_play
  ∧ occupant knight_position_by_play (7, 1) = Some 17%nat
  ∧ fig_kind <$> st_figures knight_position_by_play !! 17%nat = Some Knight
  ∧ owner_view knight_position_by_play 17%nat = Ok 0%nat
  ∧ (-1, 2) ∈ leaper_offsets Knight
  ∧ leaper_in_bounds knight_position_by_play (shift (7, 1) (-1, 2))
  ∧ occupant knight_position_by_play (shift (7, 1) (-1, 2)) = None
  ∧ free_for knight_position_by_play 0%nat (shift (7, 1) (-1, 2))
  ∧ ∃ m, eval (available_moves 17%nat) knight_position_by_play = Ok m
         ∧ shift (7, 1) (-1, 2) ∉ m.
Proof.
  split; [apply consistentb_sound; by vm_compute|].
  repeat (split; [by vm_compute|]).
  split; [unfold leaper_offsets, knight_offsets; rewrite !elem_of_cons; tauto|].
  split; [vm_compute; by repeat split|].
  split; [by vm_compute|].
  split; [by vm_compute|].
  exists (list_to_set [(5, 0); (5, 2); (8, 3)]).
  split; [by vm_compute|].
  rewrite elem_of_list_to_set, !elem_of_cons, elem_of_nil.
  unfold shift. simpl. intros [H|[H|[H|[]]]]; discriminate.
Qed.

(** C4 (the code departs from it).  A White pawn stands on (4, 0) and a
    Black pawn on (3, 7).  The forward-left diagonal of the White pawn is
    (3, -1), a square no figure stands on, and yet it is in the pawn's
    legal-move set: [get_figure((3, -1))] reads the last cell of row 3.
    Moving there succeeds and puts the White pawn on (3, 7), in place of the
    Black pawn. *)
Theorem pawn_oblique_wraps_around :
  ∃ m, eval (available_moves 0%nat) edge_pawn_position = Ok m
       ∧ (3, -1) ∈ m
       ∧ occupant edge_pawn_position (3, -1) = None
       ∧ occupant edge_pawn_position (3, 7) = Some 1%nat
       ∧ eval (Player_move 0%nat (4, 0) (3, -1)) edge_pawn_position = Ok ()
       ∧ occupant (exec (Player_move 0%nat (4, 0) (3, -1)) edge_pawn_position)
                  (3, 7) = Some 0%nat.
Proof.
  exists (list_to_set [(3, 0); (2, 0); (3, -1)]).
  split; [by vm_compute|].
  split; [rewrite elem_of_list_to_set, !elem_of_cons; tauto|].
  repeat split; by vm_compute.
Qed.

(** C5.  A pawn whose flag [first_move] is set, alone on a rectangular
    board and at least three rows away from the edge it walks to: its
    legal-move set is the two squares straight ahead and nothing else.
    Each of the two moves succeeds; after it the flag is cleared and stays
    cleared whatever moves are requested later, and every query of the
    legal-move set answers the single square ahead of the new position. *)
Theorem pawn_first_move_flag (s : State) (self : fid) (fg : Figure)
    (r c : Z) (pl : Player) :
  consistent s → rectangular s →
  st_figures s !! self = Some fg → fig_kind fg = Pawn →
  fig_available_moves fg = None → fig_first_move fg = true →
  st_players s !! fig_player fg = Some pl →
  alone_on_board s self (r, c) →
  0 ≤ r + 3 * forward pl < tbl_rows (st_table s) →
  eval (available_moves self) s
  = Ok {[ (r + forward pl, c); (r + 2 * forward pl, c) ]}
  ∧ ∀ to, to = (r + forward pl, c) ∨ to = (r + 2 * forward pl, c) →
      eval (move self to) s = Ok ()
      ∧ first_move_view (exec (move self to) s) self = Ok false
      ∧ (∀ ops, first_move_view (play ops (exec (move self to) s)) self
                = Ok false)
      ∧ (∀ n, eval (available_moves self)
                   (Nat.iter n (exec (available_moves self))
                             (exec (move self to) s))
              = Ok {[ (to.1 + forward pl, c) ]}).
Proof.
  intros Hc Hrect Hs Hk Hm Hf Hpl Halone Hedge.
  pose proof (alone_occupant _ _ _ Halone) as Hocc.
  pose proof (occupant_in_grid _ _ _ Hrect Hocc) as [Hr0 Hc0]. simpl in *.
  assert (forward pl = -1 ∨ forward pl = 1) as Hd
    by (unfold forward; destruct (pl_goes_up pl); auto).
  assert (eval (available_moves self) s
          = Ok {[ (r + forward pl, c); (r + 2 * forward pl, c) ]}) as He.
  { rewrite (lone_pawn_moves s self fg r c pl) by (done || lia).
    by rewrite Hf. }
  split; [done|]. intros to Hto.
  assert (0 ≤ to.1 < tbl_rows (st_table s)
          ∧ to.2 = c ∧ 0 ≤ to.1 + forward pl < tbl_rows (st_table s))
    as (Hto1 & Hto2 & Hto3).
  { destruct Hto as [-> | ->]; simpl; lia. }
  destruct (lone_pawn_step s self fg (r, c) pl _ to Hc Hrect Hs Hk Hpl Halone
              He) as (Hok & Hc' & Hrect' & Halone' & Hrows & fg' & pl' & Hs'
                      & Hk' & Hp' & Hm' & Hf' & Hpl' & Hfw);
    [|done|lia|].
  { rewrite elem_of_union, !elem_of_singleton. tauto. }
  assert (first_move_view (exec (move self to) s) self = Ok false) as Hflag.
  { by rewrite first_move_view_eq, Hs', Hf'. }
  assert (eval (available_moves self) (exec (move self to) s)
          = Ok {[ (to.1 + forward pl, c) ]}) as He'.
  { destruct to as [tr tc]. simpl in *. subst tc.
    rewrite (lone_pawn_moves _ self fg' tr c pl');
      rewrite ?Hf', ?Hfw, ?Hp', ?Hrows; done. }
  split; [done|]. split; [done|]. split.
  - intros ops. by apply play_keeps_flag.
  - intros [|n]; [done|]. rewrite Nat.iter_succ_r.
    by apply available_moves_again.
Qed.

Lemma pawn_first_move_flag_witness :
  eval (available_moves 0%nat) lone_pawn_position = Ok {[ (5, 4); (4, 4) ]}
  ∧ ∀ to, to = (5, 4) ∨ to = (4, 4) →
      eval (move 0%nat to) lone_pawn_position = Ok ()
      ∧ first_move_view (exec (move 0%nat to) lone_pawn_position) 0%nat
        = Ok false.
Proof.
  destruct (pawn_first_move_flag lone_pawn_position 0%nat
              (Figure_init Pawn 0%nat) 6 4 (Player_init true "White"))
    as [He Hmove].
  - apply consistentb_sound. by vm_compute.
  - split; [by vm_compute|]. vm_compute. repeat constructor.
  - by vm_compute.
  - done.
  - done.
  - done.
  - by vm_compute.
  - apply aloneb_sound. by vm_compute.
  - by vm_compute.
  - split; [exact He|]. intros to Hto.
    destruct (Hmove to Hto) as (H1 & H2 & _). done.
Defined.




(** C7.  A player's move request from a valid board position, in a state
    where every listed figure has a position: it raises MissingFigure
    exactly when the square holds no piece, it raises AccessError exactly
    when the square holds a piece of a different player, and otherwise it
    is the move operation of the piece on the square. *)
Theorem Player_move_cases (s : State) (p : pid) (pl : Player)
    (from to : pos) (c : option fid) :
  cell_at (tbl_cells (st_table s)) from = Ok c →
  resolved s →
  st_players s !! p = Some pl → pl_figures pl = None →
  (∀ f o, c = Some f → owner_view s f = Ok o → is_Some (st_players s !! o)) →
  (eval (Player_move p from to) s = Raise MissingFigure ↔ c = None)
  ∧ (eval (Player_move p from to) s = Raise AccessError ↔
     ∃ f o, c = Some f ∧ owner_view s f = Ok o ∧ o ≠ p)
  ∧ (∀ f, c = Some f → owner_view s f = Ok p →
          Player_move p from to s = move f to s).
Proof.
  intros Hcell Hres Hp Hpl Hown.
  assert (Player_move p from to s
          = match c with
            | None =>
                (fs <<- Player_figures p ;;
                 map_m Figure_position fs ;;;
                 raise MissingFigure) s
            | Some f =>
                (q <<- Figure_player f ;;
                 if negb (bool_decide (q = p)) then
                   read_player p ;;;
                   read_player q ;;;
                   raise AccessError
                 else move f to) s
            end) as Hrun.
  { unfold Player_move.
    rewrite bind_run, eval_Table_get_figure, exec_Table_get_figure, Hcell.
    by destruct c. }
  destruct c as [f|].
  - rewrite bind_run, eval_Figure_player, exec_Figure_player in Hrun.
    destruct (owner_view s f) as [o|e] eqn:Ho.
    + destruct (decide (o = p)) as [->|Hne].
      * rewrite bool_decide_true in Hrun by done. simpl in Hrun.
        unfold eval. rewrite Hrun. fold (eval (move f to) s).
        split; [|split].
        -- split; [|done]. intros He. exfalso.
           revert He. apply move_not_missing; [done|].
           destruct (cell_at_on_board _ _ _ Hcell) as (r & c & Hc).
           by eapply on_board_pos.
        -- split.
           ++ intros He. by apply never_access_move in He.
           ++ intros (f' & o' & [= <-] & Ho' & Hne). rewrite Ho in Ho'.
              by injection Ho' as <-.
        -- by intros f' [= <-] _.
      * rewrite bool_decide_false in Hrun by done. simpl in Hrun.
        destruct (Hown f o eq_refl Ho) as [plo Hplo].
        assert (Player_move p from to s = (Raise AccessError, s)) as Hrun'.
        { rewrite Hrun. unfold_m. by rewrite Hp, Hplo. }
        unfold eval. rewrite Hrun'. simpl. split; [|split].
        -- split; done.
        -- split; [|done]. intros _. by exists f, o.
        -- intros f' [= <-] Ho'. rewrite Ho in Ho'. by injection Ho' as <-.
    + unfold eval. rewrite Hrun. simpl. split; [|split].
      * split; [|done]. intros [= ->].
        unfold owner_view in Ho. by destruct (fig_view s f) as [[[[??]?]?]|].
      * split.
        -- intros [= ->].
           unfold owner_view in Ho. by destruct (fig_view s f) as [[[[??]?]?]|].
        -- intros (f' & o' & [= <-] & Ho' & _). by rewrite Ho in Ho'.
      * intros f' [= <-] Ho'. by rewrite Ho in Ho'.
  - unfold eval at 1 2. rewrite Hrun.
    fold (eval (fs <<- Player_figures p;;
                map_m Figure_position fs;;; @raise () MissingFigure) s).
    rewrite (eval_missing_message _ _ _ Hres Hp Hpl). split; [|split].
    + done.
    + split; [done|]. by intros (f & o & [=] & _).
    + by intros f [=].
Qed.

Lemma Player_move_cases_witness :
  (eval (Player_move 0%nat (6, 4) (4, 4)) standard_position
   = Raise MissingFigure ↔ Some 4%nat = None)
  ∧ (eval (Player_move 0%nat (6, 4) (4, 4)) standard_position
     = Raise AccessError ↔
     ∃ f o, Some 4%nat = Some f
            ∧ owner_view standard_position f = Ok o ∧ o ≠ 0%nat)
  ∧ (∀ f, Some 4%nat = Some f → owner_view standard_position f = Ok 0%nat →
          Player_move 0%nat (6, 4) (4, 4) standard_position
          = move f (4, 4) standard_position).
Proof.
  apply (Player_move_cases standard_position 0%nat
           (Player_init true "White") (6, 4) (4, 4) (Some 4%nat)).
  - by vm_compute.
  - unfold resolved. apply (cs_resolved standard_position).
    apply consistentb_sound. by vm_compute.
  - by vm_compute.
  - done.
  - intros f o [= <-]. vm_compute. intros [= <-]. by eexists.
Defined.

(** C8 (the code departs from it).  [Table.__init__] builds [columns] rows
    of [rows] empty cells each: the two extents are exchanged, so the grid
    has [rows] rows of [columns] cells only when the two are equal.  For
    [Table(2, 3)] it is three rows of two cells. *)
Theorem Table_init_transposed (rows columns : Z) :
  length (tbl_cells (Table_init rows columns)) = Z.to_nat columns
  ∧ Forall (λ row, length row = Z.to_nat rows ∧ Forall (λ c, c = None) row)
           (tbl_cells (Table_init rows columns))
  ∧ tbl_cells (Table_init 2 3)
    = [[None; None]; [None; None]; [None; None]].
Proof.
  split; [|split]; simpl.
  - apply length_replicate.
  - apply Forall_replicate. split; [apply length_replicate|].
    by apply Forall_replicate.
  - reflexivity.
Qed.

(** C9.  Whatever the recursion depth still available, assigning an owner
    through [Player.add_figure] (the setter of [Figure.player]) ends in
    RecursionError and leaves the state, hence the stored owner, as it
    was. *)
Theorem add_figure_never_returns (depth : nat) (p : pid) (f : fid)
    (s : State) :
  eval (Player_add_figure depth p f) s = Raise RecursionError
  ∧ exec (Player_add_figure depth p f) s = s
  ∧ eval (Figure_player f) (exec (Player_add_figure depth p f) s)
    = eval (Figure_player f) s.
Proof.
  unfold Player_add_figure.
  assert (Figure_player_setter depth f p s = (Raise RecursionError, s)) as H.
  { induction depth as [|d IH]; [reflexivity | exact IH]. }
  unfold eval, exec. by rewrite H.
Qed.

(** C10.  The clipping of [Pawn.available_moves] keeps every destination
    whose coordinates are below the extents, negative ones included; so for
    a pawn of a player who goes up that stands on row 0, the square
    (-1, column) is in its legal-move set. *)
Theorem pawn_negative_row_is_legal (s : State) (self : fid) (fg : Figure)
    (c : Z) (sp : pid) (pl : Player) :
  consistent s → rectangular s →
  st_figures s !! self = Some fg → fig_kind fg = Pawn →
  fig_available_moves fg = None →
  occupant s (0, c) = Some self → owner_view s self = Ok sp →
  st_players s !! sp = Some pl → pl_goes_up pl = true →
  (∀ l q, q ∈ pawn_clip (tbl_rows (st_table s)) (tbl_columns (st_table s)) l
          ↔ q ∈ l ∧ q.1 < tbl_rows (st_table s)
            ∧ q.2 < tbl_columns (st_table s))
  ∧ ∃ m, eval (available_moves self) s = Ok m ∧ (-1, c) ∈ m.
Proof.
  intros Hc Hrect Hs Hk Hm Hocc Hsp Hpl Hup. split.
  - intros l q. unfold pawn_clip. rewrite list_elem_of_filter. tauto.
  - destruct (Pawn_moves_spec s self fg 0 c sp pl Hc Hrect Hs Hk Hm Hocc
                Hsp Hpl) as (m & He & Hspec).
    pose proof (occupant_in_grid _ _ _ Hrect Hocc) as [Hr0 Hc0]. simpl in *.
    exists m. split; [done|]. apply Hspec. rewrite Hup. simpl.
    split; [lia|]. left. split; [by left|]. done.
Qed.

Lemma pawn_negative_row_is_legal_witness :
  ∃ m, eval (available_moves 0%nat) pawn_on_first_row = Ok m ∧ (-1, 4) ∈ m.
Proof.
  apply (pawn_negative_row_is_legal pawn_on_first_row 0%nat
           (Figure_init Pawn 0%nat) 4 0%nat (Player_init true "White")).
  - apply consistentb_sound. by vm_compute.
  - split; [by vm_compute|]. vm_compute. repeat constructor.
  - by vm_compute.
  - done.
  - done.
  - by vm_compute.
  - by vm_compute.
  - by vm_compute.
  - done.
Defined.
(** * Further properties *)

(** ** The table *)

(** X1.  When [set_figure(c, p)] returns, [get_figure(q)] answers [c] for
    every index pair [q] that addresses the cell [p] addresses (negative
    indices count from the end) and answers as before for every other
    pair. *)
Theorem set_figure_then_get_figure (c : option fid) (p q : pos) (s : State) :
  eval (Table_set_figure c p) s = Ok () →
  eval (Table_get_figure q) (exec (Table_set_figure c p) s)
  = if decide (address (tbl_cells (st_table s)) q
               = address (tbl_cells (st_table s)) p)
    then Ok c
    else eval (Table_get_figure q) s.
Proof.
  rewrite eval_Table_set_figure, exec_Table_set_figure, !eval_Table_get_figure.
  rewrite store_cell_address, !cell_at_address.
  destruct (address (tbl_cells (st_table s)) p) as [[r k]|] eqn:Hp; [|done].
  destruct (address_Some _ _ _ _ Hp) as (row & Hrow & Hk & _).
  rewrite Hrow. intros _. simpl.
  rewrite (address_insert _ _ _ _ _ _ Hrow).
  destruct (address (tbl_cells (st_table s)) q) as [[r' k']|] eqn:Hq.
  - rewrite (cell_insert _ _ _ _ _ _ _ Hrow Hk).
    destruct (decide ((r', k') = (r, k))) as [Heq|Hne].
    + rewrite decide_True; [done | by rewrite Heq].
    + rewrite decide_False; [done | congruence].
  - by rewrite decide_False.
Qed.

Lemma set_figure_then_get_figure_witness :
  eval (Table_get_figure (7, 7))
       (exec (Table_set_figure None (-1, -1)) standard_position)
  = Ok None
  ∧ eval (Table_get_figure (7, 6))
         (exec (Table_set_figure None (-1, -1)) standard_position)
    = Ok (Some 22%nat).
Proof.
  split.
  - by rewrite (set_figure_then_get_figure None (-1, -1) (7, 7)
                  standard_position) by (by vm_compute).
  - by rewrite (set_figure_then_get_figure None (-1, -1) (7, 6)
                  standard_position) by (by vm_compute).
Defined.

(** X2.  On a rectangular board [get_figure] and [set_figure] accept the
    same index pairs, those with [-rows <= row < rows] and
    [-columns <= column < columns], and address the cell the indices wrap
    to; for every other pair both raise IndexError and [set_figure] leaves
    the state as it was. *)
Theorem index_pairs_accepted (c : option fid) (p : pos) (s : State) :
  rectangular s →
  (- tbl_rows (st_table s) ≤ p.1 < tbl_rows (st_table s)
   ∧ - tbl_columns (st_table s) ≤ p.2 < tbl_columns (st_table s) →
   eval (Table_get_figure p) s = Ok (occupant s (wrapped s p))
   ∧ eval (Table_set_figure c p) s = Ok ()
   ∧ ∀ q, occupant (exec (Table_set_figure c p) s) q
          = if decide (q = wrapped s p) then c else occupant s q)
  ∧ (¬ (- tbl_rows (st_table s) ≤ p.1 < tbl_rows (st_table s)
        ∧ - tbl_columns (st_table s) ≤ p.2 < tbl_columns (st_table s)) →
     eval (Table_get_figure p) s = Raise IndexError
     ∧ Table_set_figure c p s = (Raise IndexError, s)).
Proof.
  intros Hrect. split.
  - intros [Hr Hc]. split; [by apply cell_at_wrapped|].
    pose proof (py_wrap_range _ _ Hr) as Hr'.
    pose proof (py_wrap_range _ _ Hc) as Hc'.
    destruct (store_cell_in_grid _ _ _ (wrapped s p) c Hrect Hr' Hc')
      as (cs' & Hst & _ & Hocc).
    rewrite eval_Table_set_figure, exec_Table_set_figure.
    rewrite (store_cell_wrapped _ _ _ _ _ Hrect Hr Hc).
    unfold wrapped in Hst. rewrite Hst. split; [done|]. apply Hocc.
  - intros Hno.
    assert (address (tbl_cells (st_table s)) p = None) as Ha.
    { rewrite (address_grid _ _ _ _ Hrect). by rewrite bool_decide_false. }
    rewrite eval_Table_get_figure, cell_at_address, Ha. split; [done|].
    rewrite (run_eq (Table_set_figure c p) s).
    rewrite eval_Table_set_figure, exec_Table_set_figure.
    by rewrite store_cell_address, Ha.
Qed.

Lemma index_pairs_accepted_witness :
  eval (Table_get_figure (-1, 4)) standard_position = Ok (Some 20%nat)
  ∧ eval (Table_get_figure (8, 4)) standard_position = Raise IndexError.
Proof.
  destruct (index_pairs_accepted None (-1, 4) standard_position) as [H _].
  { split; [by vm_compute|]. vm_compute. repeat constructor. }
  destruct (index_pairs_accepted None (8, 4) standard_position) as [_ H'].
  { split; [by vm_compute|]. vm_compute. repeat constructor. }
  split.
  - destruct H as [-> _]; [by vm_compute | by vm_compute].
  - destruct H' as [-> _]; [|done]. vm_compute. intros [[_ Hlt] _].
    discriminate.
Defined.

(** X3.  [get_figure_position] answers the first cell, in row-major order,
    that holds the figure, and raises MissingFigure exactly when no cell
    holds it; it changes nothing. *)
Theorem get_figure_position_first (f : fid) (s : State) :
  exec (Table_get_figure_position f) s = s
  ∧ match eval (Table_get_figure_position f) s with
    | Ok p =>
        ∃ r c, p = (Z.of_nat r, Z.of_nat c)
               ∧ cell (tbl_cells (st_table s)) r c = Some f
               ∧ ∀ i j, cell (tbl_cells (st_table s)) i j = Some f →
                        (r < i)%nat ∨ (r = i ∧ (c ≤ j)%nat)
    | Raise e =>
        e = MissingFigure
        ∧ ∀ i j, cell (tbl_cells (st_table s)) i j ≠ Some f
    end.
Proof.
  unfold Table_get_figure_position. unfold_m.
  destruct (locate f (tbl_cells (st_table s)) 0) as [p|] eqn:Hl; simpl.
  - split; [done|]. by apply locate_first in Hl.
  - split; [done|]. split; [done|]. intros i j.
    by apply (locate_None _ _ _ i j) in Hl.
Qed.
(** ** The caches *)

(** X4.  Once [position] has answered a square for a figure, it answers
    that square again whatever cells are written with [set_figure]
    afterwards, the figure's own cell included; after [reset()] of the
    figure it answers what [get_figure_position] finds on the board as it
    then is. *)
Theorem position_memoised (g : fid) (p : pos) (ws : list (option fid * pos))
    (s : State) :
  eval (Figure_position g) s = Ok p →
  eval (Figure_position g) (set_figures ws (exec (Figure_position g) s))
  = Ok p
  ∧ eval (Figure_position g)
         (exec (Figure_reset g)
               (set_figures ws (exec (Figure_position g) s)))
    = eval (Table_get_figure_position g)
           (set_figures ws (exec (Figure_position g) s)).
Proof.
  intros He.
  assert (∃ fg, st_figures (exec (Figure_position g) s) !! g = Some fg
                ∧ fig_position fg = Some p) as (fg & Hs & Hp).
  { rewrite eval_Figure_position in He. rewrite exec_Figure_position.
    unfold pos_view, fig_view, pos_of in He.
    destruct (st_figures s !! g) as [fg|] eqn:Hs; [simpl in He|done].
    destruct (fig_position fg) as [p'|] eqn:Hp.
    - injection He as ->. eauto.
    - destruct (locate g (tbl_cells (st_table s)) 0) as [p'|]; [|done].
      injection He as ->. simpl. rewrite lookup_alter_eq, Hs. simpl. eauto. }
  rewrite <- (st_figures_set_figures ws) in Hs.
  set (s' := set_figures ws (exec (Figure_position g) s)) in *.
  clearbody s'. split.
  - rewrite eval_Figure_position. unfold pos_view, fig_view, pos_of.
    rewrite Hs. simpl. by rewrite Hp.
  - rewrite eval_Figure_position. unfold pos_view, fig_view, pos_of.
    unfold Figure_reset, Table_get_figure_position. unfold_m.
    rewrite !lookup_alter_eq, Hs. simpl.
    by destruct (locate g _ 0).
Qed.

Lemma position_memoised_witness :
  eval (Figure_position 17%nat)
       (set_figures [(None, (7, 1))]
          (exec (Figure_position 17%nat) standard_position))
  = Ok (7, 1)
  ∧ eval (Figure_position 17%nat)
         (exec (Figure_reset 17%nat)
            (set_figures [(None, (7, 1))]
               (exec (Figure_position 17%nat) standard_position)))
    = Raise MissingFigure.
Proof.
  destruct (position_memoised 17%nat (7, 1) [(None, (7, 1))]
              standard_position) as [H1 H2]; [by vm_compute|].
  split; [exact H1|]. rewrite H2. by vm_compute.
Defined.

(** X5.  Once [Table.figures] has been read, it answers the same list
    whatever cells are written with [set_figure] afterwards; after
    [Table.reset()] it answers the figures of the board as it then is, in
    row-major order. *)
Theorem figures_memoised (ws : list (option fid * pos)) (s : State) :
  eval Table_figures (set_figures ws (exec Table_figures s))
  = eval Table_figures s
  ∧ eval Table_figures
         (exec Table_reset (set_figures ws (exec Table_figures s)))
    = Ok (scan (tbl_cells (st_table (set_figures ws s)))).
Proof.
  split.
  - rewrite !eval_Table_figures. f_equal. unfold figs_view.
    rewrite tbl_figures_set_figures, exec_Table_figures.
    by destruct (tbl_figures (st_table s)) eqn:Ht; simpl; rewrite ?Ht.
  - rewrite <- (tbl_cells_set_figures ws _ _ (tbl_cells_Table_figures s)).
    by rewrite eval_Table_figures.
Qed.

(** X6.  Once [available_moves] has answered a set for a figure, it answers
    that set again, without touching the state, whatever cells are written
    with [set_figure] afterwards. *)
Theorem available_moves_memoised (self : fid) (m : gset pos)
    (ws : list (option fid * pos)) (s : State) :
  eval (available_moves self) s = Ok m →
  available_moves self (set_figures ws (exec (available_moves self) s))
  = (Ok m, set_figures ws (exec (available_moves self) s)).
Proof.
  intros He. apply available_moves_cached, is_cached_set_figures.
  by apply available_moves_caches.
Qed.

Lemma available_moves_memoised_witness :
  available_moves 16%nat
    (set_figures [(None, (6, 0)); (None, (5, 0))]
       (exec (available_moves 16%nat) standard_position))
  = (Ok ∅,
     set_figures [(None, (6, 0)); (None, (5, 0))]
       (exec (available_moves 16%nat) standard_position)).
Proof.
  apply (available_moves_memoised 16%nat ∅). by vm_compute.
Defined.

(** X7.  A move resets the caches of the figure that moves and of no
    other.  When a move of a figure returns, the position cache and the
    legal-move cache of that figure are empty.  A legal-move set once
    computed for a figure is answered again, without touching the state,
    after any moves of other figures, whether they succeed or fail and
    wherever they lead. *)
Theorem available_moves_stale (g : fid) (m : gset pos)
    (ops : list (fid * pos)) (s : State) :
  eval (available_moves g) s = Ok m →
  Forall (λ op, op.1 ≠ g) ops →
  available_moves g (moves_of ops (exec (available_moves g) s))
  = (Ok m, moves_of ops (exec (available_moves g) s))
  ∧ ∀ s' to, eval (move g to) s' = Ok () →
             caches_empty g (exec (move g to) s').
Proof.
  intros He Hops. split.
  - apply available_moves_cached, is_cached_moves_of; [done|].
    by apply available_moves_caches.
  - intros s' to. apply move_returns_resets.
Qed.

Lemma available_moves_stale_witness :
  (available_moves 16%nat
     (moves_of [(0%nat, (4, 0))]
        (exec (available_moves 16%nat) standard_position))
   = (Ok ∅,
      moves_of [(0%nat, (4, 0))]
        (exec (available_moves 16%nat) standard_position))
   ∧ ∀ s' to, eval (move 16%nat to) s' = Ok () →
              caches_empty 16%nat (exec (move 16%nat to) s'))
  ∧ occupant (moves_of [(0%nat, (4, 0))]
                (exec (available_moves 16%nat) standard_position)) (6, 0)
    = None.
Proof.
  split; [|by vm_compute].
  apply (available_moves_stale 16%nat ∅ [(0%nat, (4, 0))]
           standard_position); [by vm_compute|].
  repeat constructor. simpl. discriminate.
Defined.

(** ** The ray scanner *)

(** X8.  In a consistent position, for a candidate list without
    repetitions and the figures of the table: [cut_after] returns a prefix
    of the list and [cut_before] a suffix of it, and the squares kept are
    those no figure on the list stands in front of (behind, for
    [cut_before]), the square of a figure of another player included and
    the square of a figure of player [p] excluded. *)
Theorem cut_keeps_one_end (s : State) (p : pid) (f : list pos) :
  consistent s → NoDup f →
  (∃ l, eval (cut_after f (figs_view s) p) s = Ok l
        ∧ l `prefix_of` f ∧ ∀ q, q ∈ l ↔ kept_after s p f q)
  ∧ (∃ l, eval (cut_before f (figs_view s) p) s = Ok l
          ∧ l `suffix_of` f ∧ ∀ q, q ∈ l ↔ kept_before s p f q).
Proof.
  intros Hc Hnd. split.
  - destruct (consistent_cut_after s p f Hc Hnd) as (l & He & Hl).
    exists l. split; [done|]. split; [|done]. by eapply cut_after_prefix.
  - destruct (consistent_cut_before s p f Hc Hnd) as (l & He & Hl).
    exists l. split; [done|]. split; [|done]. by eapply cut_before_suffix.
Qed.

Lemma cut_keeps_one_end_witness :
  (∃ l, eval (cut_after [(4, 1); (4, 2); (4, 3); (4, 4); (4, 5); (4, 6)]
                        (figs_view rook_position) 0%nat) rook_position = Ok l
        ∧ l `prefix_of` [(4, 1); (4, 2); (4, 3); (4, 4); (4, 5); (4, 6)]
        ∧ ∀ q, q ∈ l ↔
               kept_after rook_position 0%nat
                 [(4, 1); (4, 2); (4, 3); (4, 4); (4, 5); (4, 6)] q)
  ∧ (∃ l, eval (cut_before [(4, 1); (4, 2); (4, 3); (4, 4); (4, 5); (4, 6)]
                           (figs_view rook_position) 0%nat) rook_position
          = Ok l
          ∧ l `suffix_of` [(4, 1); (4, 2); (4, 3); (4, 4); (4, 5); (4, 6)]
          ∧ ∀ q, q ∈ l ↔
                 kept_before rook_position 0%nat
                   [(4, 1); (4, 2); (4, 3); (4, 4); (4, 5); (4, 6)] q).
Proof.
  apply (cut_keeps_one_end rook_position 0%nat
           [(4, 1); (4, 2); (4, 3); (4, 4); (4, 5); (4, 6)]).
  - apply consistentb_sound. by vm_compute.
  - apply (bool_decide_unpack _). by vm_compute.
Defined.
(** ** The sliding pieces *)

(** X9.  A rook, a bishop or a queen whose legal-move cache is empty, in
    a consistent position on a rectangular board: the set its
    [available_moves] answers holds exactly the squares it
    slides to in one of its directions (four for the rook, four for the
    bishop, all eight for the queen).  Sliding to a square means that the
    square is within reach, that every square passed over is empty, and
    that the square itself is empty or holds a piece of another player.
    Within reach is on the board, except on the down-right diagonal, which
    the code ends where the larger coordinate reaches the smaller
    extent. *)
Theorem sliding_moves (s : State) (self : fid) (fg : Figure) (p : pos)
    (sp : pid) :
  consistent s → rectangular s →
  st_figures s !! self = Some fg →
  fig_kind fg = Rook ∨ fig_kind fg = Bishop ∨ fig_kind fg = Queen →
  fig_available_moves fg = None →
  occupant s p = Some self → owner_view s self = Ok sp →
  ∃ m, eval (available_moves self) s = Ok m
       ∧ ∀ q, q ∈ m ↔
              ∃ d, d ∈ directions (fig_kind fg) ∧ slides s sp p d q.
Proof.
  intros Hc Hrect Hs Hk Hm Hocc Hown.
  pose proof (consistent_pos _ _ _ Hc Hocc) as Hpos.
  pose proof (occupant_in_grid _ _ _ Hrect Hocc) as Hon.
  destruct p as [r c]. fold (on_board s (r, c)) in Hon.
  destruct Hk as [Hk|[Hk|Hk]]; rewrite Hk; cbv [directions].
  - destruct (Rook_moves_spec s self fg r c sp Hc Hs Hk Hm Hpos Hown)
      as (m & He & Hspec).
    exists m. split; [done|]. intros q.
    by rewrite Hspec, (rook_lists_slide _ _ _ _ _ Hc Hon).
  - destruct (Bishop_moves_spec s self fg r c sp Hc Hs Hk Hm Hpos Hown Hon)
      as (m & He & Hspec).
    exists m. split; [done|]. intros q.
    by rewrite Hspec, (bishop_lists_slide _ _ _ _ _ Hc Hon).
  - destruct (Queen_moves_spec s self fg r c sp Hc Hs Hk Hm Hpos Hown Hon)
      as (m & He & Hspec).
    exists m. split; [done|]. intros q.
    rewrite Hspec, (rook_lists_slide _ _ _ _ _ Hc Hon),
      (bishop_lists_slide _ _ _ _ _ Hc Hon).
    split.
    + intros [(d & Hd & H)|(d & Hd & H)]; exists d;
        (split; [|done]); apply elem_of_app; tauto.
    + intros (d & [Hd|Hd]%elem_of_app & H); [left | right]; eauto.
Qed.

Lemma sliding_moves_witness :
  ∃ m, eval (available_moves 0%nat) rook_position = Ok m
       ∧ ∀ q, q ∈ m ↔
              ∃ d, d ∈ directions Rook
                   ∧ slides rook_position 0%nat (4, 0) d q.
Proof.
  apply (sliding_moves rook_position 0%nat (Figure_init Rook 0%nat) (4, 0)
           0%nat).
  - apply consistentb_sound. by vm_compute.
  - split; [by vm_compute|]. vm_compute. repeat constructor.
  - by vm_compute.
  - by left.
  - done.
  - by vm_compute.
  - by vm_compute.
Defined.
(** ** The move executor *)

(** X10.  In a consistent position on a rectangular board, a move of the
    figure on [p] to a square of the board that is in its legal-move set
    returns.  Afterwards the figure stands on the destination, its old
    square is empty and every other square holds what it held; a figure
    that stood on the destination is no longer among [Table.figures]; and
    [position] of the moved figure answers the destination. *)
Theorem legal_move_relocates (s : State) (self : fid) (p to : pos)
    (m : gset pos) :
  consistent s → rectangular s → occupant s p = Some self →
  eval (available_moves self) s = Ok m → to ∈ m → on_board s to →
  eval (move self to) s = Ok ()
  ∧ (∀ q, occupant (exec (move self to) s) q
          = if decide (q = to) then Some self
            else if decide (q = p) then None else occupant s q)
  ∧ (∀ g, occupant s to = Some g → g ≠ self →
          g ∉ figs_view (exec (move self to) s))
  ∧ eval (Figure_position self) (exec (move self to) s) = Ok to.
Proof.
  intros Hc Hrect Hocc He Hto [Hr Hcol].
  assert (wrapped s to = to) as Hw.
  { unfold wrapped. rewrite !py_wrap_nonneg by lia. by destruct to. }
  destruct (move_legal_in_range s self to m p Hc Hrect Hocc He Hto)
    as (s2 & o & cs' & O2 & Ho & Hg & Hocc' & Hrun); [lia|].
  rewrite Hw in Hocc'.
  pose proof (consistent_relocated s s2 self p to cs'
                (alter (set_pl_figures None) o (st_players s))
                Hc O2 Hocc Hocc') as Hc'.
  assert (eval (move self to) s = Ok ()) as Hev
    by (unfold eval; by rewrite Hrun).
  assert (exec (move self to) s
          = mkState (mkTable (tbl_rows (st_table s))
                             (tbl_columns (st_table s)) cs' None)
                    (alter (set_pl_figures None) o (st_players s))
                    (alter after_move self (st_figures s2))) as ->
    by (unfold exec; by rewrite Hrun).
  split; [done|]. split; [exact Hocc'|]. split.
  - intros g Hgto Hne Hin. unfold figs_view in Hin. simpl in Hin.
    apply elem_of_scan in Hin as (r & c & Hcell).
    assert (occ cs' (Z.of_nat r, Z.of_nat c) = Some g) as Hq
      by (apply occ_Some; eauto).
    rewrite Hocc' in Hq. case_decide as Hq1; [congruence|].
    case_decide as Hq2; [done|].
    by pose proof (consistent_unique _ _ _ _ Hc Hq Hgto).
  - rewrite eval_Figure_position. apply (consistent_pos _ _ _ Hc').
    unfold occupant. simpl. rewrite Hocc'. by rewrite decide_True.
Qed.

Lemma legal_move_relocates_witness :
  eval (move 17%nat (5, 2)) standard_position = Ok ()
  ∧ (∀ q, occupant (exec (move 17%nat (5, 2)) standard_position) q
          = if decide (q = (5, 2)) then Some 17%nat
            else if decide (q = (7, 1)) then None
                 else occupant standard_position q)
  ∧ (∀ g, occupant standard_position (5, 2) = Some g → g ≠ 17%nat →
          g ∉ figs_view (exec (move 17%nat (5, 2)) standard_position))
  ∧ eval (Figure_position 17%nat)
         (exec (move 17%nat (5, 2)) standard_position) = Ok (5, 2).
Proof.
  apply (legal_move_relocates standard_position 17%nat (7, 1) (5, 2)
           (list_to_set [(5, 0); (5, 2); (8, 3)])).
  - apply consistentb_sound. by vm_compute.
  - split; [by vm_compute|]. vm_compute. repeat constructor.
  - by vm_compute.
  - by vm_compute.
  - rewrite elem_of_list_to_set, !elem_of_cons. tauto.
  - vm_compute. by repeat split.
Defined.

(** X11.  Consistency is an invariant of the game: from a consistent
    position on a rectangular board, any sequence of requests
    [player.move(_from, to)] each of which returns or raises InvalidMove,
    MissingFigure or AccessError (the outcomes after which the game loop
    goes on) leads to a consistent position on a rectangular board of the
    same extents. *)
Theorem consistency_is_invariant (ops : list (pid * pos * pos)) (s : State) :
  consistent s → rectangular s → all_go_on ops s →
  consistent (play ops s) ∧ rectangular (play ops s)
  ∧ tbl_rows (st_table (play ops s)) = tbl_rows (st_table s)
  ∧ tbl_columns (st_table (play ops s)) = tbl_columns (st_table s).
Proof.
  revert s. induction ops as [|[[p from] to] ops IH]; intros s Hc Hrect Hgo.
  { done. }
  destruct Hgo as [Hop Hgo]. simpl in Hop, Hgo.
  assert (consistent (exec (Player_move p from to) s)
          ∧ rectangular (exec (Player_move p from to) s)
          ∧ tbl_rows (st_table (exec (Player_move p from to) s))
            = tbl_rows (st_table s)
          ∧ tbl_columns (st_table (exec (Player_move p from to) s))
            = tbl_columns (st_table s)) as (Hc' & Hrect' & Hrows & Hcols).
  { destruct Hop as [Hret|Hraise].
    - destruct (Player_move_returns _ _ _ _ Hret) as (f & q & Hq & _ & Hrun).
      unfold eval in Hret. unfold exec. rewrite Hrun in *.
      destruct (move_returns s f to q Hc Hrect Hq Hret)
        as (m & He & Hto & Hin).
      destruct (move_legal_in_range s f to m q Hc Hrect Hq He Hto Hin)
        as (s2 & o & cs' & O2 & Ho & Hg & Hocc' & Hrun').
      rewrite Hrun'. simpl. split; [|done].
      by apply (consistent_relocated s s2 f q (wrapped s to)).
    - assert (only_caches_filled s (exec (Player_move p from to) s)) as O.
      { destruct Hraise as [H|[H|H]];
          apply (Player_move_failure _ _ _ _ _ H); tauto. }
      destruct O as [V _ _]. split; [by eapply consistent_view_eq|].
      split; [by eapply rectangular_view_eq|].
      by rewrite (ve_rows _ _ V), (ve_columns _ _ V). }
  destruct (IH _ Hc' Hrect' Hgo) as (H1 & H2 & H3 & H4).
  unfold play in *. simpl. split; [done|]. split; [done|].
  by rewrite H3, H4.
Qed.

Lemma consistency_is_invariant_witness :
  consistent (play [(0%nat, (6, 4), (4, 4)); (1%nat, (6, 0), (5, 0));
                    (1%nat, (1, 3), (3, 3)); (0%nat, (4, 4), (3, 3))]
                   standard_position)
  ∧ rectangular (play [(0%nat, (6, 4), (4, 4)); (1%nat, (6, 0), (5, 0));
                       (1%nat, (1, 3), (3, 3)); (0%nat, (4, 4), (3, 3))]
                      standard_position).
Proof.
  destruct (consistency_is_invariant
              [(0%nat, (6, 4), (4, 4)); (1%nat, (6, 0), (5, 0));
               (1%nat, (1, 3), (3, 3)); (0%nat, (4, 4), (3, 3))]
              standard_position) as (H1 & H2 & _).
  - apply consistentb_sound. by vm_compute.
  - split; [by vm_compute|]. vm_compute. repeat constructor.
  - cbv [all_go_on goes_on]. split; [left; by vm_compute|].
    split; [right; right; right; by vm_compute|].
    split; [left; by vm_compute|].
    split; [left; by vm_compute|]. done.
  - by split.
Defined.

(** X12.  In a consistent position on a rectangular board, a move of the
    figure on [p] to a destination that is in its legal-move set but whose
    indices are out of range (a knight or a king may be given row [rows]
    or column [columns]) raises IndexError after the origin was emptied:
    the figure then stands on no square, every other square holds what it
    held, and [position] of the figure raises MissingFigure. *)
Theorem legal_move_out_of_range_loses_figure (s : State) (self : fid)
    (p to : pos) (m : gset pos) :
  consistent s → rectangular s → occupant s p = Some self →
  eval (available_moves self) s = Ok m → to ∈ m →
  ¬ (- tbl_rows (st_table s) ≤ to.1 < tbl_rows (st_table s)
     ∧ - tbl_columns (st_table s) ≤ to.2 < tbl_columns (st_table s)) →
  eval (move self to) s = Raise IndexError
  ∧ (∀ q, occupant (exec (move self to) s) q
          = if decide (q = p) then None else occupant s q)
  ∧ (∀ q, occupant (exec (move self to) s) q ≠ Some self)
  ∧ eval (Figure_position self) (exec (move self to) s)
    = Raise MissingFigure.
Proof.
  intros Hc Hrect Hocc He Hto Hout.
  destruct (move_legal_out_of_range s self to m p Hc Hrect Hocc He Hto Hout)
    as (s2 & cs1 & O2 & Hocc1 & Hrun).
  assert (eval (move self to) s = Raise IndexError) as Hev
    by (unfold eval; by rewrite Hrun).
  assert (exec (move self to) s
          = mkState (mkTable (tbl_rows (st_table s))
                             (tbl_columns (st_table s)) cs1
                             (tbl_figures (st_table s2)))
                    (st_players s)
                    (alter (set_fig_available_moves None) self
                       (alter (set_fig_position None) self
                              (st_figures s2)))) as ->
    by (unfold exec; by rewrite Hrun).
  assert (∀ q, occ cs1 q ≠ Some self) as Hgone.
  { intros q. rewrite Hocc1. case_decide as Hq; [done|]. intros Hq'.
    by pose proof (consistent_unique _ _ _ _ Hc Hq' Hocc). }
  split; [done|]. split; [exact Hocc1|]. split; [exact Hgone|].
  rewrite eval_Figure_position. unfold pos_view, fig_view, pos_of. simpl.
  destruct (ocf_stored _ _ _ _ Hc O2 Hocc) as (fg2 & Hs2 & _).
  rewrite !lookup_alter_eq, Hs2. simpl.
  destruct (locate self cs1 0) as [q|] eqn:Hl; [|done].
  apply locate_Some in Hl as (r & c & -> & Hcell). exfalso.
  apply (Hgone (Z.of_nat (0 + r), Z.of_nat c)), occ_Some. eauto.
Qed.

Lemma legal_move_out_of_range_loses_figure_witness :
  eval (move 17%nat (8, 3)) standard_position = Raise IndexError
  ∧ (∀ q, occupant (exec (move 17%nat (8, 3)) standard_position) q
          = if decide (q = (7, 1)) then None
            else occupant standard_position q)
  ∧ (∀ q, occupant (exec (move 17%nat (8, 3)) standard_position) q
          ≠ Some 17%nat)
  ∧ eval (Figure_position 17%nat)
         (exec (move 17%nat (8, 3)) standard_position)
    = Raise MissingFigure.
Proof.
  apply (legal_move_out_of_range_loses_figure standard_position 17%nat
           (7, 1) (8, 3) (list_to_set [(5, 0); (5, 2); (8, 3)])).
  - apply consistentb_sound. by vm_compute.
  - split; [by vm_compute|]. vm_compute. repeat constructor.
  - by vm_compute.
  - by vm_compute.
  - rewrite elem_of_list_to_set, !elem_of_cons. tauto.
  - vm_compute. intros [[_ H] _]. discriminate.
Defined.
(** ** Where the pieces land *)

(** X13.  A rook, a bishop or a queen whose legal-move cache is empty, in
    a consistent position on a rectangular board: every square of the set
    its [available_moves] answers is a square of the board that is empty
    or holds a piece of another player, and the move to it returns. *)
Theorem sliding_move_returns (s : State) (self : fid) (fg : Figure)
    (p : pos) (sp : pid) :
  consistent s → rectangular s →
  st_figures s !! self = Some fg →
  fig_kind fg = Rook ∨ fig_kind fg = Bishop ∨ fig_kind fg = Queen →
  fig_available_moves fg = None →
  occupant s p = Some self → owner_view s self = Ok sp →
  ∃ m, eval (available_moves self) s = Ok m
       ∧ ∀ q, q ∈ m →
              on_board s q ∧ free_for s sp q
              ∧ eval (move self q) s = Ok ().
Proof.
  intros Hc Hrect Hs Hk Hm Hocc Hown.
  destruct (sliding_moves_slide s self fg p sp Hc Hrect Hs Hk Hm Hocc Hown)
    as (m & He & Hslide).
  exists m. split; [done|]. intros q Hq.
  destruct (Hslide q Hq) as [d Hd].
  pose proof (slides_on_board _ _ _ _ _ Hd) as Hon.
  split; [done|]. split; [by eapply slides_free|].
  destruct Hon as [Hr Hcol].
  destruct (move_legal_in_range s self q m p Hc Hrect Hocc He Hq)
    as (s2 & o & cs' & _ & _ & _ & _ & Hrun); [lia|].
  unfold eval. by rewrite Hrun.
Qed.

Lemma sliding_move_returns_witness :
  ∃ m, eval (available_moves 0%nat) rook_position = Ok m
       ∧ ∀ q, q ∈ m →
              on_board rook_position q ∧ free_for rook_position 0%nat q
              ∧ eval (move 0%nat q) rook_position = Ok ().
Proof.
  apply (sliding_move_returns rook_position 0%nat (Figure_init Rook 0%nat)
           (4, 0) 0%nat).
  - apply consistentb_sound. by vm_compute.
  - split; [by vm_compute|]. vm_compute. repeat constructor.
  - by vm_compute.
  - by left.
  - done.
  - by vm_compute.
  - by vm_compute.
Defined.

(** X14.  A knight or a king whose legal-move cache is empty, in a
    consistent position on a rectangular board: every square of the set
    its [available_moves] answers is reached by one of the offsets of its
    table, has no negative coordinate, and is empty or holds a piece of
    another player.  The move to it returns when the square is on the
    board and raises IndexError when it is not (row [rows] or column
    [columns], which the bounds test lets through). *)
Theorem leaper_move_outcome (s : State) (self : fid) (fg : Figure)
    (p : pos) (sp : pid) :
  consistent s → rectangular s →
  st_figures s !! self = Some fg →
  fig_kind fg = Knight ∨ fig_kind fg = King →
  fig_available_moves fg = None →
  occupant s p = Some self → owner_view s self = Ok sp →
  ∃ m, eval (available_moves self) s = Ok m
       ∧ ∀ q, q ∈ m →
              (∃ off, off ∈ leaper_offsets (fig_kind fg) ∧ q = shift p off)
              ∧ 0 ≤ q.1 ∧ 0 ≤ q.2 ∧ free_for s sp q
              ∧ eval (move self q) s
                = if bool_decide (on_board s q) then Ok ()
                  else Raise IndexError.
Proof.
  intros Hc Hrect Hs Hk Hm Hocc Hown.
  pose proof (consistent_pos _ _ _ Hc Hocc) as Hpos.
  destruct (leaper_available_moves_spec s self fg p sp Hc Hs Hk Hm Hpos Hown)
    as (m & He & Hspec).
  exists m. split; [done|]. intros q Hq.
  destruct (proj1 (Hspec q) Hq) as (off & Hoff & -> & [Hb1 Hb2] & Hfree).
  split; [by exists off|]. split; [lia|]. split; [lia|]. split; [done|].
  case_bool_decide as Hon.
  - destruct Hon as [Hr Hcol].
    destruct (move_legal_in_range s self _ m p Hc Hrect Hocc He Hq)
      as (s2 & o & cs' & _ & _ & _ & _ & Hrun); [lia|].
    unfold eval. by rewrite Hrun.
  - destruct (move_legal_out_of_range s self _ m p Hc Hrect Hocc He Hq)
      as (s2 & cs1 & _ & _ & Hrun).
    { intros [Hr Hcol]. apply Hon. split; lia. }
    unfold eval. by rewrite Hrun.
Qed.

Lemma leaper_move_outcome_witness :
  ∃ m, eval (available_moves 17%nat) standard_position = Ok m
       ∧ ∀ q, q ∈ m →
              (∃ off, off ∈ leaper_offsets Knight ∧ q = shift (7, 1) off)
              ∧ 0 ≤ q.1 ∧ 0 ≤ q.2 ∧ free_for standard_position 0%nat q
              ∧ eval (move 17%nat q) standard_position
                = if bool_decide (on_board standard_position q) then Ok ()
                  else Raise IndexError.
Proof.
  apply (leaper_move_outcome standard_position 17%nat
           (Figure_init Knight 0%nat) (7, 1) 0%nat).
  - apply consistentb_sound. by vm_compute.
  - split; [by vm_compute|]. vm_compute. repeat constructor.
  - by vm_compute.
  - by left.
  - done.
  - by vm_compute.
  - by vm_compute.
Defined.

(** X15.  The double step of a pawn does not look at the square it passes
    over.  For a pawn of a stored player, whose flag [first_move] is set
    and whose legal-move cache is empty, in a consistent position on a
    rectangular board, with a piece on the square straight ahead and the
    second square ahead empty and on the board: the square straight ahead
    is not in the set [available_moves] answers, the second square is, and
    the move to it returns. *)
Theorem pawn_double_step_jumps (s : State) (self : fid) (fg : Figure)
    (r c : Z) (sp : pid) (pl : Player) (g : fid) :
  consistent s → rectangular s →
  st_figures s !! self = Some fg → fig_kind fg = Pawn →
  fig_available_moves fg = None → fig_first_move fg = true →
  occupant s (r, c) = Some self → owner_view s self = Ok sp →
  st_players s !! sp = Some pl →
  occupant s (r + forward pl, c) = Some g →
  occupant s (r + 2 * forward pl, c) = None →
  0 ≤ r + 2 * forward pl < tbl_rows (st_table s) →
  ∃ m, eval (available_moves self) s = Ok m
       ∧ ((r + forward pl, c) ∉ m)
       ∧ (r + 2 * forward pl, c) ∈ m
       ∧ eval (move self (r + 2 * forward pl, c)) s = Ok ().
Proof.
  intros Hc Hrect Hs Hk Hm Hf Hocc Hown Hpl Hg Hfree Hrow.
  destruct (Pawn_moves_spec s self fg r c sp pl Hc Hrect Hs Hk Hm Hocc
              Hown Hpl) as (m & He & Hspec).
  fold (forward pl) in Hspec.
  destruct (occupant_in_grid _ _ _ Hrect Hocc) as [Hr Hcol]. simpl in *.
  assert (forward pl = -1 ∨ forward pl = 1) as Hfw
    by (unfold forward; destruct (pl_goes_up pl); lia).
  assert ((r + 2 * forward pl, c) ∈ m) as Hin.
  { apply Hspec. simpl. split; [lia|]. left. split; [|done].
    right. by split. }
  exists m. split; [done|]. split; [|split; [done|]].
  - intros Hq. apply Hspec in Hq as [_ [[_ Hq]|[[Hq|Hq] _]]].
    + simpl in Hq. congruence.
    + injection Hq. lia.
    + injection Hq. lia.
  - destruct (move_legal_in_range s self _ m (r, c) Hc Hrect Hocc He Hin)
      as (s2 & o & cs' & _ & _ & _ & _ & Hrun); [simpl; lia|].
    unfold eval. by rewrite Hrun.
Qed.

Lemma pawn_double_step_jumps_witness :
  ∃ m, eval (available_moves 0%nat) blocked_pawn_position = Ok m
       ∧ ((6 + forward (Player_init true "White"), 4) ∉ m)
       ∧ (6 + 2 * forward (Player_init true "White"), 4) ∈ m
       ∧ eval (move 0%nat (6 + 2 * forward (Player_init true "White"), 4))
              blocked_pawn_position = Ok ().
Proof.
  apply (pawn_double_step_jumps blocked_pawn_position 0%nat
           (Figure_init Pawn 0%nat) 6 4 0%nat (Player_init true "White")
           1%nat).
  - apply consistentb_sound. by vm_compute.
  - split; [by vm_compute|]. vm_compute. repeat constructor.
  - by vm_compute.
  - done.
  - done.
  - done.
  - by vm_compute.
  - by vm_compute.
  - by vm_compute.
  - by vm_compute.
  - by vm_compute.
  - vm_compute. by split.
Defined.
(** X16.  A pawn's flag [first_move] changes only when a move of that pawn
    returns.  For a stored figure and any state: a move of it that raises,
    whatever the exception, leaves the flag of every figure as it was, and
    a move that returns clears the flag of the moved figure if it is a
    pawn and leaves every other flag as it was. *)
Theorem flag_changes_on_success_only (s : State) (self : fid) (fg : Figure)
    (to : pos) :
  st_figures s !! self = Some fg →
  ∀ g, first_move_view (exec (move self to) s) g
       = match eval (move self to) s with
         | Ok _ =>
             if decide (g = self ∧ fig_kind fg = Pawn) then Ok false
             else first_move_view s g
         | Raise _ => first_move_view s g
         end.
Proof.
  intros Hs g. unfold move.
  rewrite eval_bind, exec_bind, eval_read_figure, exec_read_figure, Hs.
  pose proof (preserves_flags_Figure_move s self to s (λ _, eq_refl)) as Hfm.
  assert (fig_kind fg ≠ Pawn →
          first_move_view (exec (Figure_move self to) s) g
          = match eval (Figure_move self to) s with
            | Ok _ =>
                if decide (g = self ∧ fig_kind fg = Pawn) then Ok false
                else first_move_view s g
            | Raise _ => first_move_view s g
            end) as Hother.
  { intros Hk. rewrite Hfm.
    destruct (eval (Figure_move self to) s); [|done].
    rewrite decide_False; [done | tauto]. }
  destruct (fig_kind fg) eqn:Hk; try (by apply Hother).
  unfold Pawn_move. rewrite eval_bind, exec_bind.
  destruct (eval (Figure_move self to) s) as [[]|e] eqn:Hret; [|apply Hfm].
  destruct (Figure_move_leaves_writable _ _ _ Hret) as [cs'' Hw].
  set (s1 := exec (Figure_move self to) s) in *.
  rewrite eval_bind, exec_bind. simpl.
  rewrite eval_Table_set_figure, exec_Table_set_figure. simpl.
  rewrite Hw. rewrite first_move_view_eq. simpl. rewrite lookup_alter.
  clear Hother. destruct (decide (self = g)) as [<-|Hg].
  - rewrite decide_True by done.
    specialize (Hfm self). rewrite !first_move_view_eq, Hs in Hfm.
    by destruct (st_figures s1 !! self).
  - rewrite decide_False by (intros [? _]; congruence).
    rewrite <- first_move_view_eq. apply Hfm.
Qed.

Lemma flag_changes_on_success_only_witness :
  first_move_view (exec (move 4%nat (3, 4)) standard_position) 4%nat
  = Ok true
  ∧ first_move_view (exec (move 4%nat (4, 4)) standard_position) 4%nat
    = Ok false.
Proof.
  split.
  - rewrite (flag_changes_on_success_only standard_position 4%nat
               (Figure_init Pawn 0%nat) (3, 4)) by (by vm_compute).
    by vm_compute.
  - rewrite (flag_changes_on_success_only standard_position 4%nat
               (Figure_init Pawn 0%nat) (4, 4)) by (by vm_compute).
    by vm_compute.
Defined.
(** ** The players *)

(** X17.  In a consistent position, for a player whose figure list is not
    cached: [Player.figures] answers, in the order of [Table.figures], the
    figures that stand on the board and are owned by the player, and no
    other. *)
Theorem Player_figures_owned (s : State) (p : pid) (pl : Player) :
  consistent s → st_players s !! p = Some pl → pl_figures pl = None →
  ∃ fs, eval (Player_figures p) s = Ok fs
        ∧ fs `sublist_of` figs_view s
        ∧ ∀ g, g ∈ fs ↔
               (∃ q, occupant s q = Some g) ∧ owner_view s g = Ok p.
Proof.
  intros Hc Hp Hpl.
  assert (resolved s) as Hres by (unfold resolved; apply (cs_resolved _ Hc)).
  assert (∀ g, is_query (q <<- Figure_player g ;;
                         ret (bool_decide (q = p)))) as Hq by query.
  destruct (filter_m_spec
              (λ f, q <<- Figure_player f ;; ret (bool_decide (q = p)))
              s (figs_view s) Hq) as (fs & Hfs & Sfs).
  { intros g Hg. destruct (resolved_owner _ _ Hres Hg) as [o Ho].
    rewrite eval_bind_query, eval_Figure_player, Ho by query. eauto. }
  exists fs. split; [|split].
  - unfold Player_figures.
    rewrite eval_bind_query by (query; by apply is_query_filter_m).
    unfold eval at 1, read_player. rewrite Hp. simpl. rewrite Hpl.
    by rewrite eval_bind_query, eval_Table_figures
      by (query; by apply is_query_filter_m).
  - exact (filter_m_sublist _ s _ _ Hq Hfs).
  - intros g. rewrite Sfs.
    rewrite eval_bind_query, eval_Figure_player by query.
    split.
    + intros [Hg Ho]. destruct (Hres g Hg) as [q Hpos]. split.
      * exists q. by apply (cs_occupant _ Hc).
      * destruct (owner_view s g) as [o|]; [|done].
        simpl in Ho. injection Ho as Ho.
        by apply bool_decide_eq_true in Ho as ->.
    + intros [[q Hocc] Ho]. split.
      * by apply (cs_occupant _ Hc) in Hocc as [? _].
      * rewrite Ho. simpl. by rewrite bool_decide_true.
Qed.

Lemma Player_figures_owned_witness :
  ∃ fs, eval (Player_figures 1%nat) standard_position = Ok fs
        ∧ fs `sublist_of` figs_view standard_position
        ∧ ∀ g, g ∈ fs ↔
               (∃ q, occupant standard_position q = Some g)
               ∧ owner_view standard_position g = Ok 1%nat.
Proof.
  apply (Player_figures_owned standard_position 1%nat
           (Player_init false "Black")).
  - apply consistentb_sound. by vm_compute.
  - by vm_compute.
  - done.
Defined.

(** X18.  No move request caches a player's figure list or changes a
    player: after any sequence of requests [player.move(_from, to)],
    whatever their outcomes, the store holds the same players with the
    same orientation and name, and the [_figures] attribute of a player
    that was None is still None, so that [Player.figures] is computed from
    [Table.figures] at every call. *)
Theorem players_never_cached (ops : list (pid * pos * pos)) (s : State) :
  same_players s (play ops s).
Proof.
  assert (∀ s0 st, same_players s0 st → same_players s0 (play ops st)) as H.
  { intros s0. induction ops as [|[[p from] to] ops IH]; intros st Hst.
    - done.
    - unfold play in *. simpl. apply IH.
      by apply preserves_players_Player_move. }
  apply H, same_players_refl.
Qed.
(** ** Emptying the board *)

(** X19.  In a consistent position on a rectangular board
    [Table.delete_all_figures] (and so [Game.cleanse_table]) returns and
    leaves every square empty; afterwards [Table.figures] answers the
    empty list, and the board has the same extents and the store the same
    players. *)
Theorem delete_all_figures_empties (s : State) :
  consistent s → rectangular s →
  eval Table_delete_all_figures s = Ok ()
  ∧ (∀ q, occupant (exec Table_delete_all_figures s) q = None)
  ∧ eval Table_figures (exec Table_delete_all_figures s) = Ok []
  ∧ rectangular (exec Table_delete_all_figures s)
  ∧ st_players (exec Table_delete_all_figures s) = st_players s.
Proof.
  intros Hc Hrect.
  pose proof (q_fill _ is_query_Table_figures s) as [V0 _].
  set (s0 := exec Table_figures s) in *.
  destruct (delete_loop s (figs_view s) Hc Hrect) with (st := s0)
    as (st' & Hrun & Hg' & Hsub & Hclr & Hrows & Hcols & Hpl).
  - intros g Hg. destruct (cs_resolved _ Hc g Hg) as [q Hq].
    exists q. by apply (cs_occupant _ Hc).
  - rewrite <- (ve_cells _ _ V0). exact Hrect.
  - intros q g. unfold occupant. by rewrite (ve_cells _ _ V0).
  - intros q g Hq. unfold pos_view. rewrite <- (ve_fig _ _ V0 g).
    by apply (consistent_pos _ _ _ Hc).
  - assert (Table_delete_all_figures s
            = (Ok (), set_table (set_tbl_figures None (st_table st')) st'))
      as Hall.
    { unfold Table_delete_all_figures.
      rewrite bind_run, eval_Table_figures. fold s0.
      unfold bind at 1. rewrite Hrun. reflexivity. }
    assert (∀ q, occupant st' q = None) as Hnone.
    { intros q. destruct (occupant st' q) as [g|] eqn:Ho; [|done].
      pose proof (Hsub _ _ Ho) as Ho0.
      unfold occupant in Ho0. rewrite <- (ve_cells _ _ V0) in Ho0.
      fold (occupant s q) in Ho0.
      rewrite (Hclr q g) in Ho; [done| |done].
      by apply (cs_occupant _ Hc) in Ho0 as [? _]. }
    unfold eval at 1. unfold exec. rewrite Hall. simpl.
    split; [done|]. split; [exact Hnone|]. split; [|split].
    + rewrite eval_Table_figures. unfold figs_view. simpl. f_equal.
      apply elem_of_nil_inv. intros g (r & c & Hcell)%elem_of_scan.
      assert (occupant st' (Z.of_nat r, Z.of_nat c) = Some g) as Ho
        by (apply occupant_Some; eauto).
      by rewrite Hnone in Ho.
    + unfold rectangular. simpl.
      by rewrite Hrows, Hcols, <- (ve_rows _ _ V0), <- (ve_columns _ _ V0).
    + by rewrite Hpl, <- (ve_players _ _ V0).
Qed.

Lemma delete_all_figures_empties_witness :
  eval Table_delete_all_figures standard_position = Ok ()
  ∧ (∀ q, occupant (exec Table_delete_all_figures standard_position) q
          = None)
  ∧ eval Table_figures (exec Table_delete_all_figures standard_position)
    = Ok []
  ∧ rectangular (exec Table_delete_all_figures standard_position)
  ∧ st_players (exec Table_delete_all_figures standard_position)
    = st_players standard_position.
Proof.
  apply (delete_all_figures_empties standard_position).
  - apply consistentb_sound. by vm_compute.
  - split; [by vm_compute|]. vm_compute. repeat constructor.
Defined.
